(** * bleach: sanitizing and linkifying HTML fragments

    A shallow embedding of [bleach/__init__.py] (module-level constants,
    [Cleaner.clean], [linkify] and its nested helpers) together with the
    properties its specification states about them.

    Conventions.
    - Python text is a list of characters with the code points 0 to 255
      ([str]); [u "..."] writes a literal.  The patterns are read as
      Python 3 reads a pattern that is a [str]: [\w], [\b], [\s] and
      [re.IGNORECASE] follow Unicode on these code points.
    - A dictionary whose iteration order shows in the output (the attribute
      mapping of a candidate link) is an association list with unique keys.
    - A function that can raise returns [res]; the linkifier, which mutates
      the parsed tree in place, is written in explicit state passing and
      hands the tree back on every exit, also on an exception.
    - html5lib (parser, tree walker, serializer) is outside the repository:
      it is an interface ([Html5lib]) the definitions are parameterised on. *)

From Stdlib Require Import List Ascii String Arith ZArith Lia Bool.
From stdpp Require Import base list gmap.
Import ListNotations.

Set Default Proof Using "Type".
Set Warnings "-register-all".
Local Open Scope list_scope.

(** ** Python text *)

Definition str := list ascii.

Definition u (s : string) : str := list_ascii_of_string s.

Definition dquote : ascii := "034"%char.
Definition LF : ascii := "010"%char.
Definition lparen : ascii := "("%char.
Definition rparen : ascii := ")"%char.

Module PyStr.

Definition eqb (a b : str) : bool := bool_decide (a = b).

(** [not s] for a string or [None]-able string: the empty string is falsy. *)
Definition truthy (s : str) : bool :=
  match s with [] => false | _ :: _ => true end.

Fixpoint startswith (p s : str) : bool :=
  match p, s with
  | [], _ => true
  | a :: p', b :: s' => Ascii.eqb a b && startswith p' s'
  | _ :: _, [] => false
  end.

Definition endswith (p s : str) : bool := startswith (rev p) (rev s).

(** [c in s] for a one-character [c]. *)
Definition contains (c : ascii) (s : str) : bool := existsb (Ascii.eqb c) s.

(** The longest prefix whose characters satisfy [f], and how the string
    goes on. *)
Fixpoint span (f : ascii -> bool) (s : str) : str * str :=
  match s with
  | [] => ([], [])
  | c :: s' =>
      if f c then let '(a, b) := span f s' in (c :: a, b) else ([], s)
  end.

(** [s.rstrip(c)] for a one-character [c]. *)
Definition rstrip (c : ascii) (s : str) : str :=
  rev (snd (span (Ascii.eqb c) (rev s))).

(** [s.replace(c, t)] for a one-character [c]. *)
Definition replace (c : ascii) (t : str) (s : str) : str :=
  flat_map (fun x => if Ascii.eqb x c then t else [x]) s.

(** [sep.join(l)]. *)
Fixpoint join (sep : str) (l : list str) : str :=
  match l with
  | [] => []
  | [x] => x
  | x :: l' => x ++ sep ++ join sep l'
  end.

(** [c * n]. *)
Definition times (c : ascii) (n : nat) : str := repeat c n.

Definition is_digit (c : ascii) : bool :=
  let n := nat_of_ascii c in (48 <=? n) && (n <=? 57).
Definition is_upper (c : ascii) : bool :=
  let n := nat_of_ascii c in (65 <=? n) && (n <=? 90).
Definition is_lower (c : ascii) : bool :=
  let n := nat_of_ascii c in (97 <=? n) && (n <=? 122).
(** The letters and digits above 127: the feminine and masculine ordinal,
    the superscripts 1, 2 and 3, the micro sign, the three fractions, and
    the letters from 192 on but for the multiplication and the division
    sign. *)
Definition is_latin1_word (c : ascii) : bool :=
  let n := nat_of_ascii c in
  (n =? 170) || (n =? 178) || (n =? 179) || (n =? 181) || (n =? 185)
  || (n =? 186) || ((188 <=? n) && (n <=? 190))
  || ((192 <=? n) && (n <=? 214)) || ((216 <=? n) && (n <=? 246))
  || (248 <=? n).
(** [\w] in a pattern that is matched by Unicode: a letter, a digit or
    the underscore. *)
Definition is_word (c : ascii) : bool :=
  is_digit c || is_upper c || is_lower c || Ascii.eqb c "_"%char
  || is_latin1_word c.
(** [\s] *)
Definition is_space (c : ascii) : bool :=
  let n := nat_of_ascii c in ((9 <=? n) && (n <=? 13)) || (n =? 32).

(** The capital letters above 127: 192 to 222 but for the multiplication
    sign. *)
Definition is_latin1_upper (c : ascii) : bool :=
  let n := nat_of_ascii c in
  ((192 <=? n) && (n <=? 214)) || ((216 <=? n) && (n <=? 222)).
Definition lower_char (c : ascii) : ascii :=
  if is_upper c || is_latin1_upper c then ascii_of_nat (nat_of_ascii c + 32)
  else c.
Definition lower (s : str) : str := map lower_char s.

End PyStr.

(** ** Exceptions and results *)

Inductive exn : Type :=
| RuntimeError   (** maximum recursion depth exceeded *)
| KeyError
| IndexError
| ValueError.

Inductive res (A : Type) : Type :=
| Ok (a : A)
| Raise (e : exn).
Arguments Ok {A} a.
Arguments Raise {A} e.

Definition res_bind {A B} (m : res A) (k : A -> res B) : res B :=
  match m with Ok a => k a | Raise e => Raise e end.

(** ** Attribute mappings *)

Definition attrs := list (str * str).

Module Dict.

Fixpoint get (k : str) (d : attrs) : option str :=
  match d with
  | [] => None
  | (k', v) :: d' => if PyStr.eqb k k' then Some v else get k d'
  end.

(** [d[k] = v]: an existing key keeps its place. *)
Fixpoint set (k v : str) (d : attrs) : attrs :=
  match d with
  | [] => [(k, v)]
  | (k', v') :: d' =>
      if PyStr.eqb k k' then (k, v) :: d' else (k', v') :: set k v d'
  end.

Fixpoint remove (k : str) (d : attrs) : attrs :=
  match d with
  | [] => []
  | (k', v') :: d' =>
      if PyStr.eqb k k' then d' else (k', v') :: remove k d'
  end.

(** [d.pop(k)]: the value and the mapping without the key; [KeyError]
    when the key is missing. *)
Definition pop (k : str) (d : attrs) : res (str * attrs) :=
  match get k d with
  | Some v => Ok (v, remove k d)
  | None => Raise KeyError
  end.

End Dict.

(** ** Patterns

    The two scanning patterns of the linkifier are matched by Python's
    backtracking matcher.  [Re] is such a matcher for the constructs the
    patterns use; a match is searched from left to right, alternatives are
    tried in order, and repetitions are greedy. *)

Module Re.

Inductive regex : Type :=
| Eps
| Chr (p : ascii -> bool)              (** one character of a class *)
| Seq (a b : regex)
| Alt (a b : regex)
| Star (a : regex)
| Rep (a : regex) (lo hi : nat)        (** [a{lo,hi}] *)
| NotBehind (ps : list (ascii -> bool)) (** [(?<!...)], nearest character first *)
| NotAhead (a : regex)                 (** [(?!...)] *)
| WordB                                (** [\b] *)
| Bol                                  (** [^] under [re.MULTILINE] *)
| Bos                                  (** [^] without [re.MULTILINE] *)
| Eol.                                 (** [$] without [re.MULTILINE] *)

Definition Plus (a : regex) : regex := Seq a (Star a).
Definition Opt (a : regex) : regex := Alt a Eps.

(** A character, compared as [re.IGNORECASE] does. *)
Definition chr_ci (c : ascii) : regex :=
  Chr (fun x => Ascii.eqb (PyStr.lower_char x) (PyStr.lower_char c)).

Fixpoint lit (s : str) : regex :=
  match s with
  | [] => Eps
  | c :: s' => Seq (chr_ci c) (lit s')
  end.

(** [(?:t1|t2|...)] *)
Fixpoint alts (l : list str) : regex :=
  match l with
  | [] => NotAhead Eps
  | [t] => lit t
  | t :: l' => Alt (lit t) (alts l')
  end.

Definition is_word_at (s : str) : bool :=
  match s with c :: _ => PyStr.is_word c | [] => false end.

Fixpoint behind (ps : list (ascii -> bool)) (prev : str) : bool :=
  match ps, prev with
  | [], _ => true
  | p :: ps', c :: prev' => p c && behind ps' prev'
  | _ :: _, [] => false
  end.

(** Where [$] matches without [re.MULTILINE]: at the end of the string and
    before a line feed that ends it. *)
Definition at_eol (rest : str) : bool :=
  match rest with
  | [] => true
  | [c] => Ascii.eqb c LF
  | _ => false
  end.

(** [rmatch r prev rest k]: match [r] at the position that has [prev]
    (nearest character first) before it and [rest] after it, and go on
    with [k]; the result is the text that follows the whole match. *)
Fixpoint rmatch (r : regex) (prev rest : str)
         (k : str -> str -> option str) {struct r} : option str :=
  match r with
  | Eps => k prev rest
  | Chr p =>
      match rest with
      | c :: rest' => if p c then k (c :: prev) rest' else None
      | [] => None
      end
  | Seq a b => rmatch a prev rest (fun prev' rest' => rmatch b prev' rest' k)
  | Alt a b =>
      match rmatch a prev rest k with
      | Some x => Some x
      | None => rmatch b prev rest k
      end
  | Star a =>
      (fix star (n : nat) (prev rest : str) {struct n} : option str :=
         match n with
         | 0 => k prev rest
         | S n' =>
             match rmatch a prev rest
                     (fun prev' rest' =>
                        if length rest' <? length rest
                        then star n' prev' rest' else None) with
             | Some x => Some x
             | None => k prev rest
             end
         end) (length rest) prev rest
  | Rep a lo hi =>
      (fix rep (lo hi : nat) (prev rest : str) {struct hi} : option str :=
         match hi with
         | 0 => k prev rest
         | S hi' =>
             match rmatch a prev rest
                     (fun prev' rest' => rep (pred lo) hi' prev' rest') with
             | Some x => Some x
             | None => match lo with 0 => k prev rest | S _ => None end
             end
         end) lo hi prev rest
  | NotBehind ps => if behind ps prev then None else k prev rest
  | NotAhead a =>
      match rmatch a prev rest (fun _ rest' => Some rest') with
      | Some _ => None
      | None => k prev rest
      end
  | WordB =>
      if xorb (is_word_at prev) (is_word_at rest) then k prev rest else None
  | Bol =>
      match prev with
      | [] => k prev rest
      | c :: _ => if Ascii.eqb c LF then k prev rest else None
      end
  | Bos => match prev with [] => k prev rest | _ :: _ => None end
  | Eol => if at_eol rest then k prev rest else None
  end.

(** The end of the match of [r] that starts here, as the number of
    characters matched. *)
Definition match_here (r : regex) (prev rest : str) : option nat :=
  match rmatch r prev rest (fun _ rest' => Some rest') with
  | Some rest' => Some (length rest - length rest')
  | None => None
  end.

(** [re.search]: the span [(start, end)] of the leftmost match. *)
Fixpoint search_from (r : regex) (at_ : nat) (prev rest : str)
  : option (nat * nat) :=
  match match_here r prev rest with
  | Some n => Some (at_, at_ + n)
  | None =>
      match rest with
      | [] => None
      | c :: rest' => search_from r (S at_) (c :: prev) rest'
      end
  end.

Definition search (r : regex) (s : str) : option (nat * nat) :=
  search_from r 0 [] s.

(** [finditer]: the spans [(start, end)] of the matches, from left to
    right, none overlapping another.  [at] is the position of [rest]. *)
Fixpoint scan (fuel : nat) (r : regex) (at_ : nat) (prev rest : str)
  : list (nat * nat) :=
  match fuel with
  | 0 => []
  | S fuel' =>
      match match_here r prev rest with
      | Some (S n) =>
          (at_, at_ + S n)
            :: scan fuel' r (at_ + S n) (rev (take (S n) rest) ++ prev)
                    (drop (S n) rest)
      | _ =>
          match rest with
          | [] => []
          | c :: rest' => scan fuel' r (S at_) (c :: prev) rest'
          end
      end
  end.

Definition finditer (r : regex) (s : str) : list (nat * nat) :=
  scan (S (length s)) r 0 [] s.

(** [re.sub(r, repl, s)] with a function [repl] of the matched text; an
    exception of [repl] ends the substitution. *)
Fixpoint sub_spans (spans : list (nat * nat)) (repl : str -> res str)
         (at_ : nat) (s : str) : res str :=
  match spans with
  | [] => Ok s
  | (b, e) :: spans' =>
      res_bind (repl (take (e - b) (drop (b - at_) s))) (fun new =>
      res_bind (sub_spans spans' repl e (drop (e - at_) s)) (fun rest =>
      Ok (take (b - at_) s ++ new ++ rest)))
  end.

Definition sub (r : regex) (repl : str -> res str) (s : str) : res str :=
  sub_spans (finditer r s) repl 0 s.

End Re.

Definition one_of (s : string) (c : ascii) : bool :=
  existsb (Ascii.eqb c) (list_ascii_of_string s).

Definition in_range (lo hi : nat) (c : ascii) : bool :=
  (lo <=? nat_of_ascii c) && (nat_of_ascii c <=? hi).

Fixpoint cat (l : list Re.regex) : Re.regex :=
  match l with
  | [] => Re.Eps
  | [r] => r
  | r :: l' => Re.Seq r (cat l')
  end.

Definition word : Re.regex := Re.Chr PyStr.is_word.
Definition word_or_dash : Re.regex :=
  Re.Chr (fun c => PyStr.is_word c || Ascii.eqb c "-"%char).

(** ** The small patterns and the callback chain *)

Definition is_punct (c : ascii) : bool :=
  Ascii.eqb c "."%char || Ascii.eqb c ","%char.

(** [punct_re = re.compile(r'([\.,]+)$')] *)
Definition punct_re : Re.regex :=
  Re.Seq (Re.Plus (Re.Chr is_punct)) Re.Eol.

(** [proto_re = re.compile(r'^[\w-]+:/{0,3}', re.IGNORECASE)] *)
Definition proto_re : Re.regex :=
  cat [Re.Bos; Re.Plus word_or_dash; Re.lit (u ":");
       Re.Rep (Re.chr_ci "/") 0 3].

(** A callback maps the attributes of a candidate link and the flag "this
    link is new" to new attributes, or to [None] to reject the link. *)
Definition callback := attrs -> bool -> option attrs.

(** [apply_callbacks(attrs, new)] *)
Fixpoint apply_callbacks (callbacks : list callback) (a : attrs) (new : bool)
  : option attrs :=
  match callbacks with
  | [] => Some a
  | cb :: rest =>
      match cb a new with
      | None => None
      | Some a' => apply_callbacks rest a' new
      end
  end.

(** ** [strip_wrapping_parentheses] *)

(** The first loop: consecutive opening parentheses at the start. *)
Definition count_opening (fragment : str) : nat :=
  length (fst (PyStr.span (Ascii.eqb lparen) fragment)).

(** One turn of the second loop, over the reversed fragment; the loop state
    is [(closing_parentheses, skip, newer_frag)]. *)
Definition strip_step (opening : nat) (st : nat * bool * str) (char : ascii)
  : nat * bool * str :=
  let '(closing, skip, newer_frag) := st in
  if Ascii.eqb char rparen && (closing <? opening) && negb skip
  then (S closing, skip, newer_frag)
  else (closing,
        (if negb (Ascii.eqb char rparen) then true else skip),
        newer_frag ++ [char]).

Definition strip_wrapping_parentheses (fragment : str) : str * nat * nat :=
  let opening_parentheses := count_opening fragment in
  if 0 <? opening_parentheses then
    let fragment := drop opening_parentheses fragment in
    let reverse_fragment := rev fragment in
    let '(closing_parentheses, _, newer_frag) :=
      fold_left (strip_step opening_parentheses) reverse_fragment
                (0, false, []) in
    (rev newer_frag, opening_parentheses, closing_parentheses)
  else (fragment, opening_parentheses, 0).

(** ** [link_repl] and [email_repl] *)

(** Lines 501-512 of [link_repl]: the match without its wrapping
    parentheses, and the counts [open_brackets] and [close_brackets]. *)
Definition unwrap_parentheses (m : str) : str * nat * nat :=
  let '(url, open_brackets, close_brackets) :=
    if PyStr.startswith (u "(") m
    then strip_wrapping_parentheses m
    else (m, 0, 0) in
  if PyStr.endswith (u ")") url && negb (PyStr.contains lparen url) then
    let new_url := PyStr.rstrip rparen url in
    (new_url, open_brackets, close_brackets + (length url - length new_url))
  else (url, open_brackets, close_brackets).

(** Lines 514-518: [m = re.search(punct_re, url)], and with a match the
    trailing punctuation [end = m.group(0)] and [url = url[0:m.start()]]. *)
Definition strip_punct (url : str) : str * str :=
  match Re.search punct_re url with
  | Some (start, end_) => (take start url, take (end_ - start) (drop start url))
  | None => (url, [])
  end.

(** Lines 519-522. *)
Definition default_href (url : str) : str :=
  match Re.search proto_re url with
  | Some _ => url
  | None => u "http://" ++ url
  end.

(** Lines 524-527: the candidate handed to the callbacks. *)
Definition new_link (url : str) : attrs :=
  [(u "_text", url); (u "href", default_href url)].

(** [' '.join(attr.format(k, v) for k, v in link.items())] *)
Definition attribs (link : attrs) : str :=
  PyStr.join (u " ")
    (map (fun kv => fst kv ++ u "=" ++ [dquote] ++ snd kv ++ [dquote]) link).

(** ['<a href="{0!s}" {1!s}>{2!s}</a>'] *)
Definition anchor (_href : str) (link : attrs) (_text : str) : str :=
  u "<a href=" ++ [dquote] ++ _href ++ [dquote] ++ u " " ++ attribs link
    ++ u ">" ++ _text ++ u "</a>".

Definition link_repl (callbacks : list callback) (m : str) : res str :=
  let '(url, open_brackets, close_brackets) := unwrap_parentheses m in
  let '(url, end_) := strip_punct url in
  match apply_callbacks callbacks (new_link url) true with
  | None =>
      Ok (PyStr.times lparen open_brackets ++ url
            ++ PyStr.times rparen close_brackets)
  | Some link =>
      res_bind (Dict.pop (u "_text") link) (fun '(_text, link) =>
      res_bind (Dict.pop (u "href") link) (fun '(_href, link) =>
      Ok (PyStr.times lparen open_brackets ++ anchor _href link _text
            ++ end_ ++ PyStr.times rparen close_brackets)))
  end.

(** The candidate of [email_repl]. *)
Definition email_addr (m : str) : str := PyStr.replace dquote (u "&quot;") m.

Definition new_email_link (addr : str) : attrs :=
  [(u "_text", addr); (u "href", u "mailto:" ++ addr)].

Definition email_repl (callbacks : list callback) (m : str) : res str :=
  let addr := email_addr m in
  match apply_callbacks callbacks (new_email_link addr) true with
  | None => Ok addr
  | Some link =>
      res_bind (Dict.pop (u "href") link) (fun '(_href, link) =>
      res_bind (Dict.pop (u "_text") link) (fun '(_text, link) =>
      Ok (anchor _href link _text)))
  end.



(** Callbacks used in the examples: one that rejects every link, and one in
    the manner of the default chain, which marks the link and keeps the
    rest. *)
Definition reject_all : callback := fun _ _ => None.

Definition add_rel_nofollow : callback :=
  fun a _ => Some (Dict.set (u "rel") (u "nofollow") a).

(** ** The top-level domains of [url_re] *)

(** [s.split()]: the words of [s] between runs of white space. *)
Fixpoint split_ws_from (word : str) (s : str) : list str :=
  match s with
  | [] => if PyStr.truthy word then [word] else []
  | c :: s' =>
      if PyStr.is_space c
      then (if PyStr.truthy word then word :: split_ws_from [] s'
            else split_ws_from [] s')
      else split_ws_from (word ++ [c]) s'
  end.

Definition split_ws (s : str) : list str := split_ws_from [] s.

Definition TLDS_text : string :=
  "ac ad ae aero af ag ai al am an ao aq ar arpa as asia at au aw ax az
       ba bb bd be bf bg bh bi biz bj bm bn bo br bs bt bv bw by bz ca cat
       cc cd cf cg ch ci ck cl cm cn co com coop cr cu cv cx cy cz de dj dk
       dm do dz ec edu ee eg er es et eu fi fj fk fm fo fr ga gb gd ge gf gg
       gh gi gl gm gn gov gp gq gr gs gt gu gw gy hk hm hn hr ht hu id ie il
       im in info int io iq ir is it je jm jo jobs jp ke kg kh ki km kn kp
       kr kw ky kz la lb lc li lk lr ls lt lu lv ly ma mc md me mg mh mil mk
       ml mm mn mo mobi mp mq mr ms mt mu museum mv mw mx my mz na name nc ne
       net nf ng ni nl no np nr nu nz om org pa pe pf pg ph pk pl pm pn post
       pr pro ps pt pw py qa re ro rs ru rw sa sb sc sd se sg sh si sj sk sl
       sm sn so sr ss st su sv sx sy sz tc td tel tf tg th tj tk tl tm tn to
       tp tr travel tt tv tw tz ua ug uk us uy uz va vc ve vg vi vn vu wf ws
       xn xxx ye yt yu za zm zw".

(** The text of [TLDS], [.split()], and then [TLDS.reverse()]: the order in
    which ['|'.join(TLDS)] lists the alternatives of [url_re]. *)
Definition TLDS : list str := rev (split_ws (u TLDS_text)).

(** [a] is a prefix of [b] and shorter. *)
Definition proper_prefix (a b : str) : bool :=
  PyStr.startswith a b && (length a <? length b).

(** No entry of the list is a proper prefix of a later entry. *)
Fixpoint longer_first (l : list str) : bool :=
  match l with
  | [] => true
  | a :: rest =>
      forallb (fun b => negb (proper_prefix a b)) rest && longer_first rest
  end.

(** An alternative of a pattern compiled with [re.IGNORECASE] matches at
    the start of [s]. *)
Definition alt_matches (t s : str) : bool :=
  PyStr.startswith (PyStr.lower t) (PyStr.lower s).

(** The alternative of [(?:t1|t2|...)] that the matcher takes first at the
    start of [s]: alternatives are tried from left to right. *)
Definition first_alt (alts : list str) (s : str) : option str :=
  List.find (fun t => alt_matches t s) alts.


(** ** html5lib

    The parser, the tree walker and the serializer are html5lib's.  A
    parsed fragment is an etree element: a tag, attributes, the text before
    the first child, the text after the element ([tail]), and children.
    [eid] stands for the identity of the Python object; the parser's result
    is a template whose nodes get their identities when they are
    allocated. *)

Inductive elem : Type := Elem {
  eid : nat;
  tag : str;
  attrib : attrs;
  text : option str;
  tail : option str;
  children : list elem
}.

(** The events of the tree walker. *)
Inductive token : Type :=
| StartTag (name : str) (data : attrs)
| EndTag (name : str)
| Characters (data : str)
| Comment (data : str).

Class Html5lib : Type := {
  (** [html5lib.HTMLParser().parseFragment], tags in the XHTML namespace *)
  parseFragment : str -> elem;
  (** [_serialize]: the etree walker and [HTMLSerializer.render] on a tree *)
  serialize : elem -> str;
  (** [html5lib.filters.sanitizer.allowed_protocols], in iteration order *)
  allowed_protocols : list str;
  (** the walker on the tree [HTMLParser(namespaceHTMLElements=False)]
      parses the text to, as [Cleaner.clean] sets it up *)
  parse_and_walk : str -> list token;
  (** [HTMLSerializer.render] on a stream of events *)
  render : list token -> str
}.

Definition with_text (e : elem) (v : option str) : elem :=
  Elem (eid e) (tag e) (attrib e) v (tail e) (children e).
Definition with_tail (e : elem) (v : option str) : elem :=
  Elem (eid e) (tag e) (attrib e) (text e) v (children e).
Definition with_children (e : elem) (cs : list elem) : elem :=
  Elem (eid e) (tag e) (attrib e) (text e) (tail e) cs.
Definition with_attrib (e : elem) (a : attrs) : elem :=
  Elem (eid e) (tag e) a (text e) (tail e) (children e).

(** [x or ''] and the truth value of a text that may be [None]. *)
Definition or_empty (o : option str) : str :=
  match o with Some s => s | None => [] end.
Definition otruthy (o : option str) : bool :=
  match o with Some s => PyStr.truthy s | None => false end.

Definition ETREE_TAG (x : str) : str :=
  u "{http://www.w3.org/1999/xhtml}" ++ x.

(** Python's indexing of a list by an integer that may be negative. *)
Definition py_index {A} (l : list A) (i : Z) : option nat :=
  let n := Z.of_nat (length l) in
  if ((0 <=? i) && (i <? n))%Z then Some (Z.to_nat i)
  else if ((i <? 0) && (0 <=? i + n))%Z then Some (Z.to_nat (i + n))
  else None.

(** [l.insert(i, x)]: a position outside the list is clamped. *)
Definition py_insert {A} (l : list A) (i : Z) (x : A) : list A :=
  let n := Z.of_nat (length l) in
  let p := if (i <? 0)%Z then Z.to_nat (Z.max 0 (i + n))
           else Z.to_nat (Z.min i n) in
  take p l ++ x :: drop p l.

(** [tree.remove(node)]: the first child that is [node] goes;
    [ValueError] when there is none. *)
Fixpoint remove_child (id : nat) (cs : list elem) : res (list elem) :=
  match cs with
  | [] => Raise ValueError
  | c :: cs' =>
      if eid c =? id then Ok cs'
      else res_bind (remove_child id cs') (fun r => Ok (c :: r))
  end.

(** ** The two scanning patterns *)

Definition is_space_u (c : ascii) : bool :=
  let n := nat_of_ascii c in
  PyStr.is_space c || ((28 <=? n) && (n <=? 31)) || (n =? 133) || (n =? 160).

(** The characters a path goes on with: no white space, brace, bar,
    backslash, caret, bracket, backquote, angle bracket or double quote. *)
Definition path_char (c : ascii) : bool :=
  negb (is_space_u c || one_of "{}|\^[]`<>" c || Ascii.eqb c dquote).

Definition url_re `{Html5lib} : Re.regex :=
  cat [ Re.Star (Re.chr_ci lparen);               (* opening parentheses *)
        Re.WordB;                                           (* \b *)
        Re.NotBehind [one_of "@."];                         (* (?<![@.]) *)
        Re.Opt (cat [ Re.alts allowed_protocols;            (* scheme:/{0,3} *)
                      Re.lit (u ":");
                      Re.Rep (Re.chr_ci "/") 0 3;
                      Re.Opt (cat [ Re.Opt (cat [Re.Plus word; Re.lit (u ":")]);
                                    Re.Plus word;           (* user:password@ *)
                                    Re.lit (u "@") ]) ]);
        Re.Plus (cat [Re.Plus word_or_dash; Re.lit (u ".")]); (* ([\w-]+\.)+ *)
        Re.alts TLDS;                                       (* (?:{1}) *)
        Re.Opt (cat [Re.lit (u ":"); Re.Plus (Re.Chr PyStr.is_digit)]);
        Re.NotAhead (cat [Re.lit (u "."); word]);           (* (?!\.\w) *)
        Re.WordB;                                           (* \b *)
        Re.Opt (cat [ Re.Chr (one_of "/?");                 (* the path *)
                      Re.Star (Re.Chr path_char) ]) ].

(** [[-!#$%&'*+/=?^_`{0!s}|~0-9A-Z]] under [re.IGNORECASE]. *)
Definition atext (c : ascii) : bool :=
  one_of "-!#$%&'*+/=?^_`{0!s}|~" c || PyStr.is_digit c
  || PyStr.is_upper c || PyStr.is_lower c.

(** [[\001-\010\013\014\016-\037!#-\[\]-\177]] *)
Definition qtext (c : ascii) : bool :=
  in_range 1 8 c || in_range 11 12 c || in_range 14 31 c
  || Ascii.eqb c "!"%char || in_range 35 91 c || in_range 93 127 c.

(** [[\001-011\013\014\016-\177]]: the range runs from [\001] to the
    digit [0]. *)
Definition qpair (c : ascii) : bool :=
  in_range 1 48 c || Ascii.eqb c "1"%char || in_range 11 12 c
  || in_range 14 127 c.

Definition alnum : Re.regex :=
  Re.Chr (fun c => PyStr.is_upper c || PyStr.is_lower c || PyStr.is_digit c).
Definition alnum_dash : Re.regex :=
  Re.Chr (fun c => PyStr.is_upper c || PyStr.is_lower c || PyStr.is_digit c
                   || Ascii.eqb c "-"%char).
Definition alpha : Re.regex :=
  Re.Chr (fun c => PyStr.is_upper c || PyStr.is_lower c).

Definition email_re : Re.regex :=
  cat [ Re.NotBehind [one_of "/"; one_of "/"];              (* (?<!//) *)
        Re.Alt
          (cat [ Re.Plus (Re.Chr atext);                    (* dot-atom *)
                 Re.Star (cat [Re.lit (u "."); Re.Plus (Re.Chr atext)]) ])
          (cat [ Re.Bol; Re.Chr (Ascii.eqb dquote);         (* quoted-string *)
                 Re.Star (Re.Alt (Re.Chr qtext)
                                 (cat [Re.Chr (one_of "\"); Re.Chr qpair]));
                 Re.Chr (Ascii.eqb dquote) ]);
        Re.lit (u "@");
        Re.Plus (cat [ alnum;                               (* domain *)
                       Re.Opt (cat [Re.Rep alnum_dash 0 61; alnum]);
                       Re.lit (u ".") ]);
        Re.Rep alpha 2 6 ].

(** ** The state of one [linkify] call *)

(** [_seen] holds the identities of the anchors that are done; [next_id] is
    the identity the next allocated node gets.  [depth_reached] is a ghost
    field: the deepest nesting of [linkify_nodes] activations so far. *)
Record lstate : Type := {
  seen : gset nat;
  next_id : nat;
  depth_reached : nat
}.

Definition add_seen (n : elem) (st : lstate) : lstate :=
  {| seen := {[ eid n ]} ∪ seen st;
     next_id := next_id st;
     depth_reached := depth_reached st |}.

Definition in_seen (n : elem) (st : lstate) : bool :=
  bool_decide (eid n ∈ seen st).

Definition note_depth (d : nat) (st : lstate) : lstate :=
  {| seen := seen st;
     next_id := next_id st;
     depth_reached := Nat.max d (depth_reached st) |}.

(** The nodes of a parsed template get fresh identities, in document
    order. *)
Fixpoint alloc (next : nat) (t : elem) : elem * nat :=
  let '(cs, next') :=
    (fix alloc_list (n : nat) (l : list elem) : list elem * nat :=
       match l with
       | [] => ([], n)
       | c :: l' =>
           let '(c', n1) := alloc n c in
           let '(l'', n2) := alloc_list n1 l' in
           (c' :: l'', n2)
       end) (S next) (children t) in
  (Elem next (tag t) (attrib t) (text t) (tail t) cs, next').

(** [parser.parseFragment(s)] inside [linkify]. *)
Definition parse `{Html5lib} (s : str) (st : lstate) : elem * lstate :=
  let '(t, next') := alloc (next_id st) (parseFragment s) in
  (t, {| seen := seen st; next_id := next';
         depth_reached := depth_reached st |}).

(** ** [replace_nodes] *)

(** [tree[i].tail = (tree[i].tail or '') + s] *)
Definition append_tail (tree : elem) (i : Z) (s : str) : res elem :=
  match py_index (children tree) i with
  | None => Raise IndexError
  | Some p =>
      Ok (with_children tree
            (alter (fun c => with_tail c (Some (or_empty (tail c) ++ s))) p
                   (children tree)))
  end.

(** [tree.text = (tree.text or '') + s] *)
Definition append_text (tree : elem) (s : str) : elem :=
  with_text tree (Some (or_empty (text tree) ++ s)).

(** The loop over [new_tree]: its anchors are marked seen, and every node
    goes into [tree] at [index + count]. *)
Definition insert_step (index : Z) (acc : elem * lstate * nat) (n : elem)
  : elem * lstate * nat :=
  let '(tree, st, count) := acc in
  let st := if PyStr.eqb (tag n) (ETREE_TAG (u "a")) then add_seen n st
            else st in
  (with_children tree (py_insert (children tree) (index + Z.of_nat count) n),
   st, S count).

(** The node the name [node] stands for now: the child of [tree] that is
    this object, as the statements before have left it. *)
Definition current (tree : elem) (node : elem) : elem :=
  match List.find (fun c => eid c =? eid node) (children tree) with
  | Some c => c
  | None => node
  end.

Definition replace_nodes `{Html5lib} (tree : elem) (new_frag : str)
    (node : option elem) (index : Z) (st : lstate)
  : res (elem * nat) * lstate :=
  let '(new_tree, st) := parse new_frag st in
  (* capture any non-tag text at the start of the fragment *)
  let captured :=
    if otruthy (text new_tree) then
      if (index =? 0)%Z then Ok (append_text tree (or_empty (text new_tree)))
      else append_tail tree (index - 1) (or_empty (text new_tree))
    else Ok tree in
  match captured with
  | Raise e => (Raise e, st)
  | Ok tree =>
      (* then put in the tagged elements into the old tree *)
      let '(tree, st, count) :=
        fold_left (insert_step index) (children new_tree) (tree, st, 0) in
      (* if we got a node to remove... *)
      match node with
      | None => (Ok (tree, count), st)
      | Some node =>
          let node := current tree node in
          (* first, grab the node tail so we don't lose text *)
          let grabbed :=
            if otruthy (tail node) then
              if (index + Z.of_nat count =? 0)%Z
              then Ok (append_text tree (or_empty (tail node)))
              else append_tail tree (index + Z.of_nat count - 1)
                               (or_empty (tail node))
            else Ok tree in
          match grabbed with
          | Raise e => (Raise e, st)
          | Ok tree =>
              match remove_child (eid node) (children tree) with
              | Raise e => (Raise e, st)
              | Ok cs => (Ok (with_children tree cs, count), st)
              end
          end
      end
  end.

(** The text below a node in document order: its own text, and for every
    child the text below the child and the child's tail. *)
Fixpoint text_content (t : elem) : str :=
  or_empty (text t)
    ++ flat_map (fun c => text_content c ++ or_empty (tail c)) (children t).

Definition texts (cs : list elem) : str :=
  flat_map (fun c => text_content c ++ or_empty (tail c)) cs.

(** ** [linkify_nodes] *)

(** Modelled from the spec: [bleach.encoding.force_unicode] is not among
    the sources; the spec names character-encoding normalization as an
    external step.  The text of this model is already decoded, so there is
    nothing to normalize. *)
Definition force_unicode (s : str) : str := s.

(** How an activation of the walk ends. *)
Inductive exit : Type :=
| Normal
| Raised (e : exn)
| OutOfFuel.   (** the model's fuel ran out: the run is longer *)

(** The three parts of one turn of the [while] loop say how the turn goes
    on. *)
Inductive text_step : Type :=
| TextRestart (tree : elem) (current_child : Z) (st : lstate)
| TextContinue (tree : elem) (current_child : Z) (st : lstate)
| TextPass
| TextRaise (e : exn) (st : lstate).

Inductive tail_step : Type :=
| TailContinue (tree : elem) (st : lstate)
| TailPass (tree : elem) (st : lstate)
| TailRaise (e : exn) (st : lstate).

Inductive node_step : Type :=
| NodeStay (tree : elem) (current_child : Z) (st : lstate)
| NodeDescend (node : elem) (parse_text : bool)
| NodeRaise (e : exn) (st : lstate).

(** [node = tree] below 0 and [node = tree[current_child]] otherwise; the
    name [node] is an alias, so a write to [node] is a write into the
    tree. *)
Definition node_at (tree : elem) (current_child : Z) : res elem :=
  if (current_child <? 0)%Z then Ok tree
  else match py_index (children tree) current_child with
       | Some p => match children tree !! p with
                   | Some c => Ok c
                   | None => Raise IndexError
                   end
       | None => Raise IndexError
       end.

Definition set_node (tree : elem) (current_child : Z) (node : elem) : elem :=
  if (current_child <? 0)%Z then node
  else with_children tree
         (<[Z.to_nat current_child := node]> (children tree)).

Section walk.

Context `{Html5lib}.
Variables (callbacks : list callback) (skip_pre parse_email : bool).
(** How many activations of [linkify_nodes] the interpreter's recursion
    limit leaves room for.  The calls an activation makes itself (the
    substitution, the callbacks, the parser) are taken to fit below it:
    the recursion error is raised where [linkify_nodes] is entered. *)
Variable limit : nat.

Definition _render (tree : elem) : str := force_unicode (serialize tree).

Definition _render_inner (node : elem) : str :=
  or_empty (text node)
    ++ flat_map (fun subnode => _render subnode ++ or_empty (tail subnode))
                (children node).

(** Lines 404-422: the text of the tree, at [current_child < 0]. *)
Definition text_phase (tree : elem) (parse_text : bool) (current_child : Z)
    (st : lstate) : text_step :=
  if parse_text && otruthy (text tree) then
    let old_txt := or_empty (text tree) in
    let after_email : text_step + str :=
      if parse_email then
        match Re.sub email_re (email_repl callbacks) old_txt with
        | Raise e => inl (TextRaise e st)
        | Ok new_txt =>
            if PyStr.truthy new_txt && negb (PyStr.eqb new_txt old_txt) then
              match replace_nodes (with_text tree (Some [])) new_txt None 0 st
              with
              | (Raise e, st') => inl (TextRaise e st')
              | (Ok (tree', adj), st') =>
                  inl (TextRestart tree' (current_child + Z.of_nat adj) st')
              end
            else inr new_txt
        end
      else inr old_txt in
    match after_email with
    | inl step => step
    | inr new_txt =>
        match Re.sub url_re (link_repl callbacks) new_txt with
        | Raise e => TextRaise e st
        | Ok new_txt =>
            if negb (PyStr.eqb new_txt old_txt) then
              match replace_nodes (with_text tree (Some [])) new_txt None 0 st
              with
              | (Raise e, st') => TextRaise e st'
              | (Ok (tree', adj), st') =>
                  TextContinue tree' (current_child + Z.of_nat adj) st'
              end
            else TextPass
        end
    end
  else TextPass.

(** Lines 426-444: the tail of [node]. *)
Definition tail_phase (tree node : elem) (parse_text : bool)
    (current_child : Z) (st : lstate) : tail_step :=
  if parse_text && otruthy (tail node) then
    let old_tail := or_empty (tail node) in
    let cleared := set_node tree current_child (with_tail node (Some [])) in
    let after_email : tail_step + str :=
      if parse_email then
        match Re.sub email_re (email_repl callbacks) old_tail with
        | Raise e => inl (TailRaise e st)
        | Ok new_tail =>
            if negb (PyStr.eqb new_tail old_tail) then
              match replace_nodes cleared new_tail None (current_child + 1) st
              with
              | (Raise e, st') => inl (TailRaise e st')
              | (Ok (tree', _), st') => inl (TailContinue tree' st')
              end
            else inr new_tail
        end
      else inr old_tail in
    match after_email with
    | inl step => step
    | inr new_tail =>
        match Re.sub url_re (link_repl callbacks) new_tail with
        | Raise e => TailRaise e st
        | Ok new_tail =>
            if negb (PyStr.eqb new_tail old_tail) then
              match replace_nodes cleared new_tail None (current_child + 1) st
              with
              | (Raise e, st') => TailRaise e st'
              | (Ok (tree', _), st') => TailPass tree' st'
              end
            else TailPass tree st
        end
    end
  else TailPass tree st.

(** Lines 461-471: the callbacks accepted the anchor [node]. *)
Definition update_anchor (node : elem) (text_ : str) (a : attrs)
    (st : lstate) : elem * lstate :=
  let text_ := force_unicode text_ in
  let node :=
    with_attrib node
      (fold_left (fun d kv => Dict.set (fst kv) (snd kv) d) a (attrib node)) in
  let node := with_children node [] in
  let '(frag, st) := parse text_ st in
  let node := with_text node (text frag) in
  let node := with_children node (children node ++ children frag) in
  (node, add_seen node st).

(** Lines 446-477: the anchor, or the walk into [node]. *)
Definition node_phase (tree node : elem) (parse_text : bool)
    (current_child : Z) (st : lstate) : node_step :=
  if PyStr.eqb (tag node) (ETREE_TAG (u "a")) && negb (in_seen node st) then
    match Dict.get (u "href") (attrib node) with
    | None => NodeStay tree current_child st
    | Some _ =>
        let _text := _render_inner node in
        let a := Dict.set (u "_text") _text (attrib node) in
        match apply_callbacks callbacks a false with
        | None =>
            (* <a> tag replaced by the text within it *)
            match replace_nodes tree _text (Some node) current_child st with
            | (Raise e, st') => NodeRaise e st'
            | (Ok (tree', _), st') =>
                (* pull back current_child by 1 to scan the new nodes
                   again. *)
                NodeStay tree' (current_child - 1) st'
            end
        | Some a =>
            match Dict.pop (u "_text") a with
            | Raise e => NodeRaise e st
            | Ok (text_, a) =>
                let '(node', st') := update_anchor node text_ a st in
                NodeStay (set_node tree current_child node') current_child st'
            end
        end
    end
  else if (0 <=? current_child)%Z then
    if PyStr.eqb (tag node) (ETREE_TAG (u "pre")) && skip_pre
    then NodeDescend node false
    else if negb (in_seen node st) then NodeDescend node parse_text
    else NodeStay tree current_child st
  else NodeStay tree current_child st.

(** One turn of the [while] loop of [linkify_nodes], at the cursor
    [current_child]; [again] is the loop itself, for the turns that follow
    and for the activations below.  [depth] counts the activations of
    [linkify_nodes] on the stack, this one included.  The local [children]
    of the source is written and never read; it is left out.  The tree
    comes back on every exit. *)
Definition loop_turn
    (again : nat -> elem -> bool -> Z -> lstate -> exit * elem * lstate)
    (depth : nat) (tree : elem) (parse_text : bool) (current_child : Z)
    (st : lstate) : exit * elem * lstate :=
  let linkify_nodes (tree : elem) (parse_text : bool) (st : lstate) :=
    if limit <? S depth then (Raised RuntimeError, tree, st)
    else again (S depth) tree parse_text (-1)%Z (note_depth (S depth) st) in
  if negb (current_child <? Z.of_nat (length (children tree)))%Z
  then (Normal, tree, st)
  else if negb (otruthy (text tree)) then (Normal, tree, st)
  else
    match (if (current_child <? 0)%Z
           then text_phase tree parse_text current_child st
           else TextPass) with
    | TextRaise e st' => (Raised e, tree, st')
    | TextRestart tree' current_child' st' =>
        match linkify_nodes tree' true st' with
        | (Normal, tree'', st'') =>
            again depth tree'' parse_text current_child' st''
        | stopped => stopped
        end
    | TextContinue tree' current_child' st' =>
        again depth tree' parse_text current_child' st'
    | TextPass =>
        match node_at tree current_child with
        | Raise e => (Raised e, tree, st)
        | Ok node =>
        match tail_phase tree node parse_text current_child st with
        | TailRaise e st' => (Raised e, tree, st')
        | TailContinue tree' st' =>
            again depth tree' parse_text current_child st'
        | TailPass tree' st' =>
            match node_at tree' current_child with
            | Raise e => (Raised e, tree', st')
            | Ok node =>
            match node_phase tree' node parse_text current_child st' with
            | NodeRaise e st'' => (Raised e, tree', st'')
            | NodeStay tree'' current_child' st'' =>
                again depth tree'' parse_text (current_child' + 1)%Z st''
            | NodeDescend node parse_text' =>
                match linkify_nodes node parse_text' st' with
                | (Normal, node', st'') =>
                    again depth (set_node tree' current_child node')
                          parse_text (current_child + 1)%Z st''
                | (stopped, node', st'') =>
                    (stopped, set_node tree' current_child node', st'')
                end
            end
            end
        end
        end
    end.

(** The [while] loop, from the cursor [current_child] on. *)
Fixpoint linkify_loop (fuel depth : nat) (tree : elem) (parse_text : bool)
    (current_child : Z) (st : lstate) {struct fuel} : exit * elem * lstate :=
  match fuel with
  | 0 => (OutOfFuel, tree, st)
  | S fuel =>
      loop_turn (linkify_loop fuel) depth tree parse_text current_child st
  end.

(** [linkify_nodes(tree, parse_text)], called from depth [depth]. *)
Definition linkify_nodes (fuel depth : nat) (tree : elem) (parse_text : bool)
    (st : lstate) : exit * elem * lstate :=
  if limit <? S depth then (Raised RuntimeError, tree, st)
  else linkify_loop fuel (S depth) tree parse_text (-1)
                    (note_depth (S depth) st).

(** ** [linkify] *)

(** What a call of [linkify] comes to. *)
Inductive outcome : Type :=
| Returns (s : str)
| Raises (e : exn)
| Unfinished.   (** the model's fuel ran out *)

(** The outcome, the exceptions [log.exception] recorded, and the forest
    and the state the walk left; [None] when there was no walk. *)
Record run : Type := {
  result : outcome;
  logged : list exn;
  walked : option (elem * lstate)
}.

Definition initial : lstate :=
  {| seen := ∅; next_id := 0; depth_reached := 0 |}.

Definition linkify (fuel : nat) (text_ : str) : run :=
  let text_ := force_unicode text_ in
  if negb (PyStr.truthy text_) then
    {| result := Returns []; logged := []; walked := None |}
  else
    let '(forest, st) := parse text_ initial in
    match linkify_nodes fuel 0 forest true st with
    | (Normal, forest, st) =>
        {| result := Returns (_render forest); logged := [];
           walked := Some (forest, st) |}
    | (Raised RuntimeError, forest, st) =>
        (* If we hit the max recursion depth, just return what we've got. *)
        {| result := Returns (_render forest); logged := [RuntimeError];
           walked := Some (forest, st) |}
    | (Raised e, forest, st) =>
        {| result := Raises e; logged := []; walked := Some (forest, st) |}
    | (OutOfFuel, forest, st) =>
        {| result := Unfinished; logged := []; walked := Some (forest, st) |}
    end.

End walk.

(** ** A small html5lib for the examples

    [Mini] reads and writes the fragments the examples use: character data
    with the entities [&amp;], [&lt;], [&gt;] and [&quot;], and elements
    with double-quoted attribute values, each closed by its end tag.  On
    these, html5lib builds the same trees and writes the same text. *)

Module Mini.

Definition entities : list (str * ascii) :=
  [(u "&amp;", "&"%char); (u "&lt;", "<"%char); (u "&gt;", ">"%char);
   (u "&quot;", dquote)].

(** The entity that starts [s], if one does. *)
Fixpoint entity (es : list (str * ascii)) (s : str) : option (ascii * str) :=
  match es with
  | [] => None
  | (name, c) :: es' =>
      if PyStr.startswith name s then Some (c, drop (length name) s)
      else entity es' s
  end.

(** Character data up to the next tag. *)
Fixpoint read_text (fuel : nat) (s : str) : str * str :=
  match fuel, s with
  | S fuel', c :: s' =>
      if Ascii.eqb c "<"%char then ([], s)
      else match entity entities s with
           | Some (e, rest) =>
               let '(t, r) := read_text fuel' rest in (e :: t, r)
           | None => let '(t, r) := read_text fuel' s' in (c :: t, r)
           end
  | _, _ => ([], s)
  end.

Definition skip_spaces (s : str) : str := snd (PyStr.span PyStr.is_space s).

Definition is_name_char (c : ascii) : bool :=
  PyStr.is_word c || Ascii.eqb c "-"%char.

(** The attributes of a start tag, up to and with its [>]. *)
Fixpoint read_attrs (fuel : nat) (s : str) : attrs * str :=
  match fuel with
  | 0 => ([], s)
  | S fuel' =>
      match skip_spaces s with
      | [] => ([], [])
      | c :: s' =>
          if Ascii.eqb c ">"%char then ([], s')
          else
            let '(k, r) := PyStr.span is_name_char (c :: s') in
            match r with
            | eq :: q :: r' =>
                if Ascii.eqb eq "="%char && Ascii.eqb q dquote then
                  let '(v, r'') :=
                    PyStr.span (fun x => negb (Ascii.eqb x dquote)) r' in
                  let '(rest, s'') := read_attrs fuel' (drop 1 r'') in
                  ((k, fst (read_text (length v) v)) :: rest, s'')
                else ([], r)
            | _ => ([], r)
            end
      end
  end.

Definition some_text (s : str) : option str :=
  match s with [] => None | _ => Some s end.

(** A sequence of nodes up to an end tag or the end of the input: the
    text before the first node, the nodes, and the input that is left.
    [qualify] makes the tag of an element from its name. *)
Fixpoint read_nodes (qualify : str -> str) (fuel : nat) (s : str)
  : str * list elem * str :=
  let '(txt, s1) := read_text (length s) s in
  match fuel, s1 with
  | S fuel', lt :: c :: s2 =>
      if Ascii.eqb c "/"%char then
        (txt, [], drop 1 (snd (PyStr.span
                                 (fun x => negb (Ascii.eqb x ">"%char)) s2)))
      else
        let '(name, s3) := PyStr.span is_name_char (c :: s2) in
        let '(a, s4) := read_attrs (length s3) s3 in
        let '(inner_text, inner, s5) := read_nodes qualify fuel' s4 in
        let '(tail_text, siblings, s6) := read_nodes qualify fuel' s5 in
        (txt,
         Elem 0 (qualify (PyStr.lower name)) a (some_text inner_text)
              (some_text tail_text) inner :: siblings,
         s6)
  | _, _ => (txt, [], [])
  end.

Definition parse_with (qualify : str -> str) (s : str) : elem :=
  let '(txt, nodes, _) := read_nodes qualify (length s) s in
  Elem 0 (u "DOCUMENT_FRAGMENT") [] (some_text txt) None nodes.

Definition escape (s : str) : str :=
  flat_map (fun c =>
              if Ascii.eqb c "&"%char then u "&amp;"
              else if Ascii.eqb c "<"%char then u "&lt;"
              else if Ascii.eqb c ">"%char then u "&gt;"
              else [c]) s.

Definition escape_value (s : str) : str :=
  flat_map (fun c =>
              if Ascii.eqb c "&"%char then u "&amp;"
              else if Ascii.eqb c dquote then u "&quot;"
              else [c]) s.

Fixpoint str_leb (a b : str) : bool :=
  match a, b with
  | [], _ => true
  | _ :: _, [] => false
  | x :: a', y :: b' =>
      if nat_of_ascii x <? nat_of_ascii y then true
      else if nat_of_ascii y <? nat_of_ascii x then false
      else str_leb a' b'
  end.

Fixpoint insert_sorted (kv : str * str) (l : attrs) : attrs :=
  match l with
  | [] => [kv]
  | kv' :: l' =>
      if str_leb (fst kv) (fst kv') then kv :: l
      else kv' :: insert_sorted kv l'
  end.

Definition sort_attrs (l : attrs) : attrs := fold_right insert_sorted [] l.

Definition write_attrs (a : attrs) : str :=
  flat_map (fun kv => u " " ++ fst kv ++ u "=" ++ [dquote]
                        ++ escape_value (snd kv) ++ [dquote]) a.

(** The name of a tag without its namespace. *)
Definition local_name (t : str) : str :=
  match t with
  | c :: t' =>
      if Ascii.eqb c "{"%char
      then drop 1 (snd (PyStr.span (fun x => negb (Ascii.eqb x "}"%char)) t'))
      else t
  | [] => t
  end.

(** The events of the walker on a node and what is below it. *)
Fixpoint walk (e : elem) : list token :=
  let inner :=
    (match text e with Some t => [Characters t] | None => [] end)
      ++ flat_map (fun c => walk c
                              ++ match tail c with
                                 | Some t => [Characters t]
                                 | None => []
                                 end) (children e) in
  if PyStr.eqb (tag e) (u "DOCUMENT_FRAGMENT") then inner
  else StartTag (local_name (tag e)) (attrib e) :: inner
         ++ [EndTag (local_name (tag e))].

Definition write_token (sorted : bool) (t : token) : str :=
  match t with
  | StartTag name a =>
      u "<" ++ name ++ write_attrs (if sorted then sort_attrs a else a)
        ++ u ">"
  | EndTag name => u "</" ++ name ++ u ">"
  | Characters data => escape data
  | Comment data => u "<!--" ++ data ++ u "-->"
  end.

#[export] Instance html5lib : Html5lib := {|
  parseFragment := parse_with ETREE_TAG;
  serialize := fun t => flat_map (write_token true) (walk t);
  allowed_protocols :=
    map u ["ed2k"; "ftp"; "http"; "https"; "irc"; "mailto"; "news";
           "gopher"; "nntp"; "telnet"; "webcal"; "xmpp"; "callto"; "feed";
           "urn"; "aim"; "rsync"; "tag"; "ssh"; "sftp"; "rtsp"; "afs";
           "data"]%string;
  parse_and_walk := fun s => walk (parse_with (fun name => name) s);
  render := fun ts => flat_map (write_token false) ts
|}.

End Mini.

(** ** Inputs and callbacks of the examples *)

(** [<a href="http://example.com">text</a>] *)
Definition existing_anchor : str :=
  u "<a href=" ++ [dquote] ++ u "http://example.com" ++ [dquote]
    ++ u ">text</a>".

(** A chain that rejects new links and accepts the links that are there. *)
Definition accept_existing : callback :=
  fun a new => if new then None else Some a.

(** The levels of a tree: 1 for a node without children. *)
Fixpoint nesting (t : elem) : nat :=
  S (list_max (map nesting (children t))).

(** ** [Cleaner] *)

(** The fields of a [Cleaner].  [attributes] maps a tag, or [*] for every
    tag, to the attribute names allowed on it. *)
Record Cleaner : Type := {
  tags : list str;
  attributes : list (str * list str);
  styles : list str;
  protocols : list str;
  strip : bool;
  strip_comments : bool;
  filters : list (list token -> list token)
}.

Definition ALLOWED_TAGS : list str :=
  map u ["a"; "abbr"; "acronym"; "b"; "blockquote"; "code"; "em"; "i"; "li";
         "ol"; "strong"; "ul"]%string.

Definition ALLOWED_ATTRIBUTES : list (str * list str) :=
  [(u "a", [u "href"; u "title"]);
   (u "abbr", [u "title"]);
   (u "acronym", [u "title"])].

Definition ALLOWED_STYLES : list str := [].

Definition ALLOWED_PROTOCOLS : list str := [u "http"; u "https"; u "mailto"].

(** Modelled from the spec: what section 4.1 leaves to the implementation
    of the filter, which is in [bleach/sanitizer.py] and html5lib and not
    among the sources: which attributes carry a URL, how the scheme of a
    URL is read, and how a style value is split into declarations and
    written back. *)
Class SanitizerTables : Type := {
  is_uri_attr : str -> bool;
  url_scheme : str -> option str;
  css_declarations : str -> list (str * str);
  css_text : list (str * str) -> str
}.

Definition mem (x : str) (l : list str) : bool := existsb (PyStr.eqb x) l.

Fixpoint lookup_names (k : str) (m : list (str * list str)) : list str :=
  match m with
  | [] => []
  | (k', v) :: m' => if PyStr.eqb k k' then v else lookup_names k m'
  end.

(** The decision taken at the start tag of an element. *)
Inductive decision : Type := Keep | Strip | Escape.

Section sanitizer.

Context `{SanitizerTables}.
Variable c : Cleaner.

(** Modelled from the spec: the names in the tag's entry and in the entry
    for all tags. *)
Definition allowed_names (name : str) : list str :=
  lookup_names name (attributes c) ++ lookup_names (u "*") (attributes c).

(** Modelled from the spec: a URL value is kept when it has no scheme or
    its scheme is an allowed protocol, compared without regard to case. *)
Definition scheme_allowed (v : str) : bool :=
  match url_scheme v with
  | None => true
  | Some s => mem (PyStr.lower s) (map PyStr.lower (protocols c))
  end.

(** Modelled from the spec: the filter of one attribute of an allowed
    tag. *)
Definition sanitize_attribute (name : str) (kv : str * str)
  : option (str * str) :=
  let '(k, v) := kv in
  if negb (mem k (allowed_names name)) then None
  else if is_uri_attr k then
    if scheme_allowed v then Some (k, v) else None
  else if PyStr.eqb k (u "style") then
    match List.filter (fun d => mem (fst d) (styles c)) (css_declarations v)
    with
    | [] => None
    | ds => Some (k, css_text ds)
    end
  else Some (k, v).

Definition sanitize_attributes (name : str) (a : attrs) : attrs :=
  omap (sanitize_attribute name) a.

(** Modelled from the spec: an allowed tag is kept; a tag that is not is
    left out when [strip] is set and written as text otherwise. *)
Definition decide_tag (name : str) : decision :=
  if mem name (tags c) then Keep
  else if strip c then Strip else Escape.

(** The markup of a tag as text. *)
Definition literal (t : token) : str :=
  match t with
  | StartTag name a =>
      u "<" ++ name
        ++ flat_map (fun kv => u " " ++ fst kv ++ u "=" ++ [dquote]
                                 ++ snd kv ++ [dquote]) a
        ++ u ">"
  | EndTag name => u "</" ++ name ++ u ">"
  | Characters data => data
  | Comment data => u "<!--" ++ data ++ u "-->"
  end.

(** Modelled from the spec: [BleachSanitizerFilter], one pass over the
    events.  [stack] holds the decisions of the elements that are open;
    an end tag takes the decision of its start tag from it (and, with no
    element open, the decision its own name gives). *)
Fixpoint BleachSanitizerFilter (stack : list decision) (source : list token)
  : list token :=
  match source with
  | [] => []
  | Comment data :: rest =>
      (if strip_comments c then [] else [Comment data])
        ++ BleachSanitizerFilter stack rest
  | Characters data :: rest =>
      Characters data :: BleachSanitizerFilter stack rest
  | StartTag name a :: rest =>
      let d := decide_tag name in
      match d with
      | Keep => [StartTag name (sanitize_attributes name a)]
      | Strip => []
      | Escape => [Characters (literal (StartTag name a))]
      end ++ BleachSanitizerFilter (d :: stack) rest
  | EndTag name :: rest =>
      let '(d, stack') :=
        match stack with
        | d :: stack' => (d, stack')
        | [] => (decide_tag name, [])
        end in
      match d with
      | Keep => [EndTag name]
      | Strip => []
      | Escape => [Characters (literal (EndTag name))]
      end ++ BleachSanitizerFilter stack' rest
  end.

Context `{Html5lib}.

(** [Cleaner.clean] up to the serializer: the stream that is rendered,
    and [None] when the text is empty and nothing is parsed. *)
Definition clean_stream (text_ : str) : option (list token) :=
  if negb (PyStr.truthy text_) then None
  else
    let text_ := force_unicode text_ in
    let dom := parse_and_walk text_ in
    let filtered := BleachSanitizerFilter [] dom in
    (* Apply any filters after the BleachSanitizerFilter *)
    Some (fold_left (fun filtered filter_class => filter_class filtered)
                    (filters c) filtered).

Definition clean (text_ : str) : str :=
  match clean_stream text_ with
  | None => []
  | Some filtered => render filtered
  end.

(** The tags, attribute names and URL schemes of the markup of a stream
    are all allowed. *)
Definition attribute_allowed (name : str) (kv : str * str) : Prop :=
  In (fst kv) (allowed_names name)
  /\ (is_uri_attr (fst kv) = true ->
      forall s, url_scheme (snd kv) = Some s ->
                In (PyStr.lower s) (map PyStr.lower (protocols c))).

Definition token_allowed (t : token) : Prop :=
  match t with
  | StartTag name a =>
      In name (tags c) /\ Forall (attribute_allowed name) a
  | EndTag name => In name (tags c)
  | Characters _ | Comment _ => True
  end.

End sanitizer.

(** The events of a walker are balanced: every end tag closes the element
    opened last. *)
Fixpoint balanced (open_ : list str) (ts : list token) : bool :=
  match ts with
  | [] => match open_ with [] => true | _ => false end
  | StartTag name _ :: rest => balanced (name :: open_) rest
  | EndTag name :: rest =>
      match open_ with
      | name' :: open' => PyStr.eqb name name' && balanced open' rest
      | [] => false
      end
  | _ :: rest => balanced open_ rest
  end.

(** C1 as the spec states it, for one choice of the collaborators. *)
Definition whitelist_sound `{SanitizerTables} `{Html5lib} : Prop :=
  forall (c : Cleaner) (x : str) (out : list token),
    clean_stream c x = Some out -> Forall (token_allowed c) out.

(** C5 as the spec states it, for one choice of html5lib. *)
Definition depth_bounded_by_input_nesting `{Html5lib} : Prop :=
  forall callbacks skip_pre parse_email limit fuel (x : str) forest st,
    walked (linkify callbacks skip_pre parse_email limit fuel x)
    = Some (forest, st) ->
    depth_reached st <= nesting (fst (parse x initial)).

(** The tables of the examples: [href] and [src] carry a URL; the scheme is
    the run of letters, digits, [+], [-] and [.] before the first colon;
    styles are not looked into. *)
Module MiniTables.

Definition scheme (v : str) : option str :=
  let '(s, rest) :=
    PyStr.span (fun x => PyStr.is_word x || one_of "+-." x) v in
  match s, rest with
  | _ :: _, colon :: _ => if Ascii.eqb colon ":"%char then Some s else None
  | _, _ => None
  end.

#[export] Instance tables : SanitizerTables := {|
  is_uri_attr := fun k => mem k [u "href"; u "src"];
  url_scheme := scheme;
  css_declarations := fun _ => [];
  css_text := fun _ => []
|}.

End MiniTables.

(** A filter that puts the stream into a [script] element. *)
Definition inject_script (s : list token) : list token :=
  StartTag (u "script") [] :: s ++ [EndTag (u "script")].

(** A [Cleaner] with the default arguments. *)
Definition default_cleaner : Cleaner :=
  {| tags := ALLOWED_TAGS; attributes := ALLOWED_ATTRIBUTES;
     styles := ALLOWED_STYLES; protocols := ALLOWED_PROTOCOLS;
     strip := false; strip_comments := true; filters := [] |}.

(** The default arguments and one extra filter. *)
Definition cleaner_with_filter : Cleaner :=
  {| tags := ALLOWED_TAGS; attributes := ALLOWED_ATTRIBUTES;
     styles := ALLOWED_STYLES; protocols := ALLOWED_PROTOCOLS;
     strip := false; strip_comments := true; filters := [inject_script] |}.

(** [<a href="javascript:alert(1)" title="t" onclick="x()">go</a><script>s</script>] *)
Definition unsafe_fragment : str :=
  u "<a href=" ++ [dquote] ++ u "javascript:alert(1)" ++ [dquote]
    ++ u " title=" ++ [dquote] ++ u "t" ++ [dquote]
    ++ u " onclick=" ++ [dquote] ++ u "x()" ++ [dquote]
    ++ u ">go</a><script>s</script>".

(** [see a.com <b>x <i>y b.org</i></b>]: three levels. *)
Definition nested_fragment : str := u "see a.com <b>x <i>y b.org</i></b>".

(** [x<b>y</b>z<i>t</i>w], parsed, and the state after the parse. *)
Definition sample_tree : elem :=
  fst (parse (H := Mini.html5lib) (u "x<b>y</b>z<i>t</i>w") initial).
Definition sample_state : lstate :=
  snd (parse (H := Mini.html5lib) (u "x<b>y</b>z<i>t</i>w") initial).

(** An address in a quoted string. *)
Definition quoted_address : str :=
  [dquote] ++ u "me" ++ [dquote] ++ u "@example.com".

(** [mail me@example.com now]: a text without markup. *)
Definition mail_text : str := u "mail me@example.com now".

(** [t<b>u</b>&lt;i&gt;y &lt;u&gt;z&lt;/u&gt;&lt;/i&gt; a.com]: the markup
    after the element [b] is text. *)
Definition escaped_markup : str :=
  u "t<b>u</b>&lt;i&gt;y &lt;u&gt;z&lt;/u&gt;&lt;/i&gt; a.com".

(** [x<b>y</b>"xy"@example.com]: an address in a quoted string after an
    element. *)
Definition quoted_tail : str :=
  u "x<b>y</b>" ++ [dquote] ++ u "xy" ++ [dquote] ++ u "@example.com".

Definition state_at (n d : nat) : lstate :=
  {| seen := ∅; next_id := n; depth_reached := d |}.
(** ** Invariants used in the proofs *)

(** As long as a closing parenthesis can still be cut, nothing was kept. *)
Definition strip_inv (opening : nat) (st : nat * bool * str) : Prop :=
  let '(closing, skip, newer_frag) := st in
  newer_frag = [] \/ skip = true \/ opening <= closing.


(** Induction on a tree with the property at hand for every child. *)
Fixpoint elem_ind' (P : elem -> Prop)
    (H : forall id tg at_ tx tl cs,
        Forall P cs -> P (Elem id tg at_ tx tl cs))
    (e : elem) {struct e} : P e :=
  match e with
  | Elem id tg at_ tx tl cs =>
      H id tg at_ tx tl cs
        ((fix go (l : list elem) : Forall P l :=
            match l with
            | [] => @List.Forall_nil _ P
            | c :: l' => @List.Forall_cons _ P c l' (elem_ind' P H c) (go l')
            end) cs)
  end.

(** The loop of [alloc] over the children. *)
Definition alloc_list : nat -> list elem -> list elem * nat :=
  fix alloc_list (n : nat) (l : list elem) : list elem * nat :=
    match l with
    | [] => ([], n)
    | c :: l' =>
        let '(c', n1) := alloc n c in
        let '(l'', n2) := alloc_list n1 l' in
        (c' :: l'', n2)
    end.

(** What the loop of [replace_nodes] does to [_seen]. *)
Definition mark_anchors (ns : list elem) (st : lstate) : lstate :=
  fold_left (fun st n =>
               if PyStr.eqb (tag n) (ETREE_TAG (u "a")) then add_seen n st
               else st) ns st.

(** ** The depth of the walk *)

Definition is_anchor (e : elem) : bool :=
  PyStr.eqb (tag e) (ETREE_TAG (u "a")).

(** The levels below a node that the walk can go down to: the walk does
    not go into an anchor. *)
Fixpoint walk_depth (t : elem) : nat :=
  list_max (map (fun c => if is_anchor c then 0 else S (walk_depth c))
                (children t)).

Definition contrib (c : elem) : nat :=
  if is_anchor c then 0 else S (walk_depth c).

Definition walk_depth_list (l : list elem) : nat := list_max (map contrib l).

(** What of a node the walk above it depends on. *)
Definition shape (c : elem) : nat * str * list elem :=
  (eid c, tag c, children c).

(** The identities of the children of every node differ, and are below
    [n]. *)
Inductive wf (n : nat) : elem -> Prop :=
| wf_node (t : elem) :
    NoDup (map eid (children t)) ->
    Forall (fun c => eid c < n /\ wf n c) (children t) ->
    wf n t.

Definition wf_list (n : nat) (l : list elem) : Prop :=
  NoDup (map eid l) /\ Forall (fun c => eid c < n /\ wf n c) l.

(** The children with the identity [id] are anchors. *)
Definition anchor_at (id : nat) (l : list elem) : Prop :=
  Forall (fun x => eid x = id -> is_anchor x = true) l.

(** From one state of the walk to a later one. *)
Definition state_step (st st' : lstate) : Prop :=
  next_id st <= next_id st' /\ depth_reached st' = depth_reached st.

(** From a tree and a state to what a part of the loop makes of them. *)
Definition tree_step (tree : elem) (st : lstate) (tree' : elem) (st' : lstate)
  : Prop :=
  state_step st st' /\ wf (next_id st') tree'
  /\ eid tree' = eid tree /\ tag tree' = tag tree.

(** What the loop keeps, from the cursor [current_child] on, at the
    depth [depth]. *)
Definition loop_good (depth : nat) (current_child : Z) (tree : elem)
    (st : lstate) (r : exit * elem * lstate) : Prop :=
  let '(_, tree', st') := r in
  next_id st <= next_id st'
  /\ wf (next_id st') tree'
  /\ eid tree' = eid tree /\ tag tree' = tag tree
  /\ depth_reached st'
     <= Nat.max (depth_reached st) (depth + walk_depth tree')
  /\ ((0 <= current_child)%Z \/ is_anchor tree = false ->
      walk_depth tree <= walk_depth tree').

(** ** Definitions for the further properties *)

(** The class [[\w-]]. *)
Definition wd (c : ascii) : bool := PyStr.is_word c || Ascii.eqb c "-"%char.

(** Where a host ends: at the end of the text or before white space. *)
Definition host_ends (rest : str) : bool :=
  match rest with [] => true | d :: _ => is_space_u d end.

(** Every character class of the pattern is within [P]. *)
Fixpoint chars_in (P : ascii -> Prop) (r : Re.regex) : Prop :=
  match r with
  | Re.Chr p => forall c, p c = true -> P c
  | Re.Seq a b | Re.Alt a b => chars_in P a /\ chars_in P b
  | Re.Star a | Re.Rep a _ _ => chars_in P a
  | _ => True
  end.

(** A character a path can go on with. *)
Definition safe_char (c : ascii) : Prop := path_char c = true.

(** [email_re] without the quoted form of the local part. *)
Definition email_dot_atom_re : Re.regex :=
  cat [ Re.NotBehind [one_of "/"; one_of "/"];
        cat [ Re.Plus (Re.Chr atext);
              Re.Star (cat [Re.lit (u "."); Re.Plus (Re.Chr atext)]) ];
        Re.lit (u "@");
        Re.Plus (cat [ alnum;
                       Re.Opt (cat [Re.Rep alnum_dash 0 61; alnum]);
                       Re.lit (u ".") ]);
        Re.Rep alpha 2 6 ].

Definition address_char (c : ascii) : Prop :=
  atext c || one_of ".@" c = true.

(** [url_re] has no match in a text. *)
Definition no_link `{Html5lib} (o : option str) : bool :=
  negb (otruthy o)
  || match Re.finditer url_re (or_empty o) with [] => true | _ :: _ => false end.

Definition is_pre (e : elem) : bool :=
  PyStr.eqb (tag e) (ETREE_TAG (u "pre")).

Definition has_href (e : elem) : bool :=
  match Dict.get (u "href") (attrib e) with Some _ => true | None => false end.

(** The text under [c] is scanned from [parse_text] on. *)
Definition scanned_below (skip_pre parse_text : bool) (c : elem) : bool :=
  if is_pre c && skip_pre then false else parse_text.

(** A tree is quiet when it has no text of its own, or when: it is no
    anchor; where text is scanned, no text or tail has a match of
    [url_re]; and every child is an anchor without [href] or is quiet. *)
Fixpoint quiet `{Html5lib} (skip_pre parse_text : bool) (t : elem) : bool :=
  negb (otruthy (text t))
  || (negb (is_anchor t)
      && implb parse_text (no_link (text t) && no_link (tail t))
      && forallb (fun c =>
                    implb parse_text (no_link (tail c))
                    && (if is_anchor c then negb (has_href c)
                        else quiet skip_pre
                               (if is_pre c && skip_pre then false
                                else parse_text) c))
                 (children t)).

(** Turns of the loop that a walk of the tree takes at most, one inside
    the other. *)
Fixpoint walk_fuel (t : elem) : nat :=
  S (S (length (children t))) + list_max (map walk_fuel (children t)).

(** * Properties *)

(** ** Facts about text helpers *)

Section span_facts.
Variable f : ascii -> bool.

Lemma span_app (s : str) :
  fst (PyStr.span f s) ++ snd (PyStr.span f s) = s.
Proof.
  induction s as [|c s IH]; simpl; [reflexivity|].
  destruct (f c); [|reflexivity].
  destruct (PyStr.span f s) as [a b]; simpl in *. now rewrite IH.
Qed.

Lemma span_fst_all (s : str) :
  Forall (fun c => f c = true) (fst (PyStr.span f s)).
Proof.
  induction s as [|c s IH]; simpl; [constructor|].
  destruct (f c) eqn:E; [|constructor].
  destruct (PyStr.span f s) as [a b]; simpl in *. now constructor.
Qed.

Lemma span_snd_head (s : str) c r :
  snd (PyStr.span f s) = c :: r -> f c = false.
Proof.
  induction s as [|c0 s IH]; simpl; [discriminate|].
  destruct (f c0) eqn:E.
  - destruct (PyStr.span f s) as [a b]; simpl in *. exact IH.
  - intros [= <- _]. exact E.
Qed.
End span_facts.

Lemma all_eqb_repeat (c : ascii) (s : str) :
  Forall (fun x => Ascii.eqb c x = true) s -> s = repeat c (length s).
Proof.
  induction 1 as [|x s Hx _ IH]; simpl; [reflexivity|].
  apply Ascii.eqb_eq in Hx. subst x. now rewrite <- IH.
Qed.

Lemma span_eqb_repeat (c : ascii) (s : str) :
  fst (PyStr.span (Ascii.eqb c) s)
  = repeat c (length (fst (PyStr.span (Ascii.eqb c) s))).
Proof. apply all_eqb_repeat, span_fst_all. Qed.

Lemma repeat_snoc {A} (x : A) n : repeat x n ++ [x] = x :: repeat x n.
Proof. induction n; simpl; [reflexivity|]. now rewrite IHn. Qed.

Lemma rev_repeat {A} (x : A) n : rev (repeat x n) = repeat x n.
Proof.
  induction n; simpl; [reflexivity|]. now rewrite IHn, repeat_snoc.
Qed.

(** [s.rstrip(c)] cuts a run of [c] off the end, and nothing else. *)
Lemma rstrip_spec (c : ascii) (s : str) :
  PyStr.rstrip c s ++ repeat c (length s - length (PyStr.rstrip c s)) = s.
Proof.
  unfold PyStr.rstrip.
  pose proof (span_app (Ascii.eqb c) (rev s)) as Happ.
  pose proof (span_eqb_repeat c (rev s)) as Hrep.
  destruct (PyStr.span (Ascii.eqb c) (rev s)) as [a b]; simpl in *.
  assert (Hs : s = rev b ++ rev a).
  { rewrite <- rev_app_distr, Happ. now rewrite rev_involutive. }
  assert (Hl : length s - length (rev b) = length a).
  { rewrite Hs, length_app, !length_rev. lia. }
  rewrite Hl, Hs. f_equal.
  rewrite Hrep, rev_repeat. now rewrite repeat_length.
Qed.

(** ** Facts about [strip_wrapping_parentheses] *)

Lemma strip_loop_spec (opening : nat) (l : str) :
  forall st, strip_inv opening st ->
  let '(closing, _, newer_frag) := st in
  let '(closing', _, newer_frag') := fold_left (strip_step opening) l st in
  repeat rparen closing ++ newer_frag ++ l
  = repeat rparen closing' ++ newer_frag'.
Proof.
  induction l as [|ch l IH]; intros [[closing skip] acc] Hinv; simpl.
  - now rewrite app_nil_r.
  - destruct (Ascii.eqb ch rparen && (closing <? opening) && negb skip) eqn:E.
    + apply andb_prop in E as [E Hs]. apply andb_prop in E as [Hc Hlt].
      apply Ascii.eqb_eq in Hc. apply Nat.ltb_lt in Hlt.
      apply negb_true_iff in Hs. subst.
      assert (acc = []) as -> by (destruct Hinv as [?|[?|?]]; [easy|easy|lia]).
      specialize (IH (S closing, false, []) (or_introl eq_refl)).
      destruct (fold_left _ l _) as [[c' s'] a'].
      rewrite <- IH.
      change (repeat rparen (S closing)) with (rparen :: repeat rparen closing).
      rewrite <- repeat_snoc, <- app_assoc. reflexivity.
    + assert (Hinv' : strip_inv opening
                (closing, (if negb (Ascii.eqb ch rparen) then true else skip),
                 acc ++ [ch])).
      { simpl. destruct (Ascii.eqb ch rparen) eqn:Hc; simpl.
        - destruct skip; [auto|]. right; right.
          simpl in E. rewrite andb_true_r in E.
          apply Nat.ltb_ge in E. exact E.
        - auto. }
      specialize (IH _ Hinv').
      destruct (fold_left _ l _) as [[c' s'] a'].
      rewrite <- IH. now rewrite <- !app_assoc.
Qed.

Lemma strip_wrapping_parentheses_spec (fragment : str) :
  let '(stripped, opening, closing) := strip_wrapping_parentheses fragment in
  repeat lparen opening ++ stripped ++ repeat rparen closing = fragment.
Proof.
  unfold strip_wrapping_parentheses.
  destruct (0 <? count_opening fragment) eqn:E.
  - pose proof (strip_loop_spec (count_opening fragment)
                  (rev (drop (count_opening fragment) fragment))
                  (0, false, []) (or_introl eq_refl)) as H.
    destruct (fold_left _ _ _) as [[c' s'] a']. simpl in H.
    assert (Hd : drop (count_opening fragment) fragment
                 = rev a' ++ repeat rparen c').
    { rewrite <- (rev_involutive (drop _ _)), H, rev_app_distr.
      now rewrite rev_repeat. }
    rewrite <- Hd. unfold count_opening.
    rewrite <- (span_eqb_repeat lparen fragment).
    pose proof (span_app (Ascii.eqb lparen) fragment) as Happ.
    set (a := fst (PyStr.span (Ascii.eqb lparen) fragment)) in *.
    set (b := snd (PyStr.span (Ascii.eqb lparen) fragment)) in *.
    rewrite <- Happ. now rewrite drop_app_length.
  - apply Nat.ltb_ge in E. assert (count_opening fragment = 0) as -> by lia.
    simpl. now rewrite app_nil_r.
Qed.

(** The three pieces [unwrap_parentheses] returns make up the match. *)
Lemma unwrap_parentheses_spec (m : str) :
  let '(url, open_brackets, close_brackets) := unwrap_parentheses m in
  repeat lparen open_brackets ++ url ++ repeat rparen close_brackets = m.
Proof.
  unfold unwrap_parentheses.
  assert (H0 : let '(url, o, c) :=
                 (if PyStr.startswith (u "(") m
                  then strip_wrapping_parentheses m else (m, 0, 0)) in
               repeat lparen o ++ url ++ repeat rparen c = m).
  { destruct (PyStr.startswith (u "(") m).
    - apply strip_wrapping_parentheses_spec.
    - simpl. now rewrite app_nil_r. }
  destruct (if PyStr.startswith (u "(") m then _ else _) as [[url o] c].
  destruct (PyStr.endswith (u ")") url && negb (PyStr.contains lparen url)).
  - rewrite Nat.add_comm, repeat_app, <- H0. f_equal.
    rewrite app_assoc. f_equal. apply rstrip_spec.
  - exact H0.
Qed.

(** ** Facts about the small patterns *)

(** A greedy run of one class, before something that cannot start with a
    character of the class, takes every character of the class there is. *)
Lemma star_chr_greedy (p : ascii -> bool) (k : str -> str -> option str) :
  (forall prev c r, p c = true -> k prev (c :: r) = None) ->
  forall rest prev,
    Re.rmatch (Re.Star (Re.Chr p)) prev rest k
    = k (rev (fst (PyStr.span p rest)) ++ prev) (snd (PyStr.span p rest)).
Proof.
  intros Hk rest prev. cbn [Re.rmatch].
  assert (Hn : length rest <= length rest) by lia. revert Hn.
  generalize (length rest) at 2 3 as n. intros n. revert rest prev.
  induction n as [|n IH]; intros rest prev Hn.
  - destruct rest; [reflexivity|simpl in Hn; lia].
  - destruct rest as [|c r]; [reflexivity|].
    cbn [Re.rmatch PyStr.span]. destruct (p c) eqn:Ec.
    + assert (Hlt : (length r <? length (c :: r)) = true)
        by (apply Nat.ltb_lt; simpl; lia).
      rewrite Hlt. simpl in Hn. rewrite IH by lia.
      destruct (PyStr.span p r) as [run rest'] eqn:Es. cbn [fst snd rev].
      rewrite <- app_assoc. cbn [app].
      destruct (k (rev run ++ c :: prev) rest'); [reflexivity|].
      now apply Hk.
    + reflexivity.
Qed.

Lemma at_eol_punct (c : ascii) (r : str) :
  is_punct c = true -> Re.at_eol (c :: r) = false.
Proof.
  intros Hc. destruct r; [|reflexivity]. simpl.
  destruct (Ascii.eqb c LF) eqn:E; [|reflexivity].
  apply Ascii.eqb_eq in E. subst c. discriminate Hc.
Qed.

(** [punct_re] matches at a position when a run of punctuation starts
    there and goes up to where [$] matches. *)
Lemma punct_match_here (prev rest : str) :
  Re.match_here punct_re prev rest
  = if PyStr.truthy (fst (PyStr.span is_punct rest))
       && Re.at_eol (snd (PyStr.span is_punct rest))
    then Some (length (fst (PyStr.span is_punct rest)))
    else None.
Proof.
  unfold Re.match_here, punct_re, Re.Plus.
  destruct rest as [|c r]; [reflexivity|].
  change (Re.rmatch _ prev (c :: r) ?k)
    with (if is_punct c
          then Re.rmatch (Re.Star (Re.Chr is_punct)) (c :: prev) r
                 (fun prev' rest' => Re.rmatch Re.Eol prev' rest' k)
          else None).
  cbn [PyStr.span]. destruct (is_punct c) eqn:Ec; [|reflexivity].
  rewrite star_chr_greedy.
  2: { intros prev' c' r' Hc'. cbn [Re.rmatch]. now rewrite at_eol_punct. }
  pose proof (span_app is_punct r) as Happ.
  destruct (PyStr.span is_punct r) as [run rest'] eqn:Es. cbn [fst snd] in *.
  cbn [Re.rmatch PyStr.truthy andb]. destruct (Re.at_eol rest'); [|reflexivity].
  f_equal. rewrite <- Happ. simpl. rewrite length_app. lia.
Qed.

(** What [re.search] finds is the leftmost match. *)
Lemma search_from_spec (r : Re.regex) (rest : str) :
  forall at_ prev b e,
    Re.search_from r at_ prev rest = Some (b, e) ->
    exists pre post n,
      rest = pre ++ post /\ b = at_ + length pre /\ e = b + n
      /\ Re.match_here r (rev pre ++ prev) post = Some n
      /\ forall pre1 c pre2,
          pre = pre1 ++ c :: pre2 ->
          Re.match_here r (rev pre1 ++ prev) (c :: pre2 ++ post) = None.
Proof.
  induction rest as [|c rest IH]; intros at_ prev b e Hs; simpl in Hs.
  - destruct (Re.match_here r prev []) as [n|] eqn:Em; [|discriminate Hs].
    injection Hs as <- <-. exists [], [], n.
    repeat split; try (simpl; lia); [exact Em|].
    intros pre1 c pre2 Habs. now destruct pre1.
  - destruct (Re.match_here r prev (c :: rest)) as [n|] eqn:Em.
    + injection Hs as <- <-. exists [], (c :: rest), n.
      repeat split; try (simpl; lia); [exact Em|].
      intros pre1 c' pre2 Habs. now destruct pre1.
    + destruct (IH _ _ _ _ Hs) as (pre & post & n & -> & -> & -> & Hm & Hleft).
      exists (c :: pre), post, n. simpl.
      repeat split; try lia; [rewrite <- app_assoc; exact Hm|].
      intros pre1 c' pre2 Hp. destruct pre1 as [|d pre1].
      * injection Hp as <- <-. exact Em.
      * injection Hp as <- ->. simpl. rewrite <- app_assoc.
        now apply Hleft.
Qed.

Lemma at_eol_no_LF (s : str) : ~ In LF s -> Re.at_eol s = true -> s = [].
Proof.
  destruct s as [|c [|d s]]; simpl; intros HLF He; try reflexivity;
    try discriminate He.
  apply Ascii.eqb_eq in He. subst c. exfalso. apply HLF. now left.
Qed.

(** The span [re.search(punct_re, url)] finds: a run of punctuation up to
    where [$] matches, with no punctuation right before it. *)
Lemma punct_search_spec (url : str) (b e : nat) :
  Re.search punct_re url = Some (b, e) ->
  exists pre run rest',
    url = pre ++ run ++ rest' /\ b = length pre /\ e = b + length run
    /\ Forall (fun c => is_punct c = true) run /\ run <> []
    /\ Re.at_eol rest' = true
    /\ (forall c r, rev pre = c :: r -> is_punct c = false).
Proof.
  intros Hs. apply search_from_spec in Hs
    as (pre & post & n & -> & -> & -> & Hm & Hleft).
  rewrite punct_match_here in Hm.
  pose proof (span_app is_punct post) as Happ.
  pose proof (span_fst_all is_punct post) as Hall.
  destruct (PyStr.span is_punct post) as [run rest'] eqn:Es. cbn [fst snd] in *.
  destruct (PyStr.truthy run) eqn:Et; [|discriminate Hm].
  destruct (Re.at_eol rest') eqn:Ee; [|discriminate Hm].
  injection Hm as <-. exists pre, run, rest'.
  split; [now rewrite Happ|]. split; [simpl; lia|]. split; [reflexivity|].
  split; [exact Hall|]. split; [now destruct run|]. split; [exact Ee|].
  intros c r Hr.
  assert (Hpre : pre = rev r ++ [c]).
  { rewrite <- (rev_involutive pre), Hr. reflexivity. }
  specialize (Hleft (rev r) c [] Hpre). rewrite punct_match_here in Hleft.
  cbn [app PyStr.span] in Hleft. destruct (is_punct c) eqn:Ec; [|reflexivity].
  rewrite Es in Hleft. cbn [fst snd PyStr.truthy andb] in Hleft.
  rewrite Ee in Hleft. discriminate Hleft.
Qed.

Lemma strip_punct_end (url : str) :
  Forall (fun c => is_punct c = true) (snd (strip_punct url)).
Proof.
  unfold strip_punct.
  destruct (Re.search punct_re url) as [[b e]|] eqn:Es; [|constructor].
  destruct (punct_search_spec _ _ _ Es)
    as (pre & run & rest' & -> & -> & -> & Hall & _).
  cbn [snd]. rewrite drop_app_length.
  replace (length pre + length run - length pre) with (length run) by lia.
  now rewrite take_app_length.
Qed.

(** A string that ends in punctuation has a match of [punct_re]. *)
Lemma punct_search_end (l : str) (c : ascii) :
  is_punct c = true ->
  forall prev at_, Re.search_from punct_re at_ prev (l ++ [c]) <> None.
Proof.
  intros Ec. induction l as [|d l IH]; intros prev at_ Hs;
    cbn [Re.search_from app] in Hs.
  - rewrite punct_match_here in Hs. cbn [PyStr.span] in Hs.
    rewrite Ec in Hs. discriminate Hs.
  - destruct (Re.match_here punct_re prev (d :: l ++ [c])); [discriminate Hs|].
    now apply (IH _ _ Hs).
Qed.

(** On a string without a line feed, [strip_punct] splits the string in
    two, and what it keeps does not end in punctuation. *)
Lemma strip_punct_spec (url : str) :
  ~ In LF url ->
  fst (strip_punct url) ++ snd (strip_punct url) = url
  /\ (forall c r, rev (fst (strip_punct url)) = c :: r -> is_punct c = false).
Proof.
  intros HLF. unfold strip_punct.
  destruct (Re.search punct_re url) as [[b e]|] eqn:Es.
  - destruct (punct_search_spec _ _ _ Es)
      as (pre & run & rest' & Hu & -> & -> & Hall & Hne & Heol & Hmax).
    assert (Hr : rest' = []).
    { apply at_eol_no_LF; [|exact Heol]. intros Hin. apply HLF. rewrite Hu.
      apply in_or_app. right. apply in_or_app. now right. }
    subst rest'. rewrite app_nil_r in Hu. subst url. cbn [fst snd].
    rewrite take_app_length, drop_app_length.
    replace (length pre + length run - length pre) with (length run) by lia.
    rewrite firstn_all. split; [reflexivity|exact Hmax].
  - cbn [fst snd]. rewrite app_nil_r. split; [reflexivity|].
    (* no match: the string does not end in punctuation *)
    intros c r Hr. destruct (is_punct c) eqn:Ec; [|reflexivity]. exfalso.
    assert (Hu : url = rev r ++ [c])
      by (rewrite <- (rev_involutive url), Hr; reflexivity).
    revert Es. unfold Re.search. rewrite Hu. now apply punct_search_end.
Qed.

Lemma get_remove_ne (k k' : str) (d : attrs) :
  k <> k' -> Dict.get k (Dict.remove k' d) = Dict.get k d.
Proof.
  intros Hne. induction d as [|[k0 v0] d IH]; simpl; [reflexivity|].
  unfold PyStr.eqb in *.
  destruct (bool_decide (k' = k0)) eqn:E1.
  - apply bool_decide_eq_true in E1. subst k0.
    destruct (bool_decide (k = k')) eqn:E2; [|reflexivity].
    apply bool_decide_eq_true in E2. contradiction.
  - simpl. unfold PyStr.eqb. destruct (bool_decide (k = k0)); [reflexivity|exact IH].
Qed.

(** A string without a double quote, followed by one, is read back whole by
    a scan for the closing quote. *)
Lemma span_until_dquote (v rest : str) :
  ~ In dquote v ->
  PyStr.span (fun c => negb (Ascii.eqb c dquote)) (v ++ dquote :: rest)
  = (v, dquote :: rest).
Proof.
  induction v as [|c v IH]; intros H; simpl.
  - reflexivity.
  - destruct (Ascii.eqb c dquote) eqn:E.
    + apply Ascii.eqb_eq in E. subst c. exfalso. apply H. now left.
    + simpl. rewrite IH; [reflexivity|]. intros Hin. apply H. now right.
Qed.

Lemma email_addr_no_dquote (m : str) : ~ In dquote (email_addr m).
Proof.
  unfold email_addr, PyStr.replace. induction m as [|c m IH]; simpl; [easy|].
  intros H. apply in_app_or in H as [H|H]; [|now apply IH].
  destruct (Ascii.eqb c dquote) eqn:E.
  - vm_compute in H. repeat (destruct H as [H|H]; [discriminate H|]). exact H.
  - destruct H as [H|[]]. subst c. now rewrite Ascii.eqb_refl in E.
Qed.

(** ** [link_repl] *)

(** What [link_repl] returns for a candidate the callbacks reject: the
    parentheses and the url, without the punctuation cut off the url. *)
Lemma link_repl_rejected_text (callbacks : list callback) (m url0 url end_ : str)
    (open_brackets close_brackets : nat) :
  unwrap_parentheses m = (url0, open_brackets, close_brackets) ->
  strip_punct url0 = (url, end_) ->
  apply_callbacks callbacks (new_link url) true = None ->
  link_repl callbacks m
  = Ok (repeat lparen open_brackets ++ url ++ repeat rparen close_brackets).
Proof.
  intros H1 H2 H3. unfold link_repl. now rewrite H1, H2, H3.
Qed.

(** C3, at the text [see http://example.com/foo. ok]: [url_re] matches the
    url with its full stop (the path of a url may end in one); the callback
    rejecting, [link_repl] returns the url without the full stop, which is
    not the matched text, and the full stop is gone from the substituted
    text. *)
Theorem link_repl_rejected_loses_punctuation :
  Re.finditer (url_re (H := Mini.html5lib)) (u "see http://example.com/foo. ok")
  = [(4, 27)]
  /\ take (27 - 4) (drop 4 (u "see http://example.com/foo. ok"))
     = u "http://example.com/foo."
  /\ link_repl [reject_all] (u "http://example.com/foo.")
     = Ok (u "http://example.com/foo")
  /\ u "http://example.com/foo" <> u "http://example.com/foo."
  /\ Re.sub (url_re (H := Mini.html5lib)) (link_repl [reject_all])
            (u "see http://example.com/foo. ok")
     = Ok (u "see http://example.com/foo ok")
  /\ result (linkify (H := Mini.html5lib) [reject_all] false false 50 100
                     (u "see http://example.com/foo. ok"))
     = Returns (u "see http://example.com/foo ok").
Proof.
  split; [vm_compute; reflexivity|]. split; [reflexivity|].
  split; [reflexivity|]. split; [discriminate|].
  split; vm_compute; reflexivity.
Qed.

(** C6: for a match the callbacks accept, the replacement is the wrapping
    opening parentheses, the anchor made of the attributes the callbacks
    returned, the punctuation cut off the url, and the closing parentheses,
    in this order; the candidate the callbacks receive has the url as its
    text and, when the url has no scheme, [http://] and the url as its
    href; the punctuation is a run of [.]/[,], and the four pieces make up
    the match. *)
Theorem link_repl_accepted (callbacks : list callback) (m url0 url end_ : str)
    (open_brackets close_brackets : nat) (link : attrs) (t h : str) :
  unwrap_parentheses m = (url0, open_brackets, close_brackets) ->
  strip_punct url0 = (url, end_) ->
  apply_callbacks callbacks (new_link url) true = Some link ->
  Dict.get (u "_text") link = Some t ->
  Dict.get (u "href") link = Some h ->
  link_repl callbacks m
  = Ok (repeat lparen open_brackets
        ++ anchor h (Dict.remove (u "href") (Dict.remove (u "_text") link)) t
        ++ end_ ++ repeat rparen close_brackets)
  /\ Dict.get (u "_text") (new_link url) = Some url
  /\ (Re.search proto_re url = None ->
      Dict.get (u "href") (new_link url) = Some (u "http://" ++ url))
  /\ (Re.search proto_re url <> None ->
      Dict.get (u "href") (new_link url) = Some url)
  /\ Forall (fun c => is_punct c = true) end_
  /\ (~ In LF m ->
      repeat lparen open_brackets ++ url ++ end_
        ++ repeat rparen close_brackets = m
      /\ forall c r, rev url = c :: r -> is_punct c = false).
Proof.
  intros H1 H2 H3 Ht Hh.
  split; [|split; [|split; [|split; [|split]]]].
  - unfold link_repl. rewrite H1, H2, H3.
    unfold Dict.pop. rewrite Ht. cbn [res_bind].
    rewrite get_remove_ne by (intros E; vm_compute in E; discriminate E).
    rewrite Hh. reflexivity.
  - reflexivity.
  - intros Hp. unfold new_link, default_href. rewrite Hp. reflexivity.
  - intros Hp. unfold new_link, default_href.
    destruct (Re.search proto_re url); [reflexivity|contradiction].
  - pose proof (strip_punct_end url0) as H. now rewrite H2 in H.
  - intros HLF.
    pose proof (unwrap_parentheses_spec m) as Hm. rewrite H1 in Hm.
    assert (HLF0 : ~ In LF url0).
    { intros Hin. apply HLF. rewrite <- Hm.
      apply in_or_app. right. apply in_or_app. now left. }
    destruct (strip_punct_spec url0 HLF0) as [Hsplit Hmax].
    rewrite H2 in Hsplit, Hmax. simpl in *. split; [|exact Hmax].
    transitivity (repeat lparen open_brackets ++ url0
                    ++ repeat rparen close_brackets); [|exact Hm].
    rewrite <- Hsplit. now rewrite <- !app_assoc.
Qed.

Lemma link_repl_accepted_witness :
  link_repl [add_rel_nofollow] (u "(example.com/foo,)")
  = Ok (u "(<a href=" ++ [dquote] ++ u "http://example.com/foo" ++ [dquote]
        ++ u " rel=" ++ [dquote] ++ u "nofollow" ++ [dquote]
        ++ u ">example.com/foo</a>,)").
Proof.
  pose proof (link_repl_accepted [add_rel_nofollow] (u "(example.com/foo,)")
                (u "example.com/foo,") (u "example.com/foo") (u ",") 1 1
                [(u "_text", u "example.com/foo");
                 (u "href", u "http://example.com/foo");
                 (u "rel", u "nofollow")]
                (u "example.com/foo") (u "http://example.com/foo")
                eq_refl eq_refl eq_refl eq_refl eq_refl) as [H _].
  exact H.
Defined.

(** ** [email_repl] *)

(** C10: for an email match the callbacks accept, the address is the match
    with every double quote replaced by [&quot;]; it holds no double quote;
    it is the candidate's text and, after [mailto:], its href; the
    replacement is the anchor made of the attributes the callbacks returned;
    and when the callbacks return the href as it was, the value read from
    the opening quote of the href to the next quote is that href whole. *)
Theorem email_repl_accepted (callbacks : list callback) (m : str)
    (link : attrs) (t h : str) :
  apply_callbacks callbacks (new_email_link (email_addr m)) true = Some link ->
  Dict.get (u "href") link = Some h ->
  Dict.get (u "_text") link = Some t ->
  email_repl callbacks m
  = Ok (anchor h (Dict.remove (u "_text") (Dict.remove (u "href") link)) t)
  /\ email_addr m = PyStr.replace dquote (u "&quot;") m
  /\ ~ In dquote (email_addr m)
  /\ Dict.get (u "_text") (new_email_link (email_addr m)) = Some (email_addr m)
  /\ Dict.get (u "href") (new_email_link (email_addr m))
     = Some (u "mailto:" ++ email_addr m)
  /\ (h = u "mailto:" ++ email_addr m ->
      forall rest,
        anchor h (Dict.remove (u "_text") (Dict.remove (u "href") link)) t
        = u "<a href=" ++ [dquote] ++ h ++ dquote :: rest ->
        PyStr.span (fun c => negb (Ascii.eqb c dquote)) (h ++ dquote :: rest)
        = (u "mailto:" ++ email_addr m, dquote :: rest)).
Proof.
  intros H1 Hh Ht.
  split; [|split; [|split; [|split; [|split]]]].
  - unfold email_repl. rewrite H1. unfold Dict.pop. rewrite Hh. cbn [res_bind].
    rewrite get_remove_ne by (intros E; vm_compute in E; discriminate E).
    rewrite Ht. reflexivity.
  - reflexivity.
  - apply email_addr_no_dquote.
  - reflexivity.
  - reflexivity.
  - intros -> rest _. apply span_until_dquote.
    intros Hin. apply in_app_or in Hin as [Hin|Hin].
    + vm_compute in Hin. repeat (destruct Hin as [Hin|Hin]; [discriminate Hin|]).
      exact Hin.
    + now apply email_addr_no_dquote in Hin.
Qed.

(** ** The order of the top-level domains *)

Lemma startswith_app (p s : str) :
  PyStr.startswith p s = true <-> exists r, s = p ++ r.
Proof.
  revert s. induction p as [|a p IH]; intros s; simpl.
  - split; [intros _; now exists s | reflexivity].
  - destruct s as [|b s].
    + split; [discriminate | intros [r Hr]; discriminate Hr].
    + rewrite andb_true_iff, IH, Ascii.eqb_eq. split.
      * intros [-> [r ->]]. now exists r.
      * intros [r [= -> ->]]. split; [reflexivity | now exists r].
Qed.

(** Of two prefixes of one string, the shorter is a prefix of the longer. *)
Lemma startswith_shorter (p q s : str) :
  PyStr.startswith p s = true -> PyStr.startswith q s = true ->
  length p <= length q -> PyStr.startswith p q = true.
Proof.
  revert q s. induction p as [|a p IH]; intros q s Hp Hq Hl; [reflexivity|].
  destruct s as [|b s]; [discriminate Hp|].
  destruct q as [|c q]; [simpl in Hl; lia|].
  simpl in *. apply andb_true_iff in Hp as [Ha Hp].
  apply andb_true_iff in Hq as [Hc Hq].
  apply Ascii.eqb_eq in Ha, Hc. subst.
  rewrite Ascii.eqb_refl. simpl. apply (IH q s); [assumption..|lia].
Qed.

Lemma longer_first_spec (l : list str) :
  longer_first l = true ->
  forall i j a b, l !! i = Some a -> l !! j = Some b ->
                  proper_prefix a b = true -> j < i.
Proof.
  induction l as [|x l IH]; intros H i j a b Hi Hj Hp; [discriminate Hi|].
  simpl in H. apply andb_true_iff in H as [Hx Hl].
  destruct i as [|i], j as [|j]; simpl in *.
  - injection Hi as <-. injection Hj as <-.
    unfold proper_prefix in Hp. apply andb_true_iff in Hp as [_ Hp].
    apply Nat.ltb_lt in Hp. lia.
  - injection Hi as <-. rewrite forallb_forall in Hx.
    assert (Hin : In b l) by (apply list_elem_of_In, list_elem_of_lookup; eauto).
    specialize (Hx b Hin). rewrite Hp in Hx. discriminate Hx.
  - lia.
  - specialize (IH Hl i j a b Hi Hj Hp). lia.
Qed.

Lemma longer_first_later (l1 l2 : list str) (a b : str) :
  longer_first (l1 ++ a :: l2) = true -> In b l2 -> proper_prefix a b = false.
Proof.
  induction l1 as [|x l1 IH]; simpl; intros H Hb.
  - apply andb_true_iff in H as [H _]. rewrite forallb_forall in H.
    specialize (H b Hb). now apply negb_true_iff in H.
  - apply andb_true_iff in H as [_ H]. now apply IH.
Qed.

(** In a list of lower-case alternatives with the longer entries first, the
    alternative taken first is the longest one that matches. *)
Lemma first_alt_longest (l : list str) :
  longer_first l = true ->
  (forall x, In x l -> PyStr.lower x = x) ->
  forall s t, first_alt l s = Some t ->
  forall t', In t' l -> alt_matches t' s = true -> length t' <= length t.
Proof.
  unfold first_alt, alt_matches.
  induction l as [|x l IH]; intros Hord Hlow s t Hfind t' Hin' Hm';
    [destruct Hin'|].
  simpl in Hfind, Hord. apply andb_true_iff in Hord as [Hx Hord].
  destruct (PyStr.startswith (PyStr.lower x) (PyStr.lower s)) eqn:Ex.
  - injection Hfind as <-. destruct Hin' as [->|Hin']; [lia|].
    destruct (le_lt_dec (length t') (length x)) as [Hle|Hlt]; [exact Hle|].
    exfalso. rewrite forallb_forall in Hx. specialize (Hx t' Hin').
    apply negb_true_iff in Hx. unfold proper_prefix in Hx.
    apply andb_false_iff in Hx as [Hx|Hx].
    + rewrite (Hlow x (or_introl eq_refl)) in Ex.
      rewrite (Hlow t' (or_intror Hin')) in Hm'.
      rewrite (startswith_shorter x t' (PyStr.lower s)) in Hx;
        [discriminate Hx|assumption..|lia].
    + apply Nat.ltb_ge in Hx. lia.
  - destruct Hin' as [->|Hin']; [rewrite Hm' in Ex; discriminate Ex|].
    apply (IH Hord (fun y Hy => Hlow y (or_intror Hy)) s t Hfind t' Hin' Hm').
Qed.

Lemma TLDS_longer_first : longer_first TLDS = true.
Proof. vm_compute. reflexivity. Qed.

Lemma TLDS_lower (x : str) : In x TLDS -> PyStr.lower x = x.
Proof.
  assert (H : forallb (fun t => PyStr.eqb (PyStr.lower t) t) TLDS = true)
    by (vm_compute; reflexivity).
  rewrite forallb_forall in H. intros Hx. specialize (H x Hx).
  unfold PyStr.eqb in H. now apply bool_decide_eq_true in H.
Qed.

(** ** [replace_nodes] *)

Lemma text_content_eq (t : elem) :
  text_content t = or_empty (text t) ++ texts (children t).
Proof. destruct t; reflexivity. Qed.

Lemma texts_app (l1 l2 : list elem) : texts (l1 ++ l2) = texts l1 ++ texts l2.
Proof. unfold texts. apply flat_map_app. Qed.

Lemma texts_cons (c : elem) (l : list elem) :
  texts (c :: l) = text_content c ++ or_empty (tail c) ++ texts l.
Proof. unfold texts. simpl. now rewrite <- app_assoc. Qed.

Lemma text_content_with_tail (c : elem) v :
  text_content (with_tail c v) = text_content c.
Proof. destruct c; reflexivity. Qed.

Lemma py_index_in_range {A} (l : list A) (i : Z) :
  (0 <= i < Z.of_nat (length l))%Z -> py_index l i = Some (Z.to_nat i).
Proof.
  intros Hi. unfold py_index.
  destruct (0 <=? i)%Z eqn:E1; [|apply Z.leb_gt in E1; lia].
  destruct (i <? Z.of_nat (length l))%Z eqn:E2; [reflexivity|].
  apply Z.ltb_ge in E2. lia.
Qed.

Lemma py_insert_in_range {A} (l : list A) (i : Z) (x : A) :
  (0 <= i <= Z.of_nat (length l))%Z ->
  py_insert l i x = take (Z.to_nat i) l ++ x :: drop (Z.to_nat i) l.
Proof.
  intros Hi. unfold py_insert.
  destruct (i <? 0)%Z eqn:E; [apply Z.ltb_lt in E; lia|].
  now rewrite Z.min_l by lia.
Qed.

Lemma list_snoc_inv {A} (l : list A) : l = [] \/ exists l0 x, l = l0 ++ [x].
Proof.
  destruct l as [|a l] using rev_ind; [now left|]. right. now exists l, a.
Qed.

(** Appending [s] to the tail of the last node of [l1]. *)
Lemma texts_alter_last (l1 l2 : list elem) (c : elem) (s : str) :
  alter (fun c => with_tail c (Some (or_empty (tail c) ++ s)))
        (length l1) (l1 ++ c :: l2)
  = l1 ++ with_tail c (Some (or_empty (tail c) ++ s)) :: l2.
Proof.
  induction l1 as [|x l1 IH]; simpl; [reflexivity|].
  f_equal. exact IH.
Qed.

(** The pattern "append to the text of the tree at position 0, and to the
    tail of the node before the position otherwise" puts [s] right after
    the text of the nodes before the position. *)
Lemma append_before_spec (tree : elem) (l1 l2 : list elem) (idx : Z) (s : str) :
  children tree = l1 ++ l2 -> idx = Z.of_nat (length l1) ->
  exists tx l1',
    (if (idx =? 0)%Z then Ok (append_text tree s)
     else append_tail tree (idx - 1) s)
    = Ok (Elem (eid tree) (tag tree) (attrib tree) tx (tail tree) (l1' ++ l2))
    /\ map eid l1' = map eid l1
    /\ or_empty tx ++ texts l1' = or_empty (text tree) ++ texts l1 ++ s
    /\ (l1 = [] -> tx = Some (or_empty (text tree) ++ s) /\ l1' = [])
    /\ (forall l0 c, l1 = l0 ++ [c] ->
        tx = text tree
        /\ l1' = l0 ++ [with_tail c (Some (or_empty (tail c) ++ s))]).
Proof.
  intros Hcs ->.
  destruct (list_snoc_inv l1) as [->|[l0 [c ->]]].
  - simpl. exists (Some (or_empty (text tree) ++ s)), [].
    unfold append_text, with_text. rewrite Hcs. simpl.
    split; [reflexivity|]. split; [reflexivity|].
    split; [now rewrite !app_nil_r|].
    split; [intros _; now split|].
    intros l0 c Hl. now destruct l0.
  - rewrite length_app. simpl.
    destruct (Z.of_nat (length l0 + 1) =? 0)%Z eqn:E;
      [apply Z.eqb_eq in E; lia|].
    exists (text tree), (l0 ++ [with_tail c (Some (or_empty (tail c) ++ s))]).
    unfold append_tail. rewrite py_index_in_range
      by (rewrite Hcs, !length_app; simpl; lia).
    replace (Z.to_nat (Z.of_nat (length l0 + 1) - 1)) with (length l0) by lia.
    rewrite Hcs, <- app_assoc. simpl. rewrite texts_alter_last.
    unfold with_children. simpl. rewrite <- app_assoc. simpl.
    split; [reflexivity|].
    split; [rewrite !map_app; reflexivity|].
    split.
    { rewrite !texts_app, !texts_cons, text_content_with_tail.
      change (texts []) with (@nil ascii).
      cbn [tail with_tail or_empty].
      now rewrite !app_nil_r, <- !app_assoc. }
    split; [intros Hl; now destruct l0|].
    intros l0' c' Hl. apply app_inj_tail in Hl as [-> ->]. now split.
Qed.

Lemma alloc_eq (next : nat) (t : elem) :
  alloc next t
  = let '(cs, next') := alloc_list (S next) (children t) in
    (Elem next (tag t) (attrib t) (text t) (tail t) cs, next').
Proof. destruct t; reflexivity. Qed.

Lemma alloc_list_cons (n : nat) (c : elem) (l : list elem) :
  alloc_list n (c :: l)
  = let '(c', n1) := alloc n c in
    let '(l'', n2) := alloc_list n1 l in (c' :: l'', n2).
Proof. reflexivity. Qed.

Lemma alloc_eid (next : nat) (t : elem) : eid (fst (alloc next t)) = next.
Proof.
  rewrite alloc_eq. now destruct (alloc_list (S next) (children t)).
Qed.

Lemma alloc_next (t : elem) : forall next, next < snd (alloc next t).
Proof.
  induction t as [id tg at_ tx tl cs IH] using elem_ind'.
  intros next. rewrite alloc_eq. simpl.
  assert (H : forall n, n <= snd (alloc_list n cs)).
  { clear -IH. induction IH as [|c l Hc _ IHl]; intros n; [simpl; lia|].
    rewrite alloc_list_cons. specialize (Hc n).
    destruct (alloc n c) as [c' n1]. specialize (IHl n1).
    destruct (alloc_list n1 l) as [l'' n2]. simpl in *. lia. }
  specialize (H (S next)). destruct (alloc_list (S next) cs). simpl in *. lia.
Qed.

(** The children of an allocated tree are younger than every node that
    was there before. *)
Lemma alloc_list_fresh (l : list elem) :
  forall n, Forall (fun c => n <= eid c) (fst (alloc_list n l)).
Proof.
  induction l as [|c l IH]; intros n; [constructor|].
  rewrite alloc_list_cons.
  pose proof (alloc_eid n c) as He. pose proof (alloc_next c n) as Hn.
  destruct (alloc n c) as [c' n1]. specialize (IH n1).
  destruct (alloc_list n1 l) as [l'' n2]. simpl in *.
  constructor; [lia|].
  eapply Forall_impl; [exact IH|]. simpl. intros; lia.
Qed.

Lemma parse_children_fresh `{Html5lib} (s : str) (st : lstate) :
  Forall (fun c => next_id st < eid c) (children (fst (parse s st))).
Proof.
  unfold parse. rewrite alloc_eq.
  pose proof (alloc_list_fresh (children (parseFragment s)) (S (next_id st))) as Hf.
  destruct (alloc_list _ _) as [cs n]. simpl in *.
  eapply Forall_impl; [exact Hf|]. simpl. intros; lia.
Qed.

(** The loop of [replace_nodes] puts the new nodes, in their order, at the
    position [index]. *)
Lemma insert_loop_spec (index : Z) (ns : list elem) :
  forall tree st done l1 l2,
    children tree = l1 ++ done ++ l2 -> index = Z.of_nat (length l1) ->
    fold_left (insert_step index) ns (tree, st, length done)
    = (with_children tree (l1 ++ (done ++ ns) ++ l2), mark_anchors ns st,
       length done + length ns).
Proof.
  induction ns as [|n ns IH]; intros tree st done l1 l2 Hcs Hidx; simpl.
  - rewrite app_nil_r, Nat.add_0_r. f_equal. f_equal.
    destruct tree; simpl in *. now subst.
  - rewrite py_insert_in_range
      by (rewrite Hcs, !length_app; lia).
    replace (Z.to_nat (index + Z.of_nat (length done)))
      with (length (l1 ++ done)) by (rewrite length_app; lia).
    rewrite Hcs, app_assoc, take_app_length, drop_app_length.
    specialize (IH (with_children tree ((l1 ++ done) ++ n :: l2))
                   (if PyStr.eqb (tag n) (ETREE_TAG (u "a"))
                    then add_seen n st else st)
                   (done ++ [n]) l1 l2).
    rewrite length_app in IH. simpl in IH.
    replace (S (length done)) with (length done + 1) by lia.
    rewrite IH.
    + unfold with_children. simpl. rewrite <- !app_assoc. simpl.
      f_equal. lia.
    + simpl. now rewrite <- !app_assoc.
    + exact Hidx.
Qed.

Lemma otruthy_false (o : option str) : otruthy o = false -> or_empty o = [].
Proof. destruct o as [[|c s]|]; simpl; intros E; [reflexivity|discriminate E|reflexivity]. Qed.

(** Both uses of the pattern in [replace_nodes], with their guard. *)
Lemma capture_spec (tree : elem) (l1 l2 : list elem) (idx : Z) (o : option str) :
  children tree = l1 ++ l2 -> idx = Z.of_nat (length l1) ->
  exists tx l1',
    (if otruthy o then
       if (idx =? 0)%Z then Ok (append_text tree (or_empty o))
       else append_tail tree (idx - 1) (or_empty o)
     else Ok tree)
    = Ok (Elem (eid tree) (tag tree) (attrib tree) tx (tail tree) (l1' ++ l2))
    /\ map eid l1' = map eid l1
    /\ or_empty tx ++ texts l1' = or_empty (text tree) ++ texts l1 ++ or_empty o
    /\ (otruthy o = true -> l1 = [] ->
        tx = Some (or_empty (text tree) ++ or_empty o) /\ l1' = [])
    /\ (otruthy o = true -> forall l0 c, l1 = l0 ++ [c] ->
        tx = text tree
        /\ l1' = l0 ++ [with_tail c (Some (or_empty (tail c) ++ or_empty o))]).
Proof.
  intros Hcs Hidx. destruct (otruthy o) eqn:E.
  - destruct (append_before_spec tree l1 l2 idx (or_empty o) Hcs Hidx)
      as (tx & l1' & H1 & H2 & H3 & H4 & H5).
    exists tx, l1'. repeat (split; [assumption|]). split; intros _; assumption.
  - exists (text tree), l1. rewrite (otruthy_false _ E), app_nil_r.
    split; [destruct tree; simpl in *; now subst|].
    split; [reflexivity|]. split; [reflexivity|].
    split; intros Habs; discriminate Habs.
Qed.

Lemma find_skip (id : nat) (l r : list elem) (x : elem) :
  ~ In id (map eid l) -> eid x = id ->
  List.find (fun c => eid c =? id) (l ++ x :: r) = Some x.
Proof.
  intros Hl Hx. induction l as [|c l IH]; simpl.
  - now rewrite Hx, Nat.eqb_refl.
  - destruct (eid c =? id) eqn:E.
    + apply Nat.eqb_eq in E. exfalso. apply Hl. now left.
    + apply IH. intros Hin. apply Hl. now right.
Qed.

Lemma remove_child_skip (id : nat) (l r : list elem) (x : elem) :
  ~ In id (map eid l) -> eid x = id ->
  remove_child id (l ++ x :: r) = Ok (l ++ r).
Proof.
  intros Hl Hx. induction l as [|c l IH]; simpl.
  - now rewrite Hx, Nat.eqb_refl.
  - destruct (eid c =? id) eqn:E.
    + apply Nat.eqb_eq in E. exfalso. apply Hl. now left.
    + rewrite IH; [reflexivity|]. intros Hin. apply Hl. now right.
Qed.

(** C8: [replace_nodes] at the position after the children [l1] of the
    tree.  The call returns the number of nodes of the parsed fragment.
    Inserting only, the text below the tree becomes the text up to the
    position, the text below the fragment, and the text from the position
    on; the leading text of the fragment goes to the end of the text of the
    tree at position 0 and to the end of the tail of the node before the
    position otherwise.  Replacing the node at the position, the text below
    the tree becomes the text up to the position, the text below the
    fragment, the tail of the node, and the text after the node. *)
Theorem replace_nodes_keeps_text `{Html5lib} (tree : elem) (new_frag : str)
    (st : lstate) (l1 l2 : list elem) :
  children tree = l1 ++ l2 ->
  (exists tree' st',
      replace_nodes tree new_frag None (Z.of_nat (length l1)) st
      = (Ok (tree', length (children (fst (parse new_frag st)))), st')
      /\ text_content tree'
         = or_empty (text tree) ++ texts l1
             ++ text_content (fst (parse new_frag st)) ++ texts l2
      /\ (otruthy (text (fst (parse new_frag st))) = true -> l1 = [] ->
          text tree'
          = Some (or_empty (text tree)
                    ++ or_empty (text (fst (parse new_frag st)))))
      /\ (otruthy (text (fst (parse new_frag st))) = true ->
          forall l0 c, l1 = l0 ++ [c] ->
          text tree' = text tree
          /\ children tree' !! length l0
             = Some (with_tail c
                       (Some (or_empty (tail c)
                                ++ or_empty (text (fst (parse new_frag st)))))))
      /\ exists l1',
          children tree' = l1' ++ children (fst (parse new_frag st)) ++ l2
          /\ map eid l1' = map eid l1)
  /\ (forall node l2',
         l2 = node :: l2' -> eid node < next_id st ->
         ~ In (eid node) (map eid l1) ->
         exists tree' st',
           replace_nodes tree new_frag (Some node) (Z.of_nat (length l1)) st
           = (Ok (tree', length (children (fst (parse new_frag st)))), st')
           /\ text_content tree'
              = or_empty (text tree) ++ texts l1
                  ++ text_content (fst (parse new_frag st))
                  ++ or_empty (tail node) ++ texts l2'
           /\ exists l1',
               children tree' = l1' ++ l2'
               /\ map eid l1'
                  = map eid l1 ++ map eid (children (fst (parse new_frag st)))).
Proof.
  intros Hcs.
  pose proof (parse_children_fresh new_frag st) as Hfresh.
  unfold replace_nodes.
  destruct (parse new_frag st) as [new_tree st1] eqn:Hparse. simpl in *.
  destruct (capture_spec tree l1 l2 (Z.of_nat (length l1)) (text new_tree)
              Hcs eq_refl) as (tx & l1' & Hcap & Hids & Htxt & Hzero & Hprev).
  rewrite Hcap.
  assert (Hlen : length l1' = length l1)
    by (rewrite <- (length_map eid l1'), Hids; apply length_map).
  pose proof (insert_loop_spec (Z.of_nat (length l1)) (children new_tree)
                (Elem (eid tree) (tag tree) (attrib tree) tx (tail tree)
                      (l1' ++ l2))
                st1 [] l1' l2 eq_refl (eq_sym (f_equal Z.of_nat Hlen))) as Hloop.
  simpl in Hloop. rewrite Hloop. clear Hloop.
  split.
  - eexists _, _. split; [reflexivity|].
    split.
    { rewrite text_content_eq. unfold with_children. simpl.
      rewrite !texts_app, app_assoc, Htxt, (text_content_eq new_tree).
      now rewrite <- !app_assoc. }
    split.
    { intros Ht Hl1. now destruct (Hzero Ht Hl1) as [-> _]. }
    split.
    { intros Ht l0 c Hl1. destruct (Hprev Ht l0 c Hl1) as [-> ->].
      split; [reflexivity|]. unfold with_children. simpl.
      rewrite <- !app_assoc. simpl.
      now rewrite list_lookup_middle. }
    exists l1'. now split.
  - intros node l2' -> Hold Hnew.
    set (ns := children new_tree) in *.
    assert (Hskip : ~ In (eid node) (map eid (l1' ++ ns))).
    { rewrite map_app, Hids. intros Hin. apply in_app_or in Hin as [Hin|Hin].
      - now apply Hnew.
      - apply in_map_iff in Hin as (c & Hc & Hin).
        rewrite List.Forall_forall in Hfresh. specialize (Hfresh c Hin). lia. }
    unfold current, with_children. simpl.
    rewrite app_assoc, (find_skip (eid node) (l1' ++ ns) l2' node Hskip eq_refl).
    destruct (capture_spec
                (Elem (eid tree) (tag tree) (attrib tree) tx (tail tree)
                      ((l1' ++ ns) ++ node :: l2'))
                (l1' ++ ns) (node :: l2')
                (Z.of_nat (length l1) + Z.of_nat (length ns)) (tail node)
                eq_refl)
      as (tx2 & l1x & Hgrab & Hids2 & Htxt2 & _ & _).
    { rewrite length_app. lia. }
    simpl in Hgrab. rewrite Hgrab. simpl.
    rewrite remove_child_skip; [|now rewrite Hids2|reflexivity].
    eexists _, _. split; [reflexivity|]. split.
    + rewrite text_content_eq. simpl.
      rewrite texts_app, app_assoc, Htxt2. simpl.
      rewrite texts_app, app_assoc, (app_assoc (or_empty tx)), Htxt.
      rewrite (text_content_eq new_tree). fold ns.
      now rewrite <- !app_assoc.
    + exists l1x. split; [reflexivity|]. now rewrite Hids2, map_app, Hids.
Qed.

(** ** The walk *)

Section walk_facts.

Context `{Html5lib}.
Variables (callbacks : list callback) (skip_pre parse_email : bool).
Variable limit : nat.

(** A tree without text of its own ends the loop at once, wherever the
    cursor is. *)
Lemma linkify_loop_no_text (fuel depth : nat) (tree : elem)
    (parse_text : bool) (current_child : Z) (st : lstate) :
  otruthy (text tree) = false ->
  linkify_loop callbacks skip_pre parse_email limit (S fuel) depth tree
               parse_text current_child st
  = (Normal, tree, st).
Proof.
  intros Ht. cbn [linkify_loop]. unfold loop_turn. rewrite Ht. cbn [negb].
  now destruct (negb (current_child <? Z.of_nat (length (children tree)))%Z).
Qed.

(** When the walk raises the recursion error, [linkify] logs it and
    returns the forest as the walk left it. *)
Lemma linkify_on_recursion_error (fuel : nat) (text_ : str)
    (forest forest' : elem) (st st' : lstate) :
  PyStr.truthy text_ = true ->
  parse text_ initial = (forest, st) ->
  linkify_nodes callbacks skip_pre parse_email limit fuel 0 forest true st
  = (Raised RuntimeError, forest', st') ->
  linkify callbacks skip_pre parse_email limit fuel text_
  = {| result := Returns (_render forest');
       logged := [RuntimeError];
       walked := Some (forest', st') |}.
Proof.
  intros Ht Hp Hw. unfold linkify, force_unicode. rewrite Ht. simpl.
  rewrite Hp, Hw. reflexivity.
Qed.

Lemma linkify_never_raises_recursion_error (fuel : nat) (text_ : str) :
  result (linkify callbacks skip_pre parse_email limit fuel text_)
  <> Raises RuntimeError.
Proof.
  unfold linkify, force_unicode.
  destruct (negb (PyStr.truthy text_)); [discriminate|].
  destruct (parse text_ initial) as [forest st].
  destruct (linkify_nodes _ _ _ _ _ _ _ _ _) as [[[ | [] | ] forest'] st'];
    simpl; discriminate.
Qed.

End walk_facts.

(** C2, at [<a href="http://example.com">text</a>]: the parsed fragment has
    no text of its own, so the walk ends before it looks at the anchor:
    whatever the callbacks, the fragment is returned as it was parsed and
    no node is marked seen. *)
Theorem linkify_skips_existing_anchor (callbacks : list callback)
    (skip_pre parse_email : bool) (limit fuel : nat) :
  linkify (H := Mini.html5lib) callbacks skip_pre parse_email
          (S limit) (S fuel) existing_anchor
  = {| result := Returns existing_anchor;
       logged := [];
       walked := Some (fst (parse (H := Mini.html5lib) existing_anchor initial),
                       {| seen := ∅; next_id := 2; depth_reached := 1 |}) |}
  /\ length (children (fst (parse (H := Mini.html5lib) existing_anchor initial)))
     = 1.
Proof.
  split; [|reflexivity].
  unfold linkify, force_unicode.
  change (PyStr.truthy existing_anchor) with true. cbn [negb].
  destruct (parse existing_anchor initial) as [forest st] eqn:Hp.
  vm_compute in Hp. injection Hp as <- <-.
  unfold linkify_nodes. change (S limit <? 1) with false. cbn iota.
  rewrite linkify_loop_no_text by reflexivity.
  f_equal.
Qed.

(** ** The sanitizing filter *)

Lemma mem_In (x : str) (l : list str) : mem x l = true -> In x l.
Proof.
  unfold mem. rewrite existsb_exists. intros (y & Hy & E).
  unfold PyStr.eqb in E. apply bool_decide_eq_true in E. now subst.
Qed.

Section sanitizer_facts.

Context `{SanitizerTables}.
Variable c : Cleaner.

Lemma sanitize_attribute_allowed (name : str) (kv kv' : str * str) :
  sanitize_attribute c name kv = Some kv' -> attribute_allowed c name kv'.
Proof.
  destruct kv as [k v]. unfold sanitize_attribute.
  destruct (mem k (allowed_names c name)) eqn:Ek; cbn [negb]; [|discriminate].
  apply mem_In in Ek.
  destruct (is_uri_attr k) eqn:Eu.
  - destruct (scheme_allowed c v) eqn:Es; [|discriminate].
    intros [= <-]. split; [exact Ek|]. simpl. intros _ s Hs.
    unfold scheme_allowed in Es. rewrite Hs in Es. now apply mem_In.
  - destruct (PyStr.eqb k (u "style")).
    + destruct (List.filter _ _); [discriminate|].
      intros [= <-]. split; [exact Ek|]. simpl. intros Habs.
      rewrite Eu in Habs. discriminate Habs.
    + intros [= <-]. split; [exact Ek|]. simpl. intros Habs.
      rewrite Eu in Habs. discriminate Habs.
Qed.

Lemma sanitize_attributes_allowed (name : str) (a : attrs) :
  Forall (attribute_allowed c name) (sanitize_attributes c name a).
Proof.
  unfold sanitize_attributes. induction a as [|kv a IH]; simpl; [constructor|].
  destruct (sanitize_attribute c name kv) eqn:E; simpl; [|exact IH].
  constructor; [|exact IH]. now apply (sanitize_attribute_allowed name kv).
Qed.

Lemma decide_tag_keep (name : str) : decide_tag c name = Keep -> In name (tags c).
Proof.
  unfold decide_tag. destruct (mem name (tags c)) eqn:E.
  - intros _. now apply mem_In.
  - destruct (strip c); discriminate.
Qed.

(** On balanced events, with the decisions of the open elements on the
    stack, the filter lets only allowed markup through. *)
Lemma BleachSanitizerFilter_sound (source : list token) :
  forall open_,
    balanced open_ source = true ->
    Forall (token_allowed c)
           (BleachSanitizerFilter c (map (decide_tag c) open_) source).
Proof.
  induction source as [|t source IH]; intros open_ Hb; [constructor|].
  destruct t as [name a|name|data|data]; simpl in *.
  - apply Forall_app. split; [|apply (IH (name :: open_) Hb)].
    destruct (decide_tag c name) eqn:E; repeat constructor.
    + now apply decide_tag_keep.
    + apply sanitize_attributes_allowed.
  - destruct open_ as [|name' open']; [discriminate Hb|].
    apply andb_true_iff in Hb as [Hn Hb].
    unfold PyStr.eqb in Hn. apply bool_decide_eq_true in Hn. subst name'.
    simpl. apply Forall_app. split; [|apply (IH open' Hb)].
    destruct (decide_tag c name) eqn:E; repeat constructor.
    now apply decide_tag_keep.
  - constructor; [exact I|]. now apply IH.
  - apply Forall_app. split; [|now apply IH].
    destruct (strip_comments c); repeat constructor.
Qed.

End sanitizer_facts.

(** C1: with no extra filter, and on the balanced events of the tree
    walker, the stream [clean] renders holds only tags of the allowed
    tags, attribute names allowed for their tag or for all tags, and, in an
    attribute that carries a URL with a scheme, a scheme that is, without
    regard to case, an allowed protocol. *)
Theorem clean_whitelist_sound `{SanitizerTables} `{Html5lib}
    (c : Cleaner) (x : str) (out : list token) :
  filters c = [] ->
  balanced [] (parse_and_walk (force_unicode x)) = true ->
  clean_stream c x = Some out ->
  Forall (token_allowed c) out /\ clean c x = render out.
Proof.
  intros Hf Hb Hc. split.
  - unfold clean_stream in Hc. destruct (negb (PyStr.truthy x)); [discriminate|].
    rewrite Hf in Hc. simpl in Hc. injection Hc as <-.
    now apply (BleachSanitizerFilter_sound c _ []).
  - unfold clean. now rewrite Hc.
Qed.

Lemma clean_whitelist_sound_witness :
  Forall (token_allowed (H := MiniTables.tables) default_cleaner)
         [StartTag (u "a") [(u "title", u "t")]; Characters (u "go");
          EndTag (u "a"); Characters (u "<script>"); Characters (u "s");
          Characters (u "</script>")].
Proof.
  exact (proj1 (clean_whitelist_sound (H := MiniTables.tables)
                  (H0 := Mini.html5lib) default_cleaner unsafe_fragment _
                  eq_refl eq_refl eq_refl)).
Defined.

(** C1 fails with an extra filter: [clean] renders what the last filter
    returns, and a filter may add markup. *)
Lemma clean_with_filter_not_sound :
  ~ whitelist_sound (H := MiniTables.tables) (H0 := Mini.html5lib).
Proof.
  intros Hs.
  specialize (Hs cleaner_with_filter (u "x") _ eq_refl).
  apply Forall_inv in Hs. destruct Hs as [Hs _].
  vm_compute in Hs. repeat (destruct Hs as [Hs|Hs]; [discriminate Hs|]).
  exact Hs.
Qed.

(** ** Empty input *)

(** C9: on the empty text, [clean] and [linkify] return the empty text;
    nothing is parsed, filtered or walked, whatever the collaborators and
    the arguments. *)
Theorem empty_input_short_circuits `{SanitizerTables} `{Html5lib}
    (c : Cleaner) (callbacks : list callback) (skip_pre parse_email : bool)
    (limit fuel : nat) :
  clean c [] = []
  /\ clean_stream c [] = None
  /\ linkify callbacks skip_pre parse_email limit fuel []
     = {| result := Returns []; logged := []; walked := None |}.
Proof. repeat split. Qed.

(** ** Instances of the theorems above *)

Lemma email_repl_accepted_witness :
  email_repl [add_rel_nofollow] quoted_address
  = Ok (u "<a href=" ++ [dquote] ++ u "mailto:&quot;me&quot;@example.com"
          ++ [dquote] ++ u " rel=" ++ [dquote] ++ u "nofollow" ++ [dquote]
          ++ u ">&quot;me&quot;@example.com</a>").
Proof.
  exact (proj1 (email_repl_accepted [add_rel_nofollow] quoted_address
                  [(u "_text", u "&quot;me&quot;@example.com");
                   (u "href", u "mailto:&quot;me&quot;@example.com");
                   (u "rel", u "nofollow")]
                  (u "&quot;me&quot;@example.com")
                  (u "mailto:&quot;me&quot;@example.com")
                  eq_refl eq_refl eq_refl)).
Defined.

(** In [x<b>y</b>z<i>t</i>w], the fragment [p<u>q</u>r] put in the place of
    the element [i]: the text goes from [xyztw] to [xyzpqrw]. *)
Lemma replace_nodes_keeps_text_witness :
  text_content sample_tree = u "xyztw"
  /\ exists node tree' st',
      children sample_tree !! 1 = Some node
      /\ replace_nodes (H := Mini.html5lib) sample_tree (u "p<u>q</u>r")
                       (Some node) 1 sample_state
         = (Ok (tree', 1), st')
      /\ text_content tree' = u "xyzpqrw".
Proof.
  split; [reflexivity|].
  destruct (children sample_tree) as [|b [|node l]] eqn:Hcs;
    try (vm_compute in Hcs; discriminate Hcs).
  assert (Hl : l = []) by (vm_compute in Hcs; now injection Hcs as _ _ <-).
  subst l.
  assert (Hnode : eid node = 2 /\ tail node = Some (u "w") /\ eid b = 1
                  /\ text_content b = u "y" /\ tail b = Some (u "z")).
  { vm_compute in Hcs. injection Hcs as <- <-. repeat split. }
  destruct Hnode as (Hid & Htail & Hb & Hbt & Hbtail).
  destruct (proj2 (replace_nodes_keeps_text (H := Mini.html5lib) sample_tree
                     (u "p<u>q</u>r") sample_state [b] [node] Hcs)
                  node [] eq_refl)
    as (tree' & st' & Hr & Ht & _).
  { rewrite Hid. vm_compute. lia. }
  { simpl. rewrite Hid, Hb. intros [E|[]]. discriminate E. }
  exists node, tree', st'. split; [reflexivity|]. split; [exact Hr|].
  rewrite Ht, Htail. rewrite texts_cons, Hbt, Hbtail. reflexivity.
Defined.

(** ** The depth of the walk *)

Lemma walk_depth_eq (t : elem) : walk_depth t = walk_depth_list (children t).
Proof. destruct t; reflexivity. Qed.

Lemma list_max_perm (l l' : list nat) : l ≡ₚ l' -> list_max l = list_max l'.
Proof.
  induction 1; simpl; try lia.
Qed.

Lemma walk_depth_list_perm (l l' : list elem) :
  l ≡ₚ l' -> walk_depth_list l = walk_depth_list l'.
Proof.
  intros Hp. unfold walk_depth_list. apply list_max_perm.
  now apply Permutation_map.
Qed.

Lemma walk_depth_list_cons (x : elem) (l : list elem) :
  walk_depth_list (x :: l) = Nat.max (contrib x) (walk_depth_list l).
Proof. reflexivity. Qed.

Lemma walk_depth_list_app (l1 l2 : list elem) :
  walk_depth_list (l1 ++ l2)
  = Nat.max (walk_depth_list l1) (walk_depth_list l2).
Proof.
  unfold walk_depth_list. rewrite map_app. apply list_max_app.
Qed.

Lemma cons_eq {A} (x y : A) (l l' : list A) :
  x :: l = y :: l' -> x = y /\ l = l'.
Proof. intros E. now injection E. Qed.

Lemma contrib_shape (c c' : elem) : shape c = shape c' -> contrib c = contrib c'.
Proof.
  unfold shape, contrib, is_anchor. intros [= _ Ht Hc].
  rewrite Ht. now rewrite !walk_depth_eq, Hc.
Qed.

Lemma walk_depth_list_shape (l l' : list elem) :
  map shape l = map shape l' -> walk_depth_list l = walk_depth_list l'.
Proof.
  revert l'. induction l as [|c l IH]; intros [|c' l'] E; try discriminate E.
  - reflexivity.
  - apply cons_eq in E as [Hc Hl]. rewrite !walk_depth_list_cons.
    now rewrite (contrib_shape _ _ Hc), (IH _ Hl).
Qed.

Lemma wf_children (n : nat) (t : elem) : wf n t <-> wf_list n (children t).
Proof.
  split.
  - intros Hw. inversion Hw; subst. now split.
  - intros [H1 H2]. now constructor.
Qed.

Lemma wf_shape (n : nat) (c c' : elem) : shape c = shape c' -> wf n c -> wf n c'.
Proof.
  unfold shape. intros [= _ _ Hc] Hw. apply wf_children.
  rewrite <- Hc. now apply wf_children.
Qed.

Lemma map_eid_shape (l l' : list elem) :
  map shape l = map shape l' -> map eid l = map eid l'.
Proof.
  intros E. assert (Hm : map (fun s : nat * str * list elem => fst (fst s)) (map shape l)
                         = map (fun s => fst (fst s)) (map shape l'))
    by now rewrite E.
  now rewrite !map_map in Hm.
Qed.

Lemma wf_list_shape (n : nat) (l l' : list elem) :
  map shape l = map shape l' -> wf_list n l -> wf_list n l'.
Proof.
  intros E [Hn Hf]. split; [now rewrite <- (map_eid_shape _ _ E)|].
  clear Hn. revert l' E. induction Hf as [|c l [Hc Hw] _ IH];
    intros [|c' l'] E; try discriminate E; [constructor|].
  apply cons_eq in E as [Ec El]. constructor; [|now apply IH].
  split; [|now apply (wf_shape n c c')].
  unfold shape in Ec. injection Ec as <- _ _. exact Hc.
Qed.

Lemma anchor_at_shape (id : nat) (l l' : list elem) :
  map shape l = map shape l' -> anchor_at id l -> anchor_at id l'.
Proof.
  unfold anchor_at. intros E Hf. revert l' E.
  induction Hf as [|c l Hc _ IH]; intros [|c' l'] E; try discriminate E;
    [constructor|].
  apply cons_eq in E as [Ec El]. constructor; [|now apply IH].
  unfold shape in Ec. injection Ec as Hid Ht _.
  unfold is_anchor in *. rewrite <- Ht, <- Hid. exact Hc.
Qed.

Lemma wf_mono (t : elem) : forall n m, n <= m -> wf n t -> wf m t.
Proof.
  induction t as [id tg at_ tx tl cs IH] using elem_ind'.
  intros n m Hle Hw. inversion Hw as [t Hn Hf]; subst. simpl in *.
  constructor; [exact Hn|]. simpl.
  rewrite List.Forall_forall in *. intros c Hc.
  destruct (Hf c Hc) as [Hlt Hwc]. split; [lia|].
  now apply (IH c Hc n m).
Qed.

Lemma wf_list_mono (n m : nat) (l : list elem) :
  n <= m -> wf_list n l -> wf_list m l.
Proof.
  intros Hle [Hn Hf]. split; [exact Hn|].
  eapply Forall_impl; [exact Hf|]. intros c [Hlt Hw].
  split; [lia|now apply (wf_mono c n m)].
Qed.

Lemma wf_list_perm (n : nat) (l l' : list elem) :
  l ≡ₚ l' -> wf_list n l -> wf_list n l'.
Proof.
  intros Hp [Hn Hf]. split.
  - assert (Hm : map eid l ≡ₚ map eid l') by now apply Permutation_map.
    now rewrite <- Hm.
  - rewrite List.Forall_forall in *. intros c Hc. apply Hf.
    eapply Permutation_in; [|exact Hc]. now symmetry.
Qed.

Lemma anchor_at_perm (id : nat) (l l' : list elem) :
  l ≡ₚ l' -> anchor_at id l -> anchor_at id l'.
Proof.
  unfold anchor_at. intros Hp Hf. rewrite List.Forall_forall in *.
  intros c Hc. apply Hf. eapply Permutation_in; [|exact Hc]. now symmetry.
Qed.

Lemma alloc_list_wf (l : list elem) :
  Forall (fun c => forall next, wf (snd (alloc next c)) (fst (alloc next c))) l ->
  forall n,
    n <= snd (alloc_list n l)
    /\ Forall (fun c => n <= eid c < snd (alloc_list n l)) (fst (alloc_list n l))
    /\ NoDup (map eid (fst (alloc_list n l)))
    /\ Forall (wf (snd (alloc_list n l))) (fst (alloc_list n l)).
Proof.
  induction 1 as [|c l Hc _ IH]; intros n.
  - simpl. repeat split; first [lia | constructor].
  - rewrite alloc_list_cons.
    pose proof (alloc_eid n c) as He. pose proof (alloc_next c n) as Hn.
    specialize (Hc n). destruct (alloc n c) as [c' n1]. simpl in He, Hn, Hc.
    destruct (IH n1) as (H1 & H2 & H3 & H4).
    destruct (alloc_list n1 l) as [l'' n2]. simpl in *.
    split; [lia|]. split; [|split].
    + constructor; [lia|]. eapply Forall_impl; [exact H2|]. simpl. intros; lia.
    + apply NoDup_cons. split; [|exact H3].
      rewrite list_elem_of_In, in_map_iff. intros (x & Hx & Hin).
      rewrite List.Forall_forall in H2. specialize (H2 x Hin). lia.
    + constructor; [|exact H4]. now apply (wf_mono c' n1 n2).
Qed.

Lemma alloc_wf (t : elem) :
  forall next, wf (snd (alloc next t)) (fst (alloc next t)).
Proof.
  induction t as [id tg at_ tx tl cs IH] using elem_ind'.
  intros next. rewrite alloc_eq.
  destruct (alloc_list_wf cs IH (S next)) as (H1 & H2 & H3 & H4).
  simpl. destruct (alloc_list (S next) cs) as [cs' n']. simpl in *.
  constructor; [exact H3|]. simpl.
  rewrite List.Forall_forall in *. intros c Hc. specialize (H2 c Hc).
  split; [lia|now apply H4].
Qed.

Lemma parse_spec `{Html5lib} (s : str) (st : lstate) :
  wf (next_id (snd (parse s st))) (fst (parse s st))
  /\ state_step st (snd (parse s st))
  /\ seen (snd (parse s st)) = seen st
  /\ Forall (fun c => next_id st < eid c) (children (fst (parse s st))).
Proof.
  split; [|split; [|split]].
  - unfold parse. pose proof (alloc_wf (parseFragment s) (next_id st)) as Hw.
    now destruct (alloc (next_id st) (parseFragment s)).
  - unfold parse, state_step.
    pose proof (alloc_next (parseFragment s) (next_id st)) as Hn.
    destruct (alloc (next_id st) (parseFragment s)). simpl in *. lia.
  - unfold parse. now destruct (alloc (next_id st) (parseFragment s)).
  - apply parse_children_fresh.
Qed.

Lemma mark_anchors_state (ns : list elem) (st : lstate) :
  next_id (mark_anchors ns st) = next_id st
  /\ depth_reached (mark_anchors ns st) = depth_reached st.
Proof.
  revert st. induction ns as [|n ns IH]; intros st; [now split|].
  change (mark_anchors (n :: ns) st)
    with (mark_anchors ns (if PyStr.eqb (tag n) (ETREE_TAG (u "a"))
                           then add_seen n st else st)).
  destruct (IH (if PyStr.eqb (tag n) (ETREE_TAG (u "a"))
                then add_seen n st else st)) as [H1 H2].
  rewrite H1, H2. now destruct (PyStr.eqb (tag n) (ETREE_TAG (u "a"))).
Qed.

Lemma py_insert_perm {A} (l : list A) (i : Z) (x : A) : py_insert l i x ≡ₚ x :: l.
Proof.
  unfold py_insert.
  set (p := if (i <? 0)%Z then _ else _).
  rewrite <- Permutation_middle. now rewrite take_drop.
Qed.

(** Whatever the position, the loop of [replace_nodes] adds the new nodes
    to the children and changes nothing else of the tree. *)
Lemma insert_loop_perm (index : Z) (ns : list elem) :
  forall tree st count,
  exists tree',
    fold_left (insert_step index) ns (tree, st, count)
    = (tree', mark_anchors ns st, count + length ns)
    /\ children tree' ≡ₚ ns ++ children tree
    /\ eid tree' = eid tree /\ tag tree' = tag tree.
Proof.
  induction ns as [|n ns IH]; intros tree st count.
  - exists tree. simpl. rewrite Nat.add_0_r. now repeat split.
  - change (fold_left (insert_step index) (n :: ns) (tree, st, count))
      with (fold_left (insert_step index) ns
              (with_children tree
                 (py_insert (children tree) (index + Z.of_nat count) n),
               (if PyStr.eqb (tag n) (ETREE_TAG (u "a"))
                then add_seen n st else st), S count)).
    destruct (IH (with_children tree
                    (py_insert (children tree) (index + Z.of_nat count) n))
                 (if PyStr.eqb (tag n) (ETREE_TAG (u "a"))
                  then add_seen n st else st) (S count))
      as (tree' & Hf & Hp & He & Ht).
    exists tree'. split; [|split; [|split]].
    + rewrite Hf.
      change (mark_anchors (n :: ns) st)
        with (mark_anchors ns (if PyStr.eqb (tag n) (ETREE_TAG (u "a"))
                               then add_seen n st else st)).
      f_equal. simpl. lia.
    + rewrite Hp. cbn [children with_children]. rewrite py_insert_perm.
      now rewrite <- Permutation_middle.
    + exact He.
    + exact Ht.
Qed.

Lemma remove_child_perm (id : nat) (l l' : list elem) :
  remove_child id l = Ok l' -> exists x, eid x = id /\ l ≡ₚ x :: l'.
Proof.
  revert l'. induction l as [|c l IH]; intros l' Hr; [discriminate Hr|].
  simpl in Hr. destruct (eid c =? id) eqn:E.
  - injection Hr as <-. apply Nat.eqb_eq in E. exists c.
    split; [exact E|reflexivity].
  - destruct (remove_child id l) as [r|e]; [|discriminate Hr].
    injection Hr as <-. destruct (IH r eq_refl) as (x & Hx & Hp).
    exists x. split; [exact Hx|]. rewrite Hp. apply perm_swap.
Qed.

Lemma alter_tail_shape (f : elem -> option str) (p : nat) (l : list elem) :
  map shape (alter (fun c => with_tail c (f c)) p l) = map shape l.
Proof.
  revert p. induction l as [|c l IH]; intros [|p]; try reflexivity.
  change (shape c :: map shape (alter (fun c => with_tail c (f c)) p l)
          = shape c :: map shape l).
  f_equal. apply IH.
Qed.

(** The pattern of [replace_nodes] for a text leaves the shape of the
    children, and the identity and the tag of the tree. *)
Lemma capture_shape (tree tree' : elem) (idx : Z) (o : option str) :
  (if otruthy o then
     if (idx =? 0)%Z then Ok (append_text tree (or_empty o))
     else append_tail tree (idx - 1) (or_empty o)
   else Ok tree) = Ok tree' ->
  map shape (children tree') = map shape (children tree)
  /\ eid tree' = eid tree /\ tag tree' = tag tree.
Proof.
  destruct (otruthy o); [|intros [= <-]; now repeat split].
  destruct (idx =? 0)%Z; [intros [= <-]; now repeat split|].
  unfold append_tail. destruct (py_index (children tree) (idx - 1));
    [|discriminate].
  intros [= <-]. simpl. split; [|now split].
  apply (alter_tail_shape (fun c => Some (or_empty (tail c) ++ or_empty o))).
Qed.

Lemma current_eid (tree node : elem) : eid (current tree node) = eid node.
Proof.
  unfold current. destruct (List.find _ _) as [c|] eqn:E; [|reflexivity].
  apply find_some in E as [_ E]. now apply Nat.eqb_eq in E.
Qed.

Lemma wf_list_app (n : nat) (l1 l2 : list elem) :
  wf_list n l1 -> wf_list n l2 ->
  (forall x y, In x l1 -> In y l2 -> eid x <> eid y) ->
  wf_list n (l1 ++ l2).
Proof.
  intros [Hn1 Hf1] [Hn2 Hf2] Hd. split.
  - rewrite map_app. apply NoDup_app. split; [exact Hn1|]. split; [|exact Hn2].
    intros i Hi1 Hi2. rewrite list_elem_of_In, in_map_iff in Hi1, Hi2.
    destruct Hi1 as (x & <- & Hx). destruct Hi2 as (y & Hy & Hiny).
    now apply (Hd x y Hx Hiny).
  - now apply Forall_app.
Qed.

Lemma wf_list_tail (n : nat) (x : elem) (l : list elem) :
  wf_list n (x :: l) -> wf_list n l.
Proof.
  intros [Hn Hf]. simpl in Hn. apply NoDup_cons in Hn as [_ Hn].
  split; [exact Hn|]. now inversion Hf.
Qed.

Lemma anchor_at_app (id : nat) (l1 l2 : list elem) :
  anchor_at id l1 -> anchor_at id l2 -> anchor_at id (l1 ++ l2).
Proof. unfold anchor_at. intros. now apply Forall_app. Qed.

(** [replace_nodes] keeps the identities in order and the state in step;
    it does not take from the depth of the walk, when the node it removes
    is an anchor. *)
Lemma replace_nodes_good `{Html5lib} (tree : elem) (new_frag : str)
    (node : option elem) (index : Z) (st : lstate) :
  wf (next_id st) tree ->
  state_step st (snd (replace_nodes tree new_frag node index st))
  /\ match fst (replace_nodes tree new_frag node index st) with
     | Raise _ => True
     | Ok (tree', _) =>
         wf (next_id (snd (replace_nodes tree new_frag node index st))) tree'
         /\ eid tree' = eid tree /\ tag tree' = tag tree
         /\ (match node with
             | None => True
             | Some nd =>
                 eid nd <= next_id st /\ anchor_at (eid nd) (children tree)
             end -> walk_depth tree <= walk_depth tree')
     end.
Proof.
  intros Hw. unfold replace_nodes.
  destruct (parse_spec new_frag st) as (Hwn & Hss & _ & Hfresh).
  destruct (parse new_frag st) as [new_tree st1]. simpl in Hwn, Hss, Hfresh.
  destruct (if otruthy (text new_tree) then _ else _) as [tree1|e] eqn:Hcap;
    [|simpl; now split].
  apply capture_shape in Hcap as (Hsh1 & He1 & Ht1).
  destruct (insert_loop_perm index (children new_tree) tree1 st1 0)
    as (tree2 & Hf & Hp & He2 & Ht2).
  rewrite Hf. clear Hf.
  destruct (mark_anchors_state (children new_tree) st1) as [Hn2 Hd2].
  set (st2 := mark_anchors (children new_tree) st1) in *.
  assert (Hss2 : state_step st st2).
  { unfold state_step in *. rewrite Hn2, Hd2. exact Hss. }
  apply wf_children in Hw, Hwn.
  assert (Hw1 : wf_list (next_id st1) (children tree1)).
  { apply (wf_list_shape _ (children tree)); [now symmetry|].
    apply (wf_list_mono (next_id st)); [apply Hss|exact Hw]. }
  assert (Hold : forall y, In y (children tree1) -> eid y < next_id st).
  { intros y Hy. apply (in_map eid) in Hy.
    rewrite (map_eid_shape _ _ Hsh1), in_map_iff in Hy.
    destruct Hy as (z & <- & Hz). destruct Hw as [_ Hw].
    rewrite List.Forall_forall in Hw. now apply Hw. }
  assert (Hw2 : wf_list (next_id st2) (children tree2)).
  { rewrite Hn2. apply (wf_list_perm _ (children new_tree ++ children tree1));
      [now symmetry|].
    apply wf_list_app; [exact Hwn|exact Hw1|].
    intros x y Hx Hy. rewrite List.Forall_forall in Hfresh.
    specialize (Hfresh x Hx). specialize (Hold y Hy).
    lia. }
  assert (Hd12 : walk_depth tree <= walk_depth_list (children tree2)).
  { rewrite (walk_depth_list_perm _ _ Hp), walk_depth_list_app.
    rewrite (walk_depth_list_shape _ _ Hsh1), (walk_depth_eq tree). lia. }
  destruct node as [nd|].
  - rewrite current_eid.
    destruct (if otruthy (tail (current tree2 nd)) then _ else _)
      as [tree3|e] eqn:Hgrab; [|simpl; now split].
    apply capture_shape in Hgrab as (Hsh3 & He3 & Ht3).
    destruct (remove_child (eid nd) (children tree3)) as [cs|e] eqn:Hrm;
      [|simpl; now split].
    apply remove_child_perm in Hrm as (x & Hx & Hpx).
    cbn [fst snd]. split; [exact Hss2|].
    assert (Hw3 : wf_list (next_id st2) (children tree3))
      by (apply (wf_list_shape _ (children tree2)); [now symmetry|exact Hw2]).
    split.
    { apply wf_children. cbn [children with_children].
      apply (wf_list_tail _ x). now apply (wf_list_perm _ (children tree3)). }
    split; [cbn [eid with_children]; congruence|].
    split; [cbn [tag with_children]; congruence|].
    intros [Hnd Hanch].
    rewrite (walk_depth_eq (with_children tree3 cs)).
    cbn [children with_children].
    assert (Ha3 : anchor_at (eid nd) (children tree3)).
    { apply (anchor_at_shape _ (children tree2)); [now symmetry|].
      apply (anchor_at_perm _ (children new_tree ++ children tree1));
        [now symmetry|].
      apply anchor_at_app.
      - unfold anchor_at. rewrite List.Forall_forall in *.
        intros y Hy Hid. specialize (Hfresh y Hy). lia.
      - now apply (anchor_at_shape _ (children tree)); [symmetry|]. }
    assert (Hxa : contrib x = 0).
    { unfold contrib. unfold anchor_at in Ha3.
      rewrite List.Forall_forall in Ha3. rewrite (Ha3 x); [reflexivity| |exact Hx].
      eapply Permutation_in; [symmetry; exact Hpx|]. now left. }
    assert (Hcs : walk_depth_list cs = walk_depth_list (children tree3)).
    { rewrite (walk_depth_list_perm _ _ Hpx), walk_depth_list_cons, Hxa.
      reflexivity. }
    rewrite Hcs, (walk_depth_list_shape _ _ Hsh3). exact Hd12.
  - simpl. split; [exact Hss2|]. split; [now apply wf_children|].
    split; [congruence|]. split; [congruence|].
    intros _. now rewrite (walk_depth_eq tree2).
Qed.

Ltac step_tac :=
  unfold tree_step, state_step in *; simpl in *;
  intuition (try congruence; try lia).

Lemma wf_with_text (n : nat) (t : elem) v : wf n t -> wf n (with_text t v).
Proof. intros Hw. apply wf_children. now apply wf_children in Hw. Qed.

Lemma node_at_spec (tree node : elem) (current_child : Z) :
  node_at tree current_child = Ok node ->
  ((current_child < 0)%Z /\ node = tree)
  \/ ((0 <= current_child)%Z
      /\ children tree !! Z.to_nat current_child = Some node).
Proof.
  unfold node_at. destruct (current_child <? 0)%Z eqn:E.
  - intros [= <-]. left. split; [now apply Z.ltb_lt|reflexivity].
  - apply Z.ltb_ge in E. unfold py_index.
    destruct ((0 <=? current_child)%Z
              && (current_child <? Z.of_nat (length (children tree)))%Z).
    + destruct (children tree !! Z.to_nat current_child) eqn:El;
        [|discriminate]. intros [= <-]. right. now split.
    + destruct (current_child <? 0)%Z eqn:E2;
        [apply Z.ltb_lt in E2; lia|]. discriminate.
Qed.

Lemma insert_middle {A} (l : list A) (p : nat) (c c' : A) :
  l !! p = Some c ->
  exists l1 l2, l = l1 ++ c :: l2 /\ <[p:=c']> l = l1 ++ c' :: l2.
Proof.
  intros Hl. exists (take p l), (drop (S p) l). split.
  - symmetry. now apply take_drop_middle.
  - apply insert_take_drop. now apply lookup_lt_Some in Hl.
Qed.

Lemma NoDup_eid_inj (l : list elem) (x y : elem) :
  NoDup (map eid l) -> In x l -> In y l -> eid x = eid y -> x = y.
Proof.
  induction l as [|c l IH]; intros Hn Hx Hy E; [destruct Hx|].
  simpl in Hn. apply NoDup_cons in Hn as [Hc Hn].
  rewrite list_elem_of_In, in_map_iff in Hc.
  destruct Hx as [->|Hx], Hy as [->|Hy].
  - reflexivity.
  - exfalso. apply Hc. now exists y.
  - exfalso. apply Hc. now exists x.
  - now apply IH.
Qed.

(** A child put in the place of another with the same identity. *)
Lemma set_child_good (n : nat) (tree c c' : elem) (p : nat) :
  wf n tree -> children tree !! p = Some c ->
  eid c' = eid c -> wf n c' ->
  wf n (with_children tree (<[p:=c']> (children tree)))
  /\ (contrib c <= contrib c' ->
      walk_depth tree
      <= walk_depth (with_children tree (<[p:=c']> (children tree))))
  /\ contrib c'
     <= walk_depth (with_children tree (<[p:=c']> (children tree))).
Proof.
  intros Hw Hl He Hwc.
  destruct (insert_middle _ p c c' Hl) as (l1 & l2 & Hcs & Hins).
  rewrite Hins. apply wf_children in Hw. rewrite Hcs in Hw.
  rewrite (walk_depth_eq (with_children tree _)), (walk_depth_eq tree), Hcs.
  cbn [children with_children].
  rewrite !walk_depth_list_app, !walk_depth_list_cons.
  split; [|split; lia].
  apply wf_children. cbn [children with_children].
  destruct Hw as [Hn Hf]. split.
  - rewrite map_app in *. simpl in *. now rewrite He.
  - apply Forall_app in Hf as [Hf1 Hf2]. apply Forall_app. split; [exact Hf1|].
    inversion Hf2 as [|? ? [Hlt _] Hf3]; subst.
    constructor; [|exact Hf3]. split; [now rewrite He|exact Hwc].
Qed.

Section depth_facts.

Context `{Html5lib}.
Variables (callbacks : list callback) (skip_pre : bool).
Variable limit : nat.

Lemma update_anchor_good (node : elem) (text_ : str) (a : attrs) (st : lstate) :
  state_step st (snd (update_anchor node text_ a st))
  /\ wf (next_id (snd (update_anchor node text_ a st)))
        (fst (update_anchor node text_ a st))
  /\ eid (fst (update_anchor node text_ a st)) = eid node
  /\ tag (fst (update_anchor node text_ a st)) = tag node.
Proof.
  unfold update_anchor.
  destruct (parse_spec (force_unicode text_) st) as (Hw & Hs & _ & _).
  destruct (parse (force_unicode text_) st) as [frag st1]. simpl in *.
  split; [exact Hs|]. split; [|now split].
  apply wf_children. now apply wf_children in Hw.
Qed.

Lemma text_phase_good (tree : elem) (parse_text : bool) (current_child : Z)
    (st : lstate) :
  wf (next_id st) tree ->
  match text_phase callbacks false tree parse_text current_child st with
  | TextRestart _ _ _ => False
  | TextContinue tree' current_child' st' =>
      tree_step tree st tree' st'
      /\ walk_depth tree <= walk_depth tree'
      /\ (current_child <= current_child')%Z
  | TextPass => True
  | TextRaise _ st' => state_step st st'
  end.
Proof.
  intros Hw. unfold text_phase.
  destruct (parse_text && otruthy (text tree)); [|exact I].
  destruct (Re.sub url_re (link_repl callbacks) (or_empty (text tree)))
    as [new_txt|e]; [|now split].
  destruct (negb (PyStr.eqb new_txt (or_empty (text tree)))); [|exact I].
  pose proof (replace_nodes_good (with_text tree (Some [])) new_txt None 0 st
                (wf_with_text _ _ _ Hw)) as Hr.
  destruct (replace_nodes (with_text tree (Some [])) new_txt None 0 st)
    as [[[tree' adj]|e] st']; simpl in Hr.
  - destruct Hr as (Hs & Hw' & He & Ht & Hd).
    split; [step_tac|]. split; [|lia].
    specialize (Hd I). now rewrite (walk_depth_eq tree) in *.
  - apply Hr.
Qed.

Lemma set_node_tail_good (tree node : elem) (current_child : Z) v (n : nat) :
  wf n tree -> node_at tree current_child = Ok node ->
  wf n (set_node tree current_child (with_tail node v))
  /\ eid (set_node tree current_child (with_tail node v)) = eid tree
  /\ tag (set_node tree current_child (with_tail node v)) = tag tree
  /\ walk_depth (set_node tree current_child (with_tail node v))
     = walk_depth tree.
Proof.
  intros Hw Hn. unfold set_node.
  destruct (node_at_spec _ _ _ Hn) as [[Hlt ->]|[Hge Hl]].
  - destruct (current_child <? 0)%Z eqn:E; [|apply Z.ltb_ge in E; lia].
    split; [|split; [reflexivity|split; [reflexivity|]]].
    + apply wf_children. now apply wf_children in Hw.
    + now rewrite !walk_depth_eq.
  - destruct (current_child <? 0)%Z eqn:E; [apply Z.ltb_lt in E; lia|].
    destruct (insert_middle _ _ node (with_tail node v) Hl)
      as (l1 & l2 & Hcs & Hins).
    rewrite Hins.
    assert (Hsh : map shape (l1 ++ with_tail node v :: l2)
                  = map shape (children tree))
      by (rewrite Hcs, !map_app; reflexivity).
    split; [|split; [reflexivity|split; [reflexivity|]]].
    + apply wf_children. cbn [children with_children].
      apply (wf_list_shape _ (children tree)); [now symmetry|].
      now apply wf_children.
    + rewrite !walk_depth_eq. cbn [children with_children].
      now apply walk_depth_list_shape.
Qed.

Lemma tail_phase_good (tree node : elem) (parse_text : bool)
    (current_child : Z) (st : lstate) :
  wf (next_id st) tree -> node_at tree current_child = Ok node ->
  match tail_phase callbacks false tree node parse_text current_child st with
  | TailContinue _ _ => False
  | TailPass tree' st' =>
      tree_step tree st tree' st' /\ walk_depth tree <= walk_depth tree'
  | TailRaise _ st' => state_step st st'
  end.
Proof.
  intros Hw Hn. unfold tail_phase.
  assert (Hrefl : tree_step tree st tree st /\ walk_depth tree <= walk_depth tree).
  { step_tac. }
  destruct (parse_text && otruthy (tail node)); [|exact Hrefl].
  destruct (Re.sub url_re (link_repl callbacks) (or_empty (tail node)))
    as [new_tail|e]; [|now split].
  destruct (negb (PyStr.eqb new_tail (or_empty (tail node)))); [|exact Hrefl].
  destruct (set_node_tail_good tree node current_child (Some []) _ Hw Hn)
    as (Hwc & Hec & Htc & Hdc).
  pose proof (replace_nodes_good _ new_tail None (current_child + 1) st Hwc)
    as Hr.
  destruct (replace_nodes _ new_tail None (current_child + 1) st)
    as [[[tree' adj]|e] st']; simpl in Hr.
  - destruct Hr as (Hs & Hw' & He & Ht & Hd).
    split; [step_tac|].
    specialize (Hd I). lia.
  - apply Hr.
Qed.

Lemma node_phase_good (tree node : elem) (parse_text : bool)
    (current_child : Z) (st : lstate) :
  wf (next_id st) tree -> node_at tree current_child = Ok node ->
  match node_phase callbacks skip_pre tree node parse_text current_child st with
  | NodeStay tree' current_child' st' =>
      tree_step tree st tree' st'
      /\ ((0 <= current_child)%Z \/ is_anchor tree = false ->
          walk_depth tree <= walk_depth tree')
      /\ (current_child - 1 <= current_child')%Z
  | NodeDescend nd _ =>
      (0 <= current_child)%Z /\ nd = node /\ is_anchor nd = false
  | NodeRaise _ st' => state_step st st'
  end.
Proof.
  intros Hw Hn. unfold node_phase.
  assert (Hrefl : tree_step tree st tree st
                  /\ ((0 <= current_child)%Z \/ is_anchor tree = false ->
                      walk_depth tree <= walk_depth tree)
                  /\ (current_child - 1 <= current_child)%Z).
  { step_tac. }
  fold (is_anchor node).
  destruct (is_anchor node && negb (in_seen node st)) eqn:Ea.
  - apply andb_true_iff in Ea as [Ea _].
    assert (Hcase : (0 <= current_child)%Z \/ is_anchor tree = false ->
                    (0 <= current_child)%Z
                    /\ children tree !! Z.to_nat current_child = Some node).
    { destruct (node_at_spec _ _ _ Hn) as [[Hlt ->]|[Hge Hl]]; [|now intros].
      intros [?|Hf]; [lia|]. rewrite Hf in Ea. discriminate Ea. }
    destruct (Dict.get (u "href") (attrib node)); [|exact Hrefl].
    destruct (apply_callbacks callbacks _ false) as [a|].
    + destruct (Dict.pop (u "_text") a) as [[text_ a']|e]; [|now split].
      destruct (update_anchor_good node text_ a' st) as (Hs & Hwn & Hen & Htn).
      destruct (update_anchor node text_ a' st) as [node' st']. simpl in *.
      assert (Hw1 : wf (next_id st') tree)
        by (apply (wf_mono tree (next_id st)); [apply Hs|exact Hw]).
      unfold set_node.
      destruct (node_at_spec _ _ _ Hn) as [[Hlt ->]|[Hge Hl]].
      * destruct (current_child <? 0)%Z eqn:E; [|apply Z.ltb_ge in E; lia].
        split; [step_tac|]. split; [|lia].
        intros [?|Hf]; [lia|]. rewrite Hf in Ea. discriminate Ea.
      * destruct (current_child <? 0)%Z eqn:E; [apply Z.ltb_lt in E; lia|].
        destruct (set_child_good _ tree node node' _ Hw1 Hl Hen Hwn)
          as (Hw2 & Hd2 & _).
        split; [step_tac|]. split; [|lia].
        intros _. apply Hd2. unfold contrib.
        rewrite Ea. unfold is_anchor in *. rewrite Htn, Ea. lia.
    + pose proof (replace_nodes_good tree (_render_inner node) (Some node)
                    current_child st Hw) as Hr.
      destruct (replace_nodes tree (_render_inner node) (Some node)
                              current_child st)
        as [[[tree' adj]|e] st']; simpl in Hr; [|apply Hr].
      destruct Hr as (Hs & Hw' & He & Ht & Hd).
      split; [step_tac|]. split; [|lia].
      intros Hc. destruct (Hcase Hc) as [Hge Hl]. apply Hd.
      apply wf_children in Hw. destruct Hw as [Hnd Hf].
      assert (Hin : In node (children tree))
        by (apply list_elem_of_In, list_elem_of_lookup; eauto).
      split.
      * rewrite List.Forall_forall in Hf. specialize (Hf node Hin). lia.
      * unfold anchor_at. rewrite List.Forall_forall. intros x Hx Hid.
        now rewrite (NoDup_eid_inj _ x node Hnd Hx Hin Hid).
  - destruct (0 <=? current_child)%Z eqn:Ec; [|exact Hrefl].
    apply Z.leb_le in Ec.
    destruct (PyStr.eqb (tag node) (ETREE_TAG (u "pre")) && skip_pre) eqn:Ep.
    + split; [exact Ec|]. split; [reflexivity|].
      apply andb_true_iff in Ep as [Ep _]. unfold PyStr.eqb in Ep.
      apply bool_decide_eq_true in Ep. unfold is_anchor. now rewrite Ep.
    + destruct (negb (in_seen node st)) eqn:Es; [|exact Hrefl].
      split; [exact Ec|]. split; [reflexivity|].
      rewrite andb_true_r in Ea. exact Ea.
Qed.

End depth_facts.

Lemma loop_good_refl (d : nat) (c : Z) (tree : elem) (st st' : lstate)
    (ex : exit) :
  wf (next_id st) tree -> state_step st st' ->
  loop_good d c tree st (ex, tree, st').
Proof.
  intros Hw [Hn Hd]. unfold loop_good.
  split; [exact Hn|]. split; [now apply (wf_mono tree (next_id st))|].
  split; [reflexivity|]. split; [reflexivity|]. split; [lia|]. intros _; lia.
Qed.

(** What a part of a turn did, and what the loop does from there on. *)
Lemma loop_good_trans (d : nat) (c c1 : Z) (tree tree1 : elem)
    (st st1 : lstate) (r : exit * elem * lstate) :
  next_id st <= next_id st1 ->
  eid tree1 = eid tree -> tag tree1 = tag tree ->
  ((0 <= c)%Z \/ is_anchor tree = false -> walk_depth tree <= walk_depth tree1) ->
  ((0 <= c)%Z -> (0 <= c1)%Z) ->
  depth_reached st1 = depth_reached st
  \/ (depth_reached st1
      <= Nat.max (depth_reached st) (d + walk_depth tree1)
      /\ (0 <= c1)%Z) ->
  loop_good d c1 tree1 st1 r -> loop_good d c tree st r.
Proof.
  intros Hn He Ht Hd Hc HD. destruct r as [[ex tree'] st']. unfold loop_good.
  intros (Hn' & Hw' & He' & Ht' & HD' & Hd').
  assert (Ha : is_anchor tree1 = is_anchor tree)
    by (unfold is_anchor; now rewrite Ht).
  split; [lia|]. split; [exact Hw'|]. split; [congruence|].
  split; [congruence|]. split.
  - destruct HD as [HD|[HD Hc1]]; [lia|].
    specialize (Hd' (or_introl Hc1)). lia.
  - intros Hp. specialize (Hd Hp).
    assert (Hp1 : (0 <= c1)%Z \/ is_anchor tree1 = false).
    { destruct Hp as [Hp|Hp]; [left; now apply Hc|right; congruence]. }
    specialize (Hd' Hp1). lia.
Qed.

Section loop_facts.

Context `{Html5lib}.
Variables (callbacks : list callback) (skip_pre : bool).
Variable limit : nat.

(** One turn keeps what the loop keeps, when the turns after it and the
    activations below it do. *)
Lemma loop_turn_good
    (again : nat -> elem -> bool -> Z -> lstate -> exit * elem * lstate)
    (depth : nat) (tree : elem) (parse_text : bool) (current_child : Z)
    (st : lstate) :
  (forall d t p c s, wf (next_id s) t -> loop_good d c t s (again d t p c s)) ->
  wf (next_id st) tree ->
  loop_good depth current_child tree st
            (loop_turn callbacks skip_pre false limit again depth tree
                       parse_text current_child st).
Proof.
  intros Hagain Hw. unfold loop_turn.
  assert (Hss : state_step st st) by (split; [lia|reflexivity]).
  destruct (negb (current_child <? Z.of_nat (length (children tree)))%Z);
    [now apply loop_good_refl|].
  destruct (negb (otruthy (text tree))); [now apply loop_good_refl|].
  pose proof (text_phase_good callbacks tree parse_text current_child st Hw)
    as Htext.
  destruct (if (current_child <? 0)%Z then _ else TextPass)
    as [t1 c1 s1|t1 c1 s1| |e s1] eqn:Etext.
  - (* the restart belongs to the email scan *)
    destruct (current_child <? 0)%Z; [|discriminate Etext].
    rewrite Etext in Htext. destruct Htext.
  - destruct (current_child <? 0)%Z; [|discriminate Etext].
    rewrite Etext in Htext. destruct Htext as ((Hs & Hw1 & He1 & Ht1) & Hd1 & Hc1).
    apply (loop_good_trans depth current_child c1 tree t1 st s1);
      [apply Hs|exact He1|exact Ht1|intros _; exact Hd1|intros; lia
      |left; apply Hs|now apply Hagain].
  - clear Htext Etext.
    destruct (node_at tree current_child) as [node|e] eqn:Hnode;
      [|now apply loop_good_refl].
    pose proof (tail_phase_good callbacks tree node parse_text current_child
                  st Hw Hnode) as Htail.
    destruct (tail_phase callbacks false tree node parse_text current_child st)
      as [t2 s2|t2 s2|e s2]; [destruct Htail| |now apply loop_good_refl].
    destruct Htail as ((Hs2 & Hw2 & He2 & Ht2) & Hd2).
    apply (loop_good_trans depth current_child current_child tree t2 st s2);
      [apply Hs2|exact He2|exact Ht2|intros _; exact Hd2|intros; lia
      |left; apply Hs2|].
    clear Hnode node.
    destruct (node_at t2 current_child) as [node|e] eqn:Hnode;
      [|apply loop_good_refl; [exact Hw2|split; [lia|reflexivity]]].
    pose proof (node_phase_good callbacks skip_pre t2 node parse_text
                  current_child s2 Hw2 Hnode) as Hnp.
    destruct (node_phase callbacks skip_pre t2 node parse_text current_child s2)
      as [t3 c3 s3|nd pt'|e s3]; [| |now apply loop_good_refl].
    + destruct Hnp as ((Hs3 & Hw3 & He3 & Ht3) & Hd3 & Hc3).
      apply (loop_good_trans depth current_child (c3 + 1) t2 t3 s2 s3);
        [apply Hs3|exact He3|exact Ht3|exact Hd3|intros; lia
        |left; apply Hs3|now apply Hagain].
    + destruct Hnp as (Hge & -> & Hna).
      destruct (node_at_spec _ _ _ Hnode) as [[Hlt _]|[_ Hl]]; [lia|].
      assert (Hset : set_node t2 current_child
                     = fun n => with_children t2
                                  (<[Z.to_nat current_child := n]> (children t2))).
      { unfold set_node. destruct (current_child <? 0)%Z eqn:E;
          [apply Z.ltb_lt in E; lia|reflexivity]. }
      rewrite Hset. clear Hset.
      assert (Hwn : wf (next_id s2) node /\ eid node < next_id s2).
      { apply wf_children in Hw2. destruct Hw2 as [_ Hf].
        rewrite List.Forall_forall in Hf.
        destruct (Hf node) as [Hlt Hwn]; [|now split].
        apply list_elem_of_In, list_elem_of_lookup. eauto. }
      destruct (limit <? S depth).
      * destruct (set_child_good _ t2 node node _ Hw2 Hl eq_refl (proj1 Hwn))
          as (Hw' & Hd' & _).
        unfold loop_good. split; [lia|]. split; [exact Hw'|].
        split; [reflexivity|]. split; [reflexivity|]. split; [lia|].
        intros _. apply Hd'. lia.
      * pose proof (Hagain (S depth) node pt' (-1)%Z
                           (note_depth (S depth) s2) (proj1 Hwn)) as Hrec.
        destruct (again (S depth) node pt' (-1)%Z (note_depth (S depth) s2))
          as [[ex node'] s4].
        destruct Hrec as (Hn4 & Hw4 & He4 & Ht4 & HD4 & Hd4).
        simpl in Hn4, HD4.
        specialize (Hd4 (or_intror Hna)).
        assert (Hna' : is_anchor node' = false)
          by (unfold is_anchor in *; now rewrite Ht4).
        assert (Hw2' : wf (next_id s4) t2)
          by now apply (wf_mono t2 (next_id s2)).
        destruct (set_child_good _ t2 node node' _ Hw2' Hl He4 Hw4)
          as (Hw5 & Hd5 & Hc5).
        assert (Hcontrib : contrib node <= contrib node').
        { unfold contrib. rewrite Hna, Hna'. lia. }
        specialize (Hd5 Hcontrib).
        assert (HD5 : depth_reached s4
                      <= Nat.max (depth_reached s2)
                           (depth + walk_depth
                                      (with_children t2
                                         (<[Z.to_nat current_child := node']>
                                            (children t2))))).
        { unfold contrib in Hc5. rewrite Hna' in Hc5. lia. }
        assert (Hstop : forall ex',
                   loop_good depth current_child t2 s2
                     (ex', with_children t2
                             (<[Z.to_nat current_child := node']> (children t2)),
                      s4)).
        { intros ex'. unfold loop_good. split; [lia|]. split; [exact Hw5|].
          split; [reflexivity|]. split; [reflexivity|]. split; [exact HD5|].
          intros _. exact Hd5. }
        destruct ex; try apply Hstop.
        apply (loop_good_trans depth current_child (current_child + 1) t2
                 (with_children t2
                    (<[Z.to_nat current_child := node']> (children t2)))
                 s2 s4);
          [lia|reflexivity|reflexivity|intros _; exact Hd5|intros; lia
          |right; split; [exact HD5|lia]|now apply Hagain].
  - destruct (current_child <? 0)%Z; [|discriminate Etext].
    rewrite Etext in Htext. now apply loop_good_refl.
Qed.

Lemma linkify_loop_good (fuel : nat) :
  forall depth tree parse_text current_child st,
    wf (next_id st) tree ->
    loop_good depth current_child tree st
              (linkify_loop callbacks skip_pre false limit fuel depth tree
                            parse_text current_child st).
Proof.
  induction fuel as [|fuel IH]; intros depth tree parse_text current_child st Hw.
  - cbn [linkify_loop]. apply loop_good_refl; [exact Hw|].
    split; [lia|reflexivity].
  - cbn [linkify_loop]. apply loop_turn_good; [|exact Hw].
    intros d t p c s. apply IH.
Qed.

End loop_facts.

Lemma list_max_le (f g : elem -> nat) (l : list elem) :
  Forall (fun c => f c <= g c) l -> list_max (map f l) <= list_max (map g l).
Proof. induction 1; simpl; lia. Qed.

Lemma walk_depth_le_nesting (t : elem) : S (walk_depth t) <= nesting t.
Proof.
  induction t as [id tg at_ tx tl cs IH] using elem_ind'.
  simpl. apply le_n_S. apply list_max_le.
  eapply Forall_impl; [exact IH|]. intros c Hc. simpl in Hc.
  destruct (is_anchor c); lia.
Qed.

(** C5: with the email scan off, the walk goes no deeper than the tree it
    leaves has levels: the depth reached is at most the nesting of the
    forest at the end of the walk, the parsed replacements in it. *)
Theorem linkify_depth_bounded_by_final_nesting `{Html5lib}
    (callbacks : list callback) (skip_pre : bool) (limit fuel : nat)
    (x : str) (forest : elem) (st : lstate) :
  walked (linkify callbacks skip_pre false limit fuel x) = Some (forest, st) ->
  depth_reached st <= S (walk_depth forest)
  /\ depth_reached st <= nesting forest.
Proof.
  intros Hwalk.
  assert (Hd : depth_reached st <= S (walk_depth forest)).
  2: { split; [exact Hd|]. pose proof (walk_depth_le_nesting forest). lia. }
  unfold linkify in Hwalk.
  destruct (negb (PyStr.truthy (force_unicode x))); [discriminate Hwalk|].
  destruct (parse_spec (force_unicode x) initial) as (Hw & [_ Hd0] & _ & _).
  destruct (parse (force_unicode x) initial) as [forest0 st0].
  simpl in Hw, Hd0. unfold linkify_nodes in Hwalk.
  assert (Hgood : loop_good 1 (-1) forest0 (note_depth 1 st0)
                    (linkify_loop callbacks skip_pre false limit fuel 1
                                  forest0 true (-1) (note_depth 1 st0)))
    by now apply linkify_loop_good.
  destruct (limit <? 1).
  - simpl in Hwalk. injection Hwalk as <- <-. lia.
  - destruct (linkify_loop _ _ _ _ _ _ _ _ _ _) as [[ex forest'] st'].
    destruct Hgood as (_ & _ & _ & _ & HD & _). simpl in HD.
    assert (Hst : Some (forest', st') = Some (forest, st))
      by (destruct ex as [|[]|]; exact Hwalk).
    injection Hst as <- <-. lia.
Qed.

Lemma linkify_depth_bounded_by_final_nesting_witness :
  exists forest st,
    walked (linkify (H := Mini.html5lib) [] false false 50 100 nested_fragment)
    = Some (forest, st)
    /\ depth_reached st = 3 /\ depth_reached st <= nesting forest.
Proof.
  destruct (walked (linkify (H := Mini.html5lib) [] false false 50 100
                            nested_fragment)) as [[forest st]|] eqn:E;
    [|vm_compute in E; discriminate E].
  exists forest, st. split; [reflexivity|].
  pose proof (linkify_depth_bounded_by_final_nesting (H := Mini.html5lib)
                [] false 50 100 nested_fragment forest st E) as [_ Hb].
  split; [|exact Hb].
  vm_compute in E. injection E as <- <-. reflexivity.
Defined.

(** C5 fails with the email scan on: after an address is replaced in the
    text of a node, [linkify_nodes] calls itself on the same node.  The
    text [mail me@example.com now] has one level and takes the walk to
    depth 2. *)
Lemma linkify_email_restart_exceeds_nesting :
  ~ depth_bounded_by_input_nesting (H := Mini.html5lib).
Proof.
  intros Hc.
  destruct (walked (linkify (H := Mini.html5lib) [] false true 50 100
                            mail_text)) as [[forest st]|] eqn:E;
    [|vm_compute in E; discriminate E].
  specialize (Hc [] false true 50 100 mail_text forest st E).
  vm_compute in E. injection E as <- <-.
  vm_compute in Hc. lia.
Qed.

(** With the email scan off, the input tree does not bound the depth
    either: markup that was text in the input is parsed when the text with
    the new link is put back, and the walk goes into it. *)
Lemma linkify_spliced_markup_deepens_walk :
  exists forest st,
    walked (linkify (H := Mini.html5lib) [] false false 50 100 escaped_markup)
    = Some (forest, st)
    /\ nesting (fst (parse (H := Mini.html5lib) escaped_markup initial)) = 2
    /\ depth_reached st = 3
    /\ nesting forest = 3.
Proof.
  destruct (walked (linkify (H := Mini.html5lib) [] false false 50 100
                            escaped_markup)) as [[forest st]|] eqn:E;
    [|vm_compute in E; discriminate E].
  exists forest, st. split; [reflexivity|].
  vm_compute in E. injection E as <- <-. repeat split.
Qed.

(** ** A loop that does not end *)

(** With the email scan on and the callbacks rejecting, the address in the
    tail of [b] is rewritten with [&quot;], parsed back to the text it
    was, and scanned again: the turn at the cursor 0 leads to the same
    turn, one allocation later. *)
Lemma quoted_tail_turn (limit : nat)
    (again : nat -> elem -> bool -> Z -> lstate -> exit * elem * lstate)
    (n d : nat) :
  loop_turn (H := Mini.html5lib) [reject_all] false true limit again 1
            (fst (parse (H := Mini.html5lib) quoted_tail initial)) true 0
            (state_at n d)
  = again 1 (fst (parse (H := Mini.html5lib) quoted_tail initial)) true 0%Z
          (state_at (S n) d).
Proof. vm_compute. reflexivity. Qed.

Lemma quoted_tail_loop (limit fuel : nat) :
  forall n d,
    fst (fst (linkify_loop (H := Mini.html5lib) [reject_all] false true limit
                           fuel 1
                           (fst (parse (H := Mini.html5lib) quoted_tail initial))
                           true 0 (state_at n d)))
    = OutOfFuel.
Proof.
  induction fuel as [|fuel IH]; intros n d; [reflexivity|].
  cbn [linkify_loop]. rewrite quoted_tail_turn. apply IH.
Qed.

Lemma quoted_tail_first_turn (limit : nat)
    (again : nat -> elem -> bool -> Z -> lstate -> exit * elem * lstate) :
  loop_turn (H := Mini.html5lib) [reject_all] false true limit again 1
            (fst (parse (H := Mini.html5lib) quoted_tail initial)) true (-1)
            (note_depth 1 (snd (parse (H := Mini.html5lib) quoted_tail initial)))
  = again 1 (fst (parse (H := Mini.html5lib) quoted_tail initial)) true 0%Z
          (state_at 2 1).
Proof. vm_compute. reflexivity. Qed.

(** C4: [linkify] does not return on every input.  On
    [x<b>y</b>"xy"@example.com], with [parse_email] on and a callback that
    rejects the link, whatever the recursion limit that leaves room for
    the first activation of [linkify_nodes], the walk does not end: for
    every amount of fuel the run is unfinished, nothing is raised and
    nothing is returned. *)
Theorem linkify_tail_rescan_does_not_return (limit fuel : nat) :
  result (linkify (H := Mini.html5lib) [reject_all] false true (S limit) fuel
                  quoted_tail)
  = Unfinished.
Proof.
  unfold linkify, force_unicode.
  change (PyStr.truthy quoted_tail) with true. cbn [negb].
  rewrite (surjective_pairing (parse (H := Mini.html5lib) quoted_tail initial)).
  unfold linkify_nodes. change (S limit <? 1) with false. cbn iota.
  pose proof (quoted_tail_loop (S limit)) as Hloop.
  destruct fuel as [|fuel].
  - reflexivity.
  - cbn [linkify_loop]. rewrite quoted_tail_first_turn.
    specialize (Hloop fuel 2 1).
    destruct (linkify_loop _ _ _ _ _ _ _ _ _ _) as [[ex forest'] st'].
    simpl in Hloop. subst ex. reflexivity.
Qed.
(** * Further properties

    Properties of the helpers of [linkify] beyond the ones the
    specification states. *)

(** ** More about [strip_wrapping_parentheses] *)

Lemma strip_loop_closing (opening : nat) (l : str) :
  forall st, fst (fst st) <= opening ->
  fst (fst (fold_left (strip_step opening) l st)) <= opening.
Proof.
  induction l as [|ch l IH]; intros [[closing skip] acc] Hle; [exact Hle|].
  cbn [fold_left]. apply IH. unfold strip_step.
  destruct (Ascii.eqb ch rparen && (closing <? opening) && negb skip) eqn:E;
    [|exact Hle].
  apply andb_prop in E as [E _]. apply andb_prop in E as [_ E].
  apply Nat.ltb_lt in E. simpl. lia.
Qed.

Lemma count_opening_spec (fragment : str) :
  fragment = repeat lparen (count_opening fragment)
               ++ snd (PyStr.span (Ascii.eqb lparen) fragment).
Proof.
  unfold count_opening. rewrite <- span_eqb_repeat. symmetry. apply span_app.
Qed.

Lemma strip_wrapping_parentheses_opening (fragment : str) :
  snd (fst (strip_wrapping_parentheses fragment)) = count_opening fragment.
Proof.
  unfold strip_wrapping_parentheses.
  destruct (0 <? count_opening fragment); [|reflexivity].
  now destruct (fold_left _ _ _) as [[c' s'] a'].
Qed.

(** X1: [strip_wrapping_parentheses] takes every opening parenthesis off
    the start and at most as many closing ones off the end; what was cut
    and what is left make up the fragment, and what is left does not start
    with an opening parenthesis. *)
Theorem strip_wrapping_parentheses_balanced (fragment stripped : str)
    (opening closing : nat) :
  strip_wrapping_parentheses fragment = (stripped, opening, closing) ->
  fragment = repeat lparen opening ++ stripped ++ repeat rparen closing
  /\ closing <= opening
  /\ PyStr.startswith (u "(") stripped = false.
Proof.
  intros Hs.
  pose proof (strip_wrapping_parentheses_spec fragment) as Hsum.
  pose proof (strip_wrapping_parentheses_opening fragment) as Hop.
  rewrite Hs in Hsum, Hop. cbn [fst snd] in Hop.
  split; [now symmetry|]. split.
  - revert Hs. unfold strip_wrapping_parentheses.
    destruct (0 <? count_opening fragment).
    + pose proof (strip_loop_closing (count_opening fragment)
                    (rev (drop (count_opening fragment) fragment))
                    (0, false, []) (Nat.le_0_l _)) as Hle.
      destruct (fold_left _ _ _) as [[c' s'] a']. cbn [fst] in Hle.
      intros [= _ <- <-]. exact Hle.
    + intros [= _ _ <-]. lia.
  - destruct stripped as [|ch stripped]; [reflexivity|].
    pose proof (count_opening_spec fragment) as Hc.
    rewrite <- Hop in Hc. rewrite <- Hsum in Hc at 1.
    apply app_inv_head in Hc. cbn [app] in Hc.
    symmetry in Hc. apply span_snd_head in Hc.
    change (u "(") with [lparen]. cbn [PyStr.startswith]. now rewrite Hc.
Qed.

Lemma strip_wrapping_parentheses_balanced_witness :
  strip_wrapping_parentheses (u "((a(b)c)))") = (u "a(b)c)", 2, 2)
  /\ u "((a(b)c)))" = repeat lparen 2 ++ u "a(b)c)" ++ repeat rparen 2.
Proof.
  split; [reflexivity|].
  apply (strip_wrapping_parentheses_balanced (u "((a(b)c)))") (u "a(b)c)") 2 2).
  reflexivity.
Defined.

(** What the second loop keeps: a closing parenthesis is kept first only
    when every opening one has its match. *)
Lemma strip_loop_first_kept (opening : nat) (l : str) :
  forall st,
    (let '(closing, skip, acc) := st in
     (skip = true -> acc <> [])
     /\ (acc = [] \/ PyStr.startswith (u ")") acc = false
         \/ opening <= closing)) ->
    let '(closing, skip, acc) := fold_left (strip_step opening) l st in
    acc = [] \/ PyStr.startswith (u ")") acc = false \/ opening <= closing.
Proof.
  induction l as [|ch l IH]; intros [[closing skip] acc] [Hsk Hinv];
    [exact Hinv|].
  cbn [fold_left]. apply IH. unfold strip_step.
  destruct (Ascii.eqb ch rparen && (closing <? opening) && negb skip) eqn:E.
  - split; [exact Hsk|]. destruct Hinv as [?|[?|?]]; [auto|auto|right; right; lia].
  - split.
    + intros _. now destruct acc.
    + destruct acc as [|a acc].
      * destruct (Ascii.eqb ch rparen) eqn:Hc.
        -- destruct skip; [now specialize (Hsk eq_refl)|].
           simpl in E. rewrite andb_true_r in E. apply Nat.ltb_ge in E.
           right; right. exact E.
        -- right; left. change (u ")") with [rparen].
           cbn [app PyStr.startswith].
           rewrite Ascii.eqb_sym in Hc. now rewrite Hc.
      * destruct Hinv as [?|[?|?]]; [easy| |auto]. right; left. exact H.
Qed.

(** X2: when fewer closing parentheses were cut than opening ones, there
    was no further one to cut: what is left does not end with a closing
    parenthesis. *)
Theorem strip_wrapping_parentheses_maximal (fragment stripped : str)
    (opening closing : nat) :
  strip_wrapping_parentheses fragment = (stripped, opening, closing) ->
  closing < opening ->
  PyStr.endswith (u ")") stripped = false.
Proof.
  unfold strip_wrapping_parentheses.
  destruct (0 <? count_opening fragment) eqn:E0.
  - assert (Hk := strip_loop_first_kept (count_opening fragment)
                  (rev (drop (count_opening fragment) fragment))
                  (0, false, [])
                  (conj (fun H : false = true => False_ind _ (diff_false_true H))
                        (or_introl eq_refl))).
    destruct (fold_left _ _ _) as [[c' s'] a'].
    intros [= <- <- <-] Hlt. unfold PyStr.endswith. rewrite rev_involutive.
    destruct Hk as [->|[?|?]]; [reflexivity|assumption|lia].
  - intros [= _ <- <-] Hlt. apply Nat.ltb_ge in E0. lia.
Qed.

Lemma strip_wrapping_parentheses_maximal_witness :
  strip_wrapping_parentheses (u "((a)") = (u "a", 2, 1)
  /\ PyStr.endswith (u ")") (u "a") = false.
Proof.
  split; [reflexivity|].
  apply (strip_wrapping_parentheses_maximal (u "((a)") (u "a") 2 1);
    [reflexivity|lia].
Defined.

(** ** The callback chain *)

(** X3: a chain of callbacks that is two chains one after the other gives
    what the second chain gives on the result of the first, and rejects
    when the first rejects. *)
Theorem apply_callbacks_app (cbs1 cbs2 : list callback) (a : attrs) (new : bool) :
  apply_callbacks (cbs1 ++ cbs2) a new
  = match apply_callbacks cbs1 a new with
    | Some a' => apply_callbacks cbs2 a' new
    | None => None
    end.
Proof.
  revert a. induction cbs1 as [|cb cbs1 IH]; intros a; [reflexivity|].
  cbn [app apply_callbacks]. destruct (cb a new); [apply IH|reflexivity].
Qed.

Lemma rstrip_no_end (c : ascii) (s : str) :
  PyStr.endswith [c] (PyStr.rstrip c s) = false.
Proof.
  unfold PyStr.endswith, PyStr.rstrip. rewrite rev_involutive.
  destruct (snd (PyStr.span (Ascii.eqb c) (rev s))) as [|h t] eqn:E;
    [reflexivity|].
  apply span_snd_head in E. cbn [rev app PyStr.startswith]. now rewrite E.
Qed.

(** X4: after lines 503-512 of [link_repl], a URL without an opening
    parenthesis inside does not end with a closing one. *)
Theorem unwrap_parentheses_no_dangling (m url : str) (o c : nat) :
  unwrap_parentheses m = (url, o, c) ->
  PyStr.contains lparen url = false ->
  PyStr.endswith (u ")") url = false.
Proof.
  unfold unwrap_parentheses.
  destruct (if PyStr.startswith (u "(") m then _ else _) as [[url0 o0] c0].
  destruct (PyStr.endswith (u ")") url0 && negb (PyStr.contains lparen url0))
    eqn:E.
  - intros [= <- _ _] _. apply rstrip_no_end.
  - intros [= <- _ _] Hc. rewrite Hc in E. now rewrite andb_true_r in E.
Qed.

Lemma unwrap_parentheses_no_dangling_witness :
  unwrap_parentheses (u "example.com/x))") = (u "example.com/x", 0, 2)
  /\ PyStr.endswith (u ")") (u "example.com/x") = false.
Proof.
  split; [reflexivity|].
  apply (unwrap_parentheses_no_dangling (u "example.com/x))") _ 0 2);
    reflexivity.
Defined.

(** ** The errors of [link_repl] and [email_repl] *)

Lemma pop_two (k1 k2 : str) (link : attrs) (f : str -> str -> attrs -> str) :
  k1 <> k2 ->
  forall e,
  res_bind (Dict.pop k1 link) (fun '(v1, link1) =>
    res_bind (Dict.pop k2 link1) (fun '(v2, link2) => Ok (f v1 v2 link2)))
  = Raise e
  <-> e = KeyError /\ (Dict.get k1 link = None \/ Dict.get k2 link = None).
Proof.
  intros Hne e. unfold Dict.pop.
  destruct (Dict.get k1 link) as [v1|] eqn:E1; cbn [res_bind].
  - rewrite (get_remove_ne k2 k1) by congruence.
    destruct (Dict.get k2 link) as [v2|] eqn:E2; cbn [res_bind].
    + split; [discriminate|]. intros [_ [?|?]]; discriminate.
    + split; [intros [= <-]; auto|]. now intros [-> _].
  - split; [intros [= <-]; auto|]. now intros [-> _].
Qed.

(** X7: [link_repl] raises exactly when the callbacks accept the link and
    hand back a mapping without [_text] or without [href]; the exception
    is [KeyError]. *)
Theorem link_repl_raises (callbacks : list callback) (m url0 url end_ : str)
    (open_brackets close_brackets : nat) (e : exn) :
  unwrap_parentheses m = (url0, open_brackets, close_brackets) ->
  strip_punct url0 = (url, end_) ->
  (link_repl callbacks m = Raise e
   <-> e = KeyError
       /\ exists link,
           apply_callbacks callbacks (new_link url) true = Some link
           /\ (Dict.get (u "_text") link = None
               \/ Dict.get (u "href") link = None)).
Proof.
  intros Hu Hp. unfold link_repl. rewrite Hu, Hp.
  destruct (apply_callbacks callbacks (new_link url) true) as [link|].
  - rewrite (pop_two (u "_text") (u "href") link
               (fun t h l => PyStr.times lparen open_brackets ++ anchor h l t
                               ++ end_ ++ PyStr.times rparen close_brackets))
      by discriminate.
    split.
    + intros [-> Hk]. split; [reflexivity|]. now exists link.
    + intros [-> (link' & [= <-] & Hk)]. now split.
  - split; [discriminate|]. now intros [_ (link' & Habs & _)].
Qed.

Lemma link_repl_raises_witness :
  link_repl [fun a _ => Some (Dict.remove (u "_text") a)] (u "example.com")
  = Raise KeyError.
Proof.
  apply (link_repl_raises _ (u "example.com") (u "example.com")
           (u "example.com") [] 0 0 KeyError); [reflexivity|reflexivity|].
  split; [reflexivity|]. eexists. split; [reflexivity|]. left. reflexivity.
Defined.

(** X8: [email_repl] raises exactly when the callbacks accept the link and
    hand back a mapping without [href] or without [_text]; the exception
    is [KeyError]. *)
Theorem email_repl_raises (callbacks : list callback) (m : str) (e : exn) :
  email_repl callbacks m = Raise e
  <-> e = KeyError
      /\ exists link,
          apply_callbacks callbacks (new_email_link (email_addr m)) true
          = Some link
          /\ (Dict.get (u "href") link = None
              \/ Dict.get (u "_text") link = None).
Proof.
  unfold email_repl.
  destruct (apply_callbacks callbacks (new_email_link (email_addr m)) true)
    as [link|].
  - rewrite (pop_two (u "href") (u "_text") link (fun h t l => anchor h l t))
      by discriminate.
    split.
    + intros [-> Hk]. split; [reflexivity|]. now exists link.
    + intros [-> (link' & [= <-] & Hk)]. now split.
  - split; [discriminate|]. now intros [_ (link' & Habs & _)].
Qed.

Lemma replace_absent (c : ascii) (t s : str) :
  ~ In c s -> PyStr.replace c t s = s.
Proof.
  unfold PyStr.replace. induction s as [|x s IH]; intros Hn; [reflexivity|].
  cbn [flat_map]. destruct (Ascii.eqb x c) eqn:E.
  - apply Ascii.eqb_eq in E. subst x. exfalso. apply Hn. now left.
  - cbn [app]. f_equal. apply IH. intros Hin. apply Hn. now right.
Qed.

(** X9: when the callbacks reject an address, [email_repl] puts the
    address back with every double quote written as [&quot;], and so
    unchanged when it has no double quote. *)
Theorem email_repl_rejected (callbacks : list callback) (m : str) :
  apply_callbacks callbacks (new_email_link (email_addr m)) true = None ->
  email_repl callbacks m = Ok (PyStr.replace dquote (u "&quot;") m)
  /\ (~ In dquote m -> email_repl callbacks m = Ok m).
Proof.
  intros Hr. unfold email_repl. rewrite Hr. split; [reflexivity|].
  intros Hn. unfold email_addr. now rewrite replace_absent.
Qed.

Lemma email_repl_raises_witness :
  email_repl [fun a _ => Some (Dict.remove (u "href") a)] (u "me@example.com")
  = Raise KeyError.
Proof.
  apply (email_repl_raises _ (u "me@example.com") KeyError).
  split; [reflexivity|]. eexists. split; [reflexivity|]. left. reflexivity.
Defined.

Lemma email_repl_rejected_witness :
  email_repl [reject_all] (u "me@example.com") = Ok (u "me@example.com").
Proof.
  apply (email_repl_rejected [reject_all] (u "me@example.com")); [reflexivity|].
  vm_compute. intros H. repeat (destruct H as [H|H]; [discriminate H|]).
  exact H.
Defined.

(** ** Character classes *)

(** A property of characters that holds for the 256 of them holds for
    every one. *)
Lemma forall_ascii (f : ascii -> bool) :
  forallb f (map ascii_of_nat (seq 0 256)) = true -> forall c, f c = true.
Proof.
  intros H c. rewrite List.forallb_forall in H. apply H.
  apply List.in_map_iff. exists (nat_of_ascii c).
  split; [apply ascii_nat_embedding|].
  apply List.in_seq. pose proof (nat_ascii_bounded c). lia.
Qed.

Lemma span_stop (f : ascii -> bool) (w : str) (c : ascii) (r : str) :
  Forall (fun x => f x = true) w -> f c = false ->
  PyStr.span f (w ++ c :: r) = (w, c :: r).
Proof.
  intros Hw Hc. induction Hw as [|x w Hx _ IH]; cbn [app PyStr.span].
  - now rewrite Hc.
  - now rewrite Hx, IH.
Qed.

(** ** [proto_re] and the default [href] *)

Lemma wd_not_colon (c : ascii) :
  wd c = true ->
  Ascii.eqb (PyStr.lower_char c) (PyStr.lower_char ":"%char) = false.
Proof.
  pose proof (forall_ascii
    (fun c => implb (wd c)
                (negb (Ascii.eqb (PyStr.lower_char c)
                                 (PyStr.lower_char ":"%char))))) as H.
  specialize (H ltac:(vm_compute; reflexivity) c). cbv beta in H.
  intros Hw. rewrite Hw in H. now apply negb_true_iff in H.
Qed.

Lemma colon_ci (c : ascii) :
  Ascii.eqb (PyStr.lower_char c) (PyStr.lower_char ":"%char) = true ->
  c = ":"%char.
Proof.
  pose proof (forall_ascii
    (fun c => implb (Ascii.eqb (PyStr.lower_char c)
                               (PyStr.lower_char ":"%char))
                (Ascii.eqb c ":"%char))) as H.
  specialize (H ltac:(vm_compute; reflexivity) c). cbv beta in H.
  intros Hc. rewrite Hc in H. now apply Ascii.eqb_eq in H.
Qed.

(** An optional repetition, before something that always matches, always
    matches. *)
Lemma rep_from_zero (a : Re.regex) (hi : nat) (k : str -> str -> option str) :
  (forall prev rest, k prev rest <> None) ->
  forall prev rest, Re.rmatch (Re.Rep a 0 hi) prev rest k <> None.
Proof.
  intros Hk. cbn [Re.rmatch].
  induction hi as [|hi IH]; intros prev rest; [apply Hk|].
  cbn [pred]. destruct (Re.rmatch a prev rest _); [discriminate|apply Hk].
Qed.

Lemma lit_colon_step (r : Re.regex) (prev rest : str)
    (k : str -> str -> option str) :
  Re.rmatch (Re.Seq (Re.lit (u ":")) r) prev rest k
  = match rest with
    | d :: rest' =>
        if Ascii.eqb (PyStr.lower_char d) (PyStr.lower_char ":"%char)
        then Re.rmatch r (d :: prev) rest' k
        else None
    | [] => None
    end.
Proof. reflexivity. Qed.

Lemma proto_match_start (rest : str) :
  Re.match_here proto_re [] rest <> None
  <-> PyStr.truthy (fst (PyStr.span wd rest))
      && PyStr.startswith (u ":") (snd (PyStr.span wd rest)) = true.
Proof.
  unfold Re.match_here.
  set (k0 := fun (_ : str) (rest' : str) => Some rest').
  change (Re.rmatch proto_re [] rest k0)
    with (match rest with
          | c :: r =>
              if wd c
              then Re.rmatch (Re.Star (Re.Chr wd)) [c] r
                     (fun prev' rest' =>
                        Re.rmatch (Re.Seq (Re.lit (u ":"))
                                          (Re.Rep (Re.chr_ci "/") 0 3))
                                  prev' rest' k0)
              else None
          | [] => None
          end).
  destruct rest as [|c r]; [easy|]. cbn [PyStr.span].
  destruct (wd c) eqn:Ec; [|easy].
  rewrite star_chr_greedy.
  2: { intros prev' c' r' Hc'. rewrite lit_colon_step.
       now rewrite wd_not_colon. }
  destruct (PyStr.span wd r) as [run rest'] eqn:Es. cbn [fst snd PyStr.truthy andb].
  rewrite lit_colon_step. change (u ":") with [":"%char].
  destruct rest' as [|d r']; [easy|]. cbn [PyStr.startswith].
  destruct (Ascii.eqb (PyStr.lower_char d) (PyStr.lower_char ":"%char)) eqn:Ed.
  - apply colon_ci in Ed. subst d.
    split; [reflexivity|]. intros _.
    pose proof (rep_from_zero (Re.chr_ci "/") 3 k0
                  ltac:(intros; discriminate) (":"%char :: rev run ++ [c]) r')
      as Hrep.
    destruct (Re.rmatch (Re.Rep (Re.chr_ci "/") 0 3) _ _ k0);
      [discriminate|contradiction].
  - split; [easy|]. intros H. apply andb_prop in H as [H _].
    apply Ascii.eqb_eq in H. subst d. discriminate Ed.
Qed.

Lemma proto_not_inside (rest : str) :
  forall at_ prev, prev <> [] -> Re.search_from proto_re at_ prev rest = None.
Proof.
  induction rest as [|c rest IH]; intros at_ prev Hp;
    (destruct prev as [|p prev]; [contradiction|]); cbn [Re.search_from].
  - reflexivity.
  - change (Re.match_here proto_re (p :: prev) (c :: rest)) with (@None nat).
    now apply IH.
Qed.

Lemma proto_search_start (url : str) :
  Re.search proto_re url <> None <-> Re.match_here proto_re [] url <> None.
Proof.
  unfold Re.search. destruct url as [|c url]; cbn [Re.search_from].
  - destruct (Re.match_here proto_re [] []); easy.
  - destruct (Re.match_here proto_re [] (c :: url)); [easy|].
    now rewrite proto_not_inside.
Qed.

(** [proto_re] has a match in a text when the text starts with one or more
    characters of [[\w-]] and a colon. *)
Lemma proto_re_search_iff (url : str) :
  Re.search proto_re url <> None
  <-> exists w rest,
      url = w ++ u ":" ++ rest /\ w <> []
      /\ Forall (fun c => PyStr.is_word c || Ascii.eqb c "-"%char = true) w.
Proof.
  rewrite proto_search_start, proto_match_start. split.
  - intros H. apply andb_prop in H as [Hw Hc].
    pose proof (span_app wd url) as Happ.
    pose proof (span_fst_all wd url) as Hall.
    destruct (PyStr.span wd url) as [w r]. cbn [fst snd] in *.
    destruct r as [|d r]; [discriminate Hc|].
    change (u ":") with [":"%char] in Hc. cbn [PyStr.startswith] in Hc.
    apply andb_prop in Hc as [Hd _]. apply Ascii.eqb_eq in Hd. subst d.
    exists w, r. split; [now symmetry|]. split; [now destruct w|exact Hall].
  - intros (w & rest & -> & Hne & Hall).
    change (u ":" ++ rest) with (":"%char :: rest).
    rewrite (span_stop wd w ":"%char rest Hall eq_refl). cbn [fst snd].
    destruct w; [contradiction|reflexivity].
Qed.

(** X5: the [href] of a candidate link is the URL itself when the URL
    starts with one or more characters of [[\w-]] and a colon, and the URL
    after [http://] otherwise. *)
Theorem default_href_spec (url : str) :
  ((exists w rest,
       url = w ++ u ":" ++ rest /\ w <> []
       /\ Forall (fun c => PyStr.is_word c || Ascii.eqb c "-"%char = true) w) ->
   default_href url = url)
  /\ (~ (exists w rest,
          url = w ++ u ":" ++ rest /\ w <> []
          /\ Forall (fun c => PyStr.is_word c || Ascii.eqb c "-"%char = true)
                    w) ->
      default_href url = u "http://" ++ url).
Proof.
  unfold default_href. split; intros Hs.
  - apply proto_re_search_iff in Hs.
    destruct (Re.search proto_re url); [reflexivity|contradiction].
  - rewrite <- proto_re_search_iff in Hs.
    destruct (Re.search proto_re url); [|reflexivity].
    exfalso. apply Hs. discriminate.
Qed.

Lemma default_href_spec_witness :
  default_href (u "ftp://example.com") = u "ftp://example.com"
  /\ default_href (u "example.com:80") = u "http://example.com:80".
Proof.
  split.
  - apply (default_href_spec (u "ftp://example.com")).
    exists (u "ftp"), (u "//example.com").
    split; [reflexivity|]. split; [discriminate|]. repeat constructor.
  - apply (default_href_spec (u "example.com:80")).
    intros Hs. apply proto_re_search_iff in Hs. apply Hs.
    vm_compute. reflexivity.
Defined.

(** X6: the [href] of a candidate link always starts with a scheme as
    [proto_re] reads it, so making the [href] of an [href] changes
    nothing. *)
Theorem default_href_has_scheme (url : str) :
  Re.search proto_re (default_href url) <> None
  /\ default_href (default_href url) = default_href url.
Proof.
  assert (H : Re.search proto_re (default_href url) <> None).
  { unfold default_href.
    destruct (Re.search proto_re url) eqn:E; [now rewrite E|].
    apply proto_re_search_iff. exists (u "http"), (u "//" ++ url).
    split; [reflexivity|]. split; [discriminate|]. repeat constructor. }
  split; [exact H|].
  unfold default_href at 1.
  destruct (Re.search proto_re (default_href url)); [reflexivity|contradiction].
Qed.

(** ** What a match is made of *)

Section match_chars.
Variable P : ascii -> Prop.

Lemma rmatch_chars (r : Re.regex) :
  chars_in P r ->
  forall prev rest k x,
    Re.rmatch r prev rest k = Some x ->
    exists mid rest',
      rest = mid ++ rest' /\ Forall P mid /\ k (rev mid ++ prev) rest' = Some x.
Proof.
  induction r as [|p|a IHa b IHb|a IHa b IHb|a IHa|a IHa lo hi|ps|a IHa| | | |];
    intros Hr prev rest k x Hm; cbn [Re.rmatch chars_in] in *.
  - now exists [], rest.
  - destruct rest as [|c rest]; [discriminate Hm|].
    destruct (p c) eqn:Ec; [|discriminate Hm].
    exists [c], rest. split; [reflexivity|]. split; [|exact Hm].
    constructor; [now apply Hr|constructor].
  - destruct Hr as [Ha Hb].
    apply (IHa Ha) in Hm as (m1 & r1 & -> & H1 & Hm).
    apply (IHb Hb) in Hm as (m2 & r2 & -> & H2 & Hm).
    exists (m1 ++ m2), r2. split; [now rewrite app_assoc|].
    split; [now apply Forall_app|].
    now rewrite rev_app_distr, <- app_assoc.
  - destruct Hr as [Ha Hb].
    destruct (Re.rmatch a prev rest k) eqn:Ea.
    + injection Hm as ->. now apply (IHa Ha) in Ea.
    + now apply (IHb Hb) in Hm.
  - revert Hm. generalize (length rest) as n. intros n. revert prev rest.
    induction n as [|n IHn]; intros prev rest Hm.
    + now exists [], rest.
    + destruct (Re.rmatch a prev rest _) eqn:Ea.
      * injection Hm as ->.
        apply (IHa Hr) in Ea as (m1 & r1 & -> & H1 & Hm).
        destruct (length r1 <? length (m1 ++ r1)); [|discriminate Hm].
        apply IHn in Hm as (m2 & r2 & -> & H2 & Hm).
        exists (m1 ++ m2), r2. split; [now rewrite app_assoc|].
        split; [now apply Forall_app|].
        now rewrite rev_app_distr, <- app_assoc.
      * now exists [], rest.
  - revert lo prev rest Hm.
    induction hi as [|hi IHn]; intros lo prev rest Hm.
    + now exists [], rest.
    + destruct (Re.rmatch a prev rest _) eqn:Ea.
      * injection Hm as ->.
        apply (IHa Hr) in Ea as (m1 & r1 & -> & H1 & Hm).
        apply IHn in Hm as (m2 & r2 & -> & H2 & Hm).
        exists (m1 ++ m2), r2. split; [now rewrite app_assoc|].
        split; [now apply Forall_app|].
        now rewrite rev_app_distr, <- app_assoc.
      * destruct lo; [|discriminate Hm]. now exists [], rest.
  - destruct (Re.behind ps prev); [discriminate Hm|]. now exists [], rest.
  - destruct (Re.rmatch a prev rest _); [discriminate Hm|]. now exists [], rest.
  - destruct (xorb _ _); [|discriminate Hm]. now exists [], rest.
  - destruct prev as [|c prev]; [now exists [], rest|].
    destruct (Ascii.eqb c LF); [|discriminate Hm]. now exists [], rest.
  - destruct prev as [|c prev]; [|discriminate Hm]. now exists [], rest.
  - destruct (Re.at_eol rest); [|discriminate Hm]. now exists [], rest.
Qed.

Lemma match_here_chars (r : Re.regex) (prev rest : str) (n : nat) :
  chars_in P r -> Re.match_here r prev rest = Some n ->
  n <= length rest /\ Forall P (take n rest).
Proof.
  intros Hr. unfold Re.match_here.
  destruct (Re.rmatch r prev rest _) as [x|] eqn:Em; [|discriminate].
  intros [= <-].
  apply (rmatch_chars r Hr) in Em as (mid & rest' & -> & Hmid & [= <-]).
  rewrite length_app.
  replace (length mid + length rest' - length rest') with (length mid) by lia.
  split; [lia|]. now rewrite take_app_length.
Qed.

Lemma chars_in_cat (l : list Re.regex) :
  Forall (chars_in P) l -> chars_in P (cat l).
Proof.
  induction 1 as [|r l Hr Hl IH]; [exact I|].
  destruct l as [|r' l]; [exact Hr|]. now split.
Qed.

Lemma chars_in_lit (s : str) :
  Forall (fun c => forall x, Ascii.eqb (PyStr.lower_char x) (PyStr.lower_char c)
                             = true -> P x) s ->
  chars_in P (Re.lit s).
Proof. induction 1 as [|c s Hc Hs IH]; [exact I|]. now split. Qed.

Lemma chars_in_alts (l : list str) :
  Forall (fun s => chars_in P (Re.lit s)) l -> chars_in P (Re.alts l).
Proof.
  induction 1 as [|s l Hs Hl IH]; [exact I|].
  destruct l as [|s' l]; [exact Hs|]. now split.
Qed.

End match_chars.

(** The matches [finditer] lists are matches of the pattern where they
    start. *)
Lemma scan_spec (r : Re.regex) (fuel : nat) :
  forall at_ prev rest b e,
    In (b, e) (Re.scan fuel r at_ prev rest) ->
    exists pre post n,
      rest = pre ++ post /\ b = at_ + length pre /\ e = b + n
      /\ Re.match_here r (rev pre ++ prev) post = Some n.
Proof.
  induction fuel as [|fuel IH]; intros at_ prev rest b e Hin; [destruct Hin|].
  cbn [Re.scan] in Hin.
  assert (Hskip : forall c rest', rest = c :: rest' ->
            In (b, e) (Re.scan fuel r (S at_) (c :: prev) rest') ->
            exists pre post n,
              rest = pre ++ post /\ b = at_ + length pre /\ e = b + n
              /\ Re.match_here r (rev pre ++ prev) post = Some n).
  { intros c rest' -> H.
    apply IH in H as (pre & post & n & -> & -> & -> & Hm).
    exists (c :: pre), post, n. cbn [length rev app].
    rewrite <- app_assoc. repeat split; try lia. exact Hm. }
  destruct (Re.match_here r prev rest) as [[|n]|] eqn:Em.
  - destruct rest as [|c rest']; [destruct Hin|]. now apply (Hskip c rest').
  - destruct Hin as [[= <- <-]|Hin].
    + exists [], rest, (S n). repeat split; try (cbn; lia). exact Em.
    + apply IH in Hin as (pre & post & m & Hd & -> & -> & Hm).
      exists (take (S n) rest ++ pre), post, m.
      rewrite <- app_assoc, <- Hd, take_drop, rev_app_distr, <- app_assoc.
      assert (Hlen : S n <= length rest).
      { unfold Re.match_here in Em. destruct (Re.rmatch r prev rest _);
          [|discriminate]. injection Em as Em. lia. }
      rewrite length_app, length_take. repeat split; try lia. exact Hm.
  - destruct rest as [|c rest']; [destruct Hin|]. now apply (Hskip c rest').
Qed.

Lemma finditer_spec (r : Re.regex) (s : str) (b e : nat) :
  In (b, e) (Re.finditer r s) ->
  b <= e /\ b <= length s
  /\ Re.match_here r (rev (take b s)) (drop b s) = Some (e - b).
Proof.
  intros Hin. apply scan_spec in Hin as (pre & post & n & -> & -> & -> & Hm).
  cbn [plus]. rewrite take_app_length, drop_app_length, app_nil_r in *.
  rewrite length_app.
  repeat split; [lia|lia|]. now replace (length pre + n - length pre) with n by lia.
Qed.

(** ** The characters of a match of [url_re] *)

Lemma word_safe (c : ascii) : PyStr.is_word c = true -> safe_char c.
Proof.
  pose proof (forall_ascii (fun c => implb (PyStr.is_word c) (path_char c))) as H.
  specialize (H ltac:(vm_compute; reflexivity) c). cbv beta in H.
  intros Hw. rewrite Hw in H. exact H.
Qed.

Lemma lower_word (c : ascii) :
  PyStr.is_word (PyStr.lower_char c) = PyStr.is_word c.
Proof.
  pose proof (forall_ascii
    (fun c => Bool.eqb (PyStr.is_word (PyStr.lower_char c)) (PyStr.is_word c)))
    as H.
  specialize (H ltac:(vm_compute; reflexivity) c). now apply eqb_prop in H.
Qed.

Lemma ci_word_safe (c x : ascii) :
  PyStr.is_word c = true ->
  Ascii.eqb (PyStr.lower_char x) (PyStr.lower_char c) = true -> safe_char x.
Proof.
  intros Hc Hx. apply Ascii.eqb_eq in Hx. apply word_safe.
  now rewrite <- lower_word, Hx, lower_word.
Qed.

Lemma ci_punct_safe (c x : ascii) :
  one_of "(:/@." c = true ->
  Ascii.eqb (PyStr.lower_char x) (PyStr.lower_char c) = true -> safe_char x.
Proof.
  intros Hc Hx.
  assert (Hxc : x = c).
  { pose proof (forall_ascii
      (fun c => implb (one_of "(:/@." c) (Ascii.eqb (PyStr.lower_char c) c)))
      as H1.
    specialize (H1 ltac:(vm_compute; reflexivity) c). cbv beta in H1.
    rewrite Hc in H1. apply Ascii.eqb_eq in H1. rewrite H1 in Hx.
    pose proof (forall_ascii
      (fun x => implb (one_of "(:/@." (PyStr.lower_char x))
                      (Ascii.eqb (PyStr.lower_char x) x))) as H2.
    specialize (H2 ltac:(vm_compute; reflexivity) x). cbv beta in H2.
    apply Ascii.eqb_eq in Hx. rewrite Hx, Hc in H2.
    apply Ascii.eqb_eq in H2. congruence. }
  subst x.
  pose proof (forall_ascii (fun c => implb (one_of "(:/@." c) (path_char c))) as H.
  specialize (H ltac:(vm_compute; reflexivity) c). cbv beta in H.
  rewrite Hc in H. exact H.
Qed.

Lemma lit_word_safe (s : str) :
  Forall (fun c => PyStr.is_word c = true) s -> chars_in safe_char (Re.lit s).
Proof.
  intros Hs. apply chars_in_lit. eapply Forall_impl; [exact Hs|].
  intros c Hc x. now apply ci_word_safe.
Qed.

Lemma TLDS_words : Forall (Forall (fun c => PyStr.is_word c = true)) TLDS.
Proof.
  apply List.Forall_forall. intros t Ht. apply List.Forall_forall. intros c Hc.
  assert (H : forallb (forallb PyStr.is_word) TLDS = true)
    by (vm_compute; reflexivity).
  rewrite List.forallb_forall in H. specialize (H t Ht).
  rewrite List.forallb_forall in H. now apply H.
Qed.

Lemma url_re_chars `{Html5lib} :
  Forall (Forall (fun c => PyStr.is_word c = true)) allowed_protocols ->
  chars_in safe_char url_re.
Proof.
  intros protocols_words.
  assert (Hlit : forall c, one_of "(:/@." c = true ->
                           chars_in safe_char (Re.chr_ci c)).
  { intros c Hc x. now apply ci_punct_safe. }
  assert (Hwd : chars_in safe_char word) by (intros c; apply word_safe).
  assert (Hwdd : chars_in safe_char word_or_dash).
  { intros c Hc. pose proof (forall_ascii
      (fun c => implb (PyStr.is_word c || Ascii.eqb c "-"%char) (path_char c)))
      as Hf.
    specialize (Hf ltac:(vm_compute; reflexivity) c). cbv beta in Hf.
    rewrite Hc in Hf. exact Hf. }
  assert (Hprot : chars_in safe_char (Re.alts allowed_protocols)).
  { apply chars_in_alts. eapply Forall_impl; [exact protocols_words|].
    intros s. apply lit_word_safe. }
  assert (Htld : chars_in safe_char (Re.alts TLDS)).
  { apply chars_in_alts. eapply Forall_impl; [exact TLDS_words|].
    intros s. apply lit_word_safe. }
  assert (Hdig : chars_in safe_char (Re.Chr PyStr.is_digit)).
  { intros c Hc. apply word_safe. unfold PyStr.is_word. now rewrite Hc. }
  assert (Hq : chars_in safe_char (Re.Chr (one_of "/?"))).
  { intros c Hc. pose proof (forall_ascii
      (fun c => implb (one_of "/?" c) (path_char c))) as Hf.
    specialize (Hf ltac:(vm_compute; reflexivity) c). cbv beta in Hf.
    rewrite Hc in Hf. exact Hf. }
  assert (Hpath : chars_in safe_char (Re.Chr path_char)) by (intros c Hc; exact Hc).
  unfold url_re.
  repeat (first [ exact I | assumption
                | apply Hlit; reflexivity
                | split
                | apply chars_in_cat
                | apply List.Forall_cons | apply List.Forall_nil ]).
Qed.

(** X10: when the scheme names of html5lib are made of letters, digits
    and [_], every match of [url_re] in a text, which is what [re.sub]
    hands to [link_repl], is made of characters a path can go on with: it
    has no white space, brace, bar, backslash, caret, bracket, backquote,
    angle bracket or double quote. *)
Theorem url_re_match_chars `{Html5lib} (s : str) (b e : nat) :
  Forall (Forall (fun c => PyStr.is_word c = true)) allowed_protocols ->
  In (b, e) (Re.finditer url_re s) ->
  Forall (fun c => path_char c = true) (take (e - b) (drop b s)).
Proof.
  intros Hp Hin. apply finditer_spec in Hin as (_ & _ & Hm).
  now apply (match_here_chars safe_char url_re _ _ _ (url_re_chars Hp)) in Hm.
Qed.

Lemma url_re_match_chars_witness :
  In (4, 21) (Re.finditer (url_re (H := Mini.html5lib))
                          (u "see example.com/a?b=c now"))
  /\ Forall (fun c => path_char c = true) (u "example.com/a?b=c").
Proof.
  assert (Hin : In (4, 21) (Re.finditer (url_re (H := Mini.html5lib))
                              (u "see example.com/a?b=c now")))
    by (vm_compute; left; reflexivity).
  split; [exact Hin|].
  apply (url_re_match_chars (H := Mini.html5lib)
           (u "see example.com/a?b=c now") 4 21); [|exact Hin].
  repeat constructor.
Defined.

(** ** [link_repl] on the matches of [url_re] *)

(** X18: for every match of [url_re] in a text, the pieces [link_repl]
    cuts it into (opening parentheses, URL, trailing punctuation, closing
    parentheses) make up the match in this order, and the match has no
    line feed. *)
Theorem link_repl_pieces_of_match `{Html5lib} (s url0 url end_ : str)
    (b e open_brackets close_brackets : nat) :
  Forall (Forall (fun c => PyStr.is_word c = true)) allowed_protocols ->
  In (b, e) (Re.finditer url_re s) ->
  unwrap_parentheses (take (e - b) (drop b s))
  = (url0, open_brackets, close_brackets) ->
  strip_punct url0 = (url, end_) ->
  repeat lparen open_brackets ++ url ++ end_ ++ repeat rparen close_brackets
  = take (e - b) (drop b s)
  /\ ~ In LF (take (e - b) (drop b s)).
Proof.
  intros Hp Hin Hu Hs. apply finditer_spec in Hin as (_ & _ & Hm).
  apply (match_here_chars safe_char url_re _ _ _ (url_re_chars Hp)) in Hm
    as [_ Hall].
  set (m := take (e - b) (drop b s)) in *.
  assert (HLF : ~ In LF m).
  { intros Hin. rewrite List.Forall_forall in Hall. now apply Hall in Hin. }
  split; [|exact HLF].
  pose proof (unwrap_parentheses_spec m) as Hsum. rewrite Hu in Hsum.
  assert (HLF0 : ~ In LF url0).
  { intros Hin. apply HLF. rewrite <- Hsum.
    apply in_or_app. right. apply in_or_app. now left. }
  destruct (strip_punct_spec url0 HLF0) as [Hsplit _].
  rewrite Hs in Hsplit. cbn [fst snd] in Hsplit.
  rewrite <- Hsum, <- Hsplit. now rewrite <- app_assoc.
Qed.

Lemma link_repl_pieces_of_match_witness :
  In (4, 20) (Re.finditer (url_re (H := Mini.html5lib))
                          (u "see (example.com/a.) now"))
  /\ repeat lparen 1 ++ u "example.com/a" ++ u "." ++ repeat rparen 1
     = u "(example.com/a.)".
Proof.
  assert (Hin : In (4, 20) (Re.finditer (url_re (H := Mini.html5lib))
                              (u "see (example.com/a.) now")))
    by (vm_compute; auto).
  split; [exact Hin|].
  apply (link_repl_pieces_of_match (H := Mini.html5lib)
           (u "see (example.com/a.) now") (u "example.com/a.")
           (u "example.com/a") (u ".") 4 20 1 1);
    [repeat constructor|exact Hin| |]; vm_compute; reflexivity.
Defined.

(** ** Where a match can start *)

Lemma star_chr_stop (p : ascii -> bool) (prev : str) (d : ascii) (rest : str)
    (k : str -> str -> option str) :
  p d = false ->
  Re.rmatch (Re.Star (Re.Chr p)) prev (d :: rest) k = k prev (d :: rest).
Proof. intros Hd. cbn [Re.rmatch length]. now rewrite Hd. Qed.

Lemma not_behind_start (ps : list (ascii -> bool)) (r : Re.regex)
    (prev rest : str) (k : str -> str -> option str) (x : str) :
  Re.rmatch (Re.Seq (Re.NotBehind ps) r) prev rest k = Some x ->
  Re.behind ps prev = false.
Proof. cbn [Re.rmatch]. now destruct (Re.behind ps prev). Qed.

Lemma lparen_ci (d : ascii) :
  d <> lparen ->
  Ascii.eqb (PyStr.lower_char d) (PyStr.lower_char lparen) = false.
Proof.
  pose proof (forall_ascii
    (fun d => implb (Ascii.eqb (PyStr.lower_char d) (PyStr.lower_char lparen))
                (Ascii.eqb d lparen))) as H.
  specialize (H ltac:(vm_compute; reflexivity) d). cbv beta in H.
  intros Hd. destruct (Ascii.eqb (PyStr.lower_char d) _); [|reflexivity].
  apply Ascii.eqb_eq in H. contradiction.
Qed.

(** X11: a match of [url_re] that does not begin with an opening
    parenthesis does not start right after [@] or [.]: the domain of an
    address is not taken for a URL. *)
Theorem url_re_not_after_at `{Html5lib} (pre post : str) (c d : ascii)
    (b e : nat) :
  In (b, e) (Re.finditer url_re (pre ++ c :: d :: post)) ->
  b = S (length pre) -> d <> lparen ->
  c <> "@"%char /\ c <> "."%char.
Proof.
  intros Hin -> Hd. apply finditer_spec in Hin as (_ & _ & Hm).
  replace (pre ++ c :: d :: post) with ((pre ++ [c]) ++ d :: post) in Hm
    by now rewrite <- app_assoc.
  replace (S (length pre)) with (length (pre ++ [c])) in Hm
    by (rewrite length_app; simpl; lia).
  rewrite take_app_length, drop_app_length, rev_app_distr in Hm.
  cbn [rev app] in Hm. unfold Re.match_here in Hm.
  destruct (Re.rmatch url_re _ _ _) as [x|] eqn:Em; [|discriminate Hm].
  clear Hm. unfold url_re in Em. cbn [cat] in Em.
  change (Re.rmatch (Re.Seq ?a ?r) ?p ?s ?k)
    with (Re.rmatch a p s (fun p' s' => Re.rmatch r p' s' k)) in Em.
  unfold Re.chr_ci in Em at 1.
  rewrite star_chr_stop in Em by now apply lparen_ci.
  change (Re.rmatch (Re.Seq Re.WordB ?r) ?p ?s ?k)
    with (if xorb (Re.is_word_at p) (Re.is_word_at s)
          then Re.rmatch r p s k else None) in Em.
  destruct (xorb _ _); [|discriminate Em].
  apply not_behind_start in Em. cbn [Re.behind] in Em.
  rewrite andb_true_r in Em.
  split; intros ->; discriminate Em.
Qed.

Lemma url_re_not_after_at_witness :
  In (9, 20) (Re.finditer (url_re (H := Mini.html5lib))
                          (u "me@x.org example.com"))
  /\ " "%char <> "@"%char.
Proof.
  assert (Hin : In (9, 20) (Re.finditer (url_re (H := Mini.html5lib))
                              (u "me@x.org" ++ " "%char :: "e"%char
                                 :: u "xample.com")))
    by (vm_compute; left; reflexivity).
  split; [vm_compute; left; reflexivity|].
  apply (url_re_not_after_at (H := Mini.html5lib) (u "me@x.org")
           (u "xample.com") " "%char "e"%char 9 20 Hin);
    [reflexivity|discriminate].
Defined.

(** X12: no match of [email_re] starts right after two slashes.  (A match
    can start at the slashes: the class of the local part has the
    slash.) *)
Theorem email_re_not_after_slashes (pre post : str) (b e : nat) :
  In (b, e) (Re.finditer email_re (pre ++ u "//" ++ post)) ->
  b <> length pre + 2.
Proof.
  intros Hin ->. apply finditer_spec in Hin as (_ & _ & Hm).
  replace (pre ++ u "//" ++ post) with ((pre ++ u "//") ++ post) in Hm
    by now rewrite <- app_assoc.
  replace (length pre + 2) with (length (pre ++ u "//")) in Hm
    by (rewrite length_app; reflexivity).
  rewrite take_app_length, drop_app_length, rev_app_distr in Hm.
  change (rev (u "//") ++ rev pre) with ("/"%char :: "/"%char :: rev pre) in Hm.
  unfold Re.match_here in Hm.
  destruct (Re.rmatch email_re _ _ _) as [x|] eqn:Em; [|discriminate Hm].
  unfold email_re in Em. cbn [cat] in Em.
  apply not_behind_start in Em. discriminate Em.
Qed.

Lemma email_re_not_after_slashes_witness :
  In (4, 20) (Re.finditer email_re (u "see //me@example.com")) /\ 4 <> 4 + 2.
Proof.
  assert (Hin : In (4, 20) (Re.finditer email_re
                              (u "see " ++ u "//" ++ u "me@example.com")))
    by (vm_compute; auto).
  split; [exact Hin|].
  apply (email_re_not_after_slashes (u "see ") (u "me@example.com") 4 20 Hin).
Defined.

(** ** The characters of an address that is not in quotes *)

Lemma email_re_unquoted (prev rest : str) (k : str -> str -> option str)
    (x : str) :
  PyStr.startswith [dquote] rest = false ->
  Re.rmatch email_re prev rest k = Some x ->
  Re.rmatch email_dot_atom_re prev rest k = Some x.
Proof.
  intros Hq. unfold email_re, email_dot_atom_re. cbn [cat].
  change (Re.rmatch (Re.Seq (Re.NotBehind ?ps) ?r) prev rest k)
    with (if Re.behind ps prev then None else Re.rmatch r prev rest k).
  destruct (Re.behind _ prev); [discriminate|].
  change (Re.rmatch (Re.Seq (Re.Alt ?a ?q) ?r) prev rest k)
    with (match Re.rmatch a prev rest (fun p s => Re.rmatch r p s k) with
          | Some y => Some y
          | None => Re.rmatch q prev rest (fun p s => Re.rmatch r p s k)
          end).
  change (Re.rmatch (Re.Seq (Re.Seq ?a ?b) ?r) prev rest k)
    with (Re.rmatch (Re.Seq a b) prev rest (fun p s => Re.rmatch r p s k)).
  destruct (Re.rmatch (Re.Seq (Re.Plus (Re.Chr atext)) _) prev rest _);
    [easy|].
  change (Re.rmatch (Re.Seq Re.Bol (Re.Seq (Re.Chr ?p) ?r)) prev rest ?k')
    with (match prev with
          | [] => Re.rmatch (Re.Seq (Re.Chr p) r) prev rest k'
          | c :: _ => if Ascii.eqb c LF
                      then Re.rmatch (Re.Seq (Re.Chr p) r) prev rest k'
                      else None
          end).
  assert (Hno : forall r k', Re.rmatch (Re.Seq (Re.Chr (Ascii.eqb dquote)) r)
                                       prev rest k' = None).
  { intros r k'. cbn [Re.rmatch]. destruct rest as [|d rest]; [reflexivity|].
    cbn [PyStr.startswith] in Hq. rewrite andb_true_r in Hq. now rewrite Hq. }
  destruct prev as [|c prev']; [now rewrite Hno|].
  destruct (Ascii.eqb c LF); [now rewrite Hno|discriminate].
Qed.

Lemma email_dot_atom_chars : chars_in address_char email_dot_atom_re.
Proof.
  assert (Hat : chars_in address_char (Re.Chr atext)).
  { intros c Hc. unfold address_char. now rewrite Hc. }
  assert (Hsub : forall p : ascii -> bool,
             forallb (fun c => implb (p c) (atext c || one_of ".@" c))
                     (map ascii_of_nat (seq 0 256)) = true ->
             chars_in address_char (Re.Chr p)).
  { intros p Hp c Hc. pose proof (forall_ascii _ Hp c) as Hf. cbv beta in Hf.
    rewrite Hc in Hf. exact Hf. }
  unfold email_dot_atom_re, alnum, alnum_dash, alpha.
  repeat (first [ exact I | assumption
                | apply Hsub; vm_compute; reflexivity
                | split
                | apply chars_in_cat
                | apply List.Forall_cons | apply List.Forall_nil ]).
Qed.

(** X16: a match of [email_re] that does not begin with a double quote
    is made of the characters of the local part's class, [.] and [@]: it
    has no angle bracket, double quote or white space. *)
Theorem email_re_unquoted_chars (s : str) (b e : nat) :
  In (b, e) (Re.finditer email_re s) ->
  PyStr.startswith [dquote] (drop b s) = false ->
  Forall (fun c => atext c || one_of ".@" c = true
                   /\ c <> "<"%char /\ c <> ">"%char /\ c <> dquote
                   /\ PyStr.is_space c = false)
         (take (e - b) (drop b s)).
Proof.
  intros Hin Hq. apply finditer_spec in Hin as (_ & _ & Hm).
  assert (Hm' : Re.match_here email_dot_atom_re (rev (take b s)) (drop b s)
                = Some (e - b)).
  { unfold Re.match_here in *.
    destruct (Re.rmatch email_re _ _ _) as [x|] eqn:Em; [|discriminate Hm].
    now rewrite (email_re_unquoted _ _ _ _ Hq Em). }
  apply (match_here_chars address_char _ _ _ _ email_dot_atom_chars) in Hm'
    as [_ Hall].
  eapply Forall_impl; [exact Hall|]. intros c Hc. split; [exact Hc|].
  pose proof (forall_ascii
    (fun c => implb (atext c || one_of ".@" c)
                (negb (Ascii.eqb c "<"%char) && negb (Ascii.eqb c ">"%char)
                 && negb (Ascii.eqb c dquote) && negb (PyStr.is_space c))))
    as Hf.
  specialize (Hf ltac:(vm_compute; reflexivity) c). cbv beta in Hf.
  unfold address_char in Hc. rewrite Hc in Hf. cbn [implb] in Hf.
  apply andb_prop in Hf as [Hf H4]. apply andb_prop in Hf as [Hf H3].
  apply andb_prop in Hf as [H1 H2].
  apply negb_true_iff in H1, H2, H3, H4.
  repeat split; try (intros ->; discriminate); exact H4.
Qed.

Lemma email_re_unquoted_chars_witness :
  In (5, 19) (Re.finditer email_re (u "mail me@example.com now"))
  /\ Forall (fun c => atext c || one_of ".@" c = true
                      /\ c <> "<"%char /\ c <> ">"%char /\ c <> dquote
                      /\ PyStr.is_space c = false)
            (u "me@example.com").
Proof.
  assert (Hin : In (5, 19) (Re.finditer email_re (u "mail me@example.com now")))
    by (vm_compute; auto).
  split; [exact Hin|].
  apply (email_re_unquoted_chars (u "mail me@example.com now") 5 19 Hin).
  reflexivity.
Defined.

(** ** [_seen] after [replace_nodes] *)

Lemma mark_anchors_seen (ns : list elem) (id : nat) :
  forall st,
    id ∈ seen (mark_anchors ns st)
    <-> id ∈ seen st
        \/ exists n, In n ns /\ is_anchor n = true /\ eid n = id.
Proof.
  induction ns as [|n ns IH]; intros st.
  - cbn. split; [now left|]. intros [?|(n & [] & _)]. assumption.
  - change (mark_anchors (n :: ns) st)
      with (mark_anchors ns (if is_anchor n then add_seen n st else st)).
    rewrite IH. destruct (is_anchor n) eqn:Ea.
    + cbn [add_seen seen]. rewrite elem_of_union, elem_of_singleton. split.
      * intros [[->|?]|(m & Hin & Hm)]; [right|now left|right].
        -- exists n. split; [now left|now split].
        -- exists m. split; [now right|exact Hm].
      * intros [?|(m & [->|Hin] & Hm & He)]; [left; now right| |].
        -- left. left. now symmetry.
        -- right. now exists m.
    + split.
      * intros [?|(m & Hin & Hm)]; [now left|right].
        exists m. split; [now right|exact Hm].
      * intros [?|(m & [->|Hin] & Hm & He)]; [now left|congruence|].
        right. now exists m.
Qed.

(** X13: when [replace_nodes] returns, [_seen] holds what it held before
    and the anchors among the top-level nodes of the parsed fragment, and
    nothing else. *)
Theorem replace_nodes_marks_new_anchors `{Html5lib} (tree : elem)
    (new_frag : str) (node : option elem) (index : Z) (st st' : lstate)
    (tree' : elem) (count : nat) :
  replace_nodes tree new_frag node index st = (Ok (tree', count), st') ->
  forall id,
    id ∈ seen st'
    <-> id ∈ seen st
        \/ exists n, In n (children (fst (parse new_frag st)))
                     /\ is_anchor n = true /\ eid n = id.
Proof.
  unfold replace_nodes.
  assert (Hs : seen (snd (parse new_frag st)) = seen st).
  { unfold parse. now destruct (alloc _ _). }
  destruct (parse new_frag st) as [new_tree st1]. cbn [fst snd] in *.
  destruct (if otruthy (text new_tree) then _ else _) as [tree1|e];
    [|discriminate].
  destruct (insert_loop_perm index (children new_tree) tree1 st1 0)
    as (tree2 & -> & _).
  intros Hr id. rewrite <- Hs, <- mark_anchors_seen.
  destruct node as [node|].
  - destruct (if otruthy (tail (current tree2 node)) then _ else _)
      as [tree3|e]; [|discriminate].
    destruct (remove_child _ _); [|discriminate].
    now injection Hr as _ _ <-.
  - now injection Hr as _ _ <-.
Qed.

Lemma replace_nodes_marks_new_anchors_witness :
  exists tree' count st',
    replace_nodes (H := Mini.html5lib) sample_tree
      (u "<a href=" ++ [dquote] ++ u "http://a.com" ++ [dquote] ++ u ">a.com</a>")
      None 0 sample_state
    = (Ok (tree', count), st')
    /\ (next_id sample_state + 1) ∈ seen st'.
Proof.
  destruct (replace_nodes (H := Mini.html5lib) sample_tree
              (u "<a href=" ++ [dquote] ++ u "http://a.com" ++ [dquote]
                 ++ u ">a.com</a>") None 0 sample_state)
    as [[[tree' count]|e] st'] eqn:E; [|vm_compute in E; discriminate E].
  exists tree', count, st'. split; [reflexivity|].
  apply (replace_nodes_marks_new_anchors (H := Mini.html5lib) _ _ _ _ _ _ _ _ E).
  right. eexists. split; [vm_compute; left; reflexivity|].
  split; reflexivity.
Defined.

(** ** The attributes of an accepted anchor *)

Lemma get_set (k k' v : str) (d : attrs) :
  Dict.get k (Dict.set k' v d)
  = if PyStr.eqb k k' then Some v else Dict.get k d.
Proof.
  induction d as [|[k0 v0] d IH]; cbn [Dict.set Dict.get].
  - reflexivity.
  - unfold PyStr.eqb in *.
    destruct (bool_decide (k' = k0)) eqn:E1; cbn [Dict.get]; unfold PyStr.eqb.
    + apply bool_decide_eq_true in E1. subst k0.
      now destruct (bool_decide (k = k')).
    + destruct (bool_decide (k = k0)) eqn:E2.
      * apply bool_decide_eq_true in E2. subst k0.
        destruct (bool_decide (k = k')) eqn:E3; [|reflexivity].
        apply bool_decide_eq_true in E3. subst k'.
        apply bool_decide_eq_false in E1. contradiction.
      * exact IH.
Qed.

Lemma get_absent (k : str) (d : attrs) :
  ~ In k (map fst d) -> Dict.get k d = None.
Proof.
  induction d as [|[k0 v0] d IH]; intros Hn; [reflexivity|].
  cbn [Dict.get]. unfold PyStr.eqb.
  destruct (bool_decide (k = k0)) eqn:E.
  - apply bool_decide_eq_true in E. subst k0. exfalso. apply Hn. now left.
  - apply IH. intros Hin. apply Hn. now right.
Qed.

Lemma get_fold_set (a : attrs) (k : str) :
  List.NoDup (map fst a) ->
  forall d,
    Dict.get k (fold_left (fun d kv => Dict.set (fst kv) (snd kv) d) a d)
    = match Dict.get k a with
      | Some v => Some v
      | None => Dict.get k d
      end.
Proof.
  induction a as [|[k1 v1] a IH]; intros Hnd d; [reflexivity|].
  inversion Hnd as [|? ? Hk1 Hnd']; subst.
  cbn [fold_left fst snd Dict.get]. rewrite (IH Hnd'), get_set.
  unfold PyStr.eqb. destruct (bool_decide (k = k1)) eqn:E.
  - apply bool_decide_eq_true in E. subst k1.
    now rewrite (get_absent k a Hk1).
  - reflexivity.
Qed.

(** X14: an existing anchor the callbacks accept keeps its identity, tag
    and tail; it gets every attribute of the mapping the callbacks
    returned and keeps the attributes the mapping leaves out; its text and
    children become those of the parsed [_text]; and it is in [_seen]. *)
Theorem update_anchor_attributes `{Html5lib} (node : elem) (text_ : str)
    (a : attrs) (st : lstate) :
  List.NoDup (map fst a) ->
  let node' := fst (update_anchor node text_ a st) in
  let st' := snd (update_anchor node text_ a st) in
  (forall k, Dict.get k (attrib node')
             = match Dict.get k a with
               | Some v => Some v
               | None => Dict.get k (attrib node)
               end)
  /\ eid node' = eid node /\ tag node' = tag node /\ tail node' = tail node
  /\ text node' = text (fst (parse text_ st))
  /\ children node' = children (fst (parse text_ st))
  /\ in_seen node' st' = true.
Proof.
  intros Hnd. unfold update_anchor, force_unicode.
  destruct (parse text_ st) as [frag st1]. cbn [fst snd].
  split; [intros k; cbn; now apply get_fold_set|].
  repeat split.
  unfold in_seen, add_seen. cbn. apply bool_decide_eq_true. set_solver.
Qed.

Lemma update_anchor_attributes_witness :
  Dict.get (u "title")
    (attrib (fst (update_anchor (H := Mini.html5lib)
                    (Elem 7 (ETREE_TAG (u "a"))
                          [(u "href", u "/x"); (u "title", u "t")]
                          (Some (u "x")) None [])
                    (u "x") [(u "href", u "/y")] (state_at 8 0))))
  = Some (u "t").
Proof.
  apply (update_anchor_attributes (H := Mini.html5lib)
           (Elem 7 (ETREE_TAG (u "a"))
                 [(u "href", u "/x"); (u "title", u "t")]
                 (Some (u "x")) None [])
           (u "x") [(u "href", u "/y")] (state_at 8 0)).
  repeat constructor. intros [].
Defined.

(** ** Fragments the walk has nothing to do on *)

Section quiet_facts.

Context `{Html5lib}.
Variables (callbacks : list callback) (skip_pre : bool) (limit : nat).

Lemma sub_no_link (o : option str) (repl : str -> res str) :
  otruthy o = true -> no_link o = true ->
  Re.sub url_re repl (or_empty o) = Ok (or_empty o).
Proof.
  unfold no_link, Re.sub. intros -> Hn. cbn [negb orb] in Hn.
  now destruct (Re.finditer url_re (or_empty o)).
Qed.

Lemma pystr_eqb_refl (s : str) : PyStr.eqb s s = true.
Proof. unfold PyStr.eqb. now apply bool_decide_eq_true. Qed.

Lemma text_phase_quiet (tree : elem) (parse_text : bool) (c : Z) (st : lstate) :
  (parse_text = true -> no_link (text tree) = true) ->
  text_phase callbacks false tree parse_text c st = TextPass.
Proof.
  intros Hn. unfold text_phase.
  destruct (parse_text && otruthy (text tree)) eqn:E; [|reflexivity].
  apply andb_prop in E as [-> Ht].
  rewrite (sub_no_link _ _ Ht (Hn eq_refl)). now rewrite pystr_eqb_refl.
Qed.

Lemma tail_phase_quiet (tree node : elem) (parse_text : bool) (c : Z)
    (st : lstate) :
  (parse_text = true -> no_link (tail node) = true) ->
  tail_phase callbacks false tree node parse_text c st = TailPass tree st.
Proof.
  intros Hn. unfold tail_phase.
  destruct (parse_text && otruthy (tail node)) eqn:E; [|reflexivity].
  apply andb_prop in E as [-> Ht].
  rewrite (sub_no_link _ _ Ht (Hn eq_refl)). now rewrite pystr_eqb_refl.
Qed.

Lemma anchor_not_pre (node : elem) : is_anchor node = true -> is_pre node = false.
Proof.
  unfold is_anchor, is_pre, PyStr.eqb. intros Ha.
  apply bool_decide_eq_true in Ha. rewrite Ha. reflexivity.
Qed.

Lemma set_node_same (tree node : elem) (c : Z) :
  (0 <= c)%Z -> children tree !! Z.to_nat c = Some node ->
  set_node tree c node = tree.
Proof.
  intros Hc Hl. unfold set_node.
  destruct (c <? 0)%Z eqn:E; [apply Z.ltb_lt in E; lia|].
  rewrite list_insert_id by exact Hl. now destruct tree.
Qed.

Lemma walk_fuel_child (node : elem) (l : list elem) :
  In node l -> walk_fuel node <= list_max (map walk_fuel l).
Proof.
  induction l as [|x l IH]; intros Hin; [destruct Hin|].
  change (list_max (map walk_fuel (x :: l)))
    with (Nat.max (walk_fuel x) (list_max (map walk_fuel l))).
  destruct Hin as [->|Hin]; [lia|]. specialize (IH Hin). lia.
Qed.

Lemma walk_fuel_eq (t : elem) :
  walk_fuel t
  = S (S (length (children t))) + list_max (map walk_fuel (children t)).
Proof. now destruct t. Qed.

Lemma quiet_eq (parse_text : bool) (t : elem) :
  quiet skip_pre parse_text t
  = negb (otruthy (text t))
    || (negb (is_anchor t)
        && implb parse_text (no_link (text t) && no_link (tail t))
        && forallb (fun c =>
                      implb parse_text (no_link (tail c))
                      && (if is_anchor c then negb (has_href c)
                          else quiet skip_pre
                                 (scanned_below skip_pre parse_text c) c))
                   (children t)).
Proof. now destruct t. Qed.

(** What the loop does with the child at the cursor of a quiet tree. *)
Lemma node_phase_quiet (tree node : elem) (parse_text : bool) (c : Z)
    (st : lstate) :
  (0 <= c)%Z ->
  (if is_anchor node then negb (has_href node)
   else quiet skip_pre (scanned_below skip_pre parse_text node) node) = true ->
  node_phase callbacks skip_pre tree node parse_text c st = NodeStay tree c st
  \/ (node_phase callbacks skip_pre tree node parse_text c st
      = NodeDescend node (scanned_below skip_pre parse_text node)
      /\ quiet skip_pre (scanned_below skip_pre parse_text node) node = true).
Proof.
  intros Hc Hq. unfold node_phase.
  change (PyStr.eqb (tag node) (ETREE_TAG (u "a"))) with (is_anchor node).
  change (PyStr.eqb (tag node) (ETREE_TAG (u "pre"))) with (is_pre node).
  assert (Hc' : (0 <=? c)%Z = true) by now apply Z.leb_le.
  destruct (is_anchor node) eqn:Ea.
  - unfold has_href in Hq.
    destruct (Dict.get (u "href") (attrib node)); [discriminate Hq|].
    rewrite (anchor_not_pre node Ea), Hc'. cbn [andb].
    destruct (in_seen node st); now left.
  - cbn [andb]. rewrite Hc'. unfold scanned_below in *.
    destruct (is_pre node && skip_pre); [right; now split|].
    destruct (in_seen node st); cbn [negb]; [now left|right; now split].
Qed.

Lemma quiet_loop (fuel : nat) :
  forall depth tree parse_text c st,
    quiet skip_pre parse_text tree = true -> (-1 <= c)%Z ->
    exists ex st',
      linkify_loop callbacks skip_pre false limit fuel depth tree parse_text
                   c st
      = (ex, tree, st')
      /\ seen st' = seen st /\ next_id st' = next_id st
      /\ (ex = Normal \/ ex = Raised RuntimeError \/ ex = OutOfFuel)
      /\ (Z.to_nat (Z.of_nat (length (children tree)) - c) + 1
            + list_max (map walk_fuel (children tree)) <= fuel ->
          ex <> OutOfFuel).
Proof.
  induction fuel as [|fuel IH]; intros depth tree parse_text c st Hq Hc.
  { exists OutOfFuel, st. repeat split; auto. intros Hb. lia. }
  cbn [linkify_loop]. unfold loop_turn.
  destruct (negb (c <? Z.of_nat (length (children tree)))%Z) eqn:Elen.
  { exists Normal, st. repeat split; auto. }
  apply negb_false_iff, Z.ltb_lt in Elen.
  destruct (negb (otruthy (text tree))) eqn:Etxt.
  { exists Normal, st. repeat split; auto. }
  rewrite quiet_eq, Etxt in Hq. cbn [orb] in Hq.
  apply andb_prop in Hq as [Hq Hch]. apply andb_prop in Hq as [Hroot Hown].
  apply negb_true_iff in Hroot.
  assert (Htext : parse_text = true -> no_link (text tree) = true).
  { intros ->. cbn [implb] in Hown. now apply andb_prop in Hown as [? _]. }
  assert (Htail : parse_text = true -> no_link (tail tree) = true).
  { intros ->. cbn [implb] in Hown. now apply andb_prop in Hown as [_ ?]. }
  assert (Hnext : forall st1,
            seen st1 = seen st -> next_id st1 = next_id st ->
            exists ex st',
              linkify_loop callbacks skip_pre false limit fuel depth tree
                           parse_text (c + 1) st1 = (ex, tree, st')
              /\ seen st' = seen st /\ next_id st' = next_id st
              /\ (ex = Normal \/ ex = Raised RuntimeError \/ ex = OutOfFuel)
              /\ (Z.to_nat (Z.of_nat (length (children tree)) - c) + 1
                    + list_max (map walk_fuel (children tree)) <= S fuel ->
                  ex <> OutOfFuel)).
  { intros st1 Hs1 Hn1.
    destruct (IH depth tree parse_text (c + 1)%Z st1) as (ex & st' & He & Hs & Hn & Hx & Hb).
    - rewrite quiet_eq, Etxt. cbn [orb]. rewrite Hroot, Hown, Hch. reflexivity.
    - lia.
    - exists ex, st'. split; [exact He|]. split; [congruence|].
      split; [congruence|]. split; [exact Hx|].
      intros Hle. apply Hb. lia. }
  destruct (c <? 0)%Z eqn:Eneg.
  - (* the tree itself *)
    apply Z.ltb_lt in Eneg. assert (c = (-1)%Z) as -> by lia.
    rewrite (text_phase_quiet tree parse_text (-1) st Htext).
    change (node_at tree (-1)) with (Ok tree). cbv beta iota.
    rewrite (tail_phase_quiet tree tree parse_text (-1) st Htail).
    cbv beta iota. change (node_at tree (-1)) with (Ok tree). cbv beta iota.
    assert (Hnp : node_phase callbacks skip_pre tree tree parse_text (-1) st
                  = NodeStay tree (-1) st).
    { unfold node_phase.
      change (PyStr.eqb (tag tree) (ETREE_TAG (u "a"))) with (is_anchor tree).
      now rewrite Hroot. }
    rewrite Hnp. now apply Hnext.
  - (* a child *)
    apply Z.ltb_ge in Eneg.
    assert (Hp : Z.to_nat c < length (children tree)) by lia.
    apply lookup_lt_is_Some_2 in Hp as [node Hnode].
    assert (Hat : node_at tree c = Ok node).
    { unfold node_at. destruct (c <? 0)%Z eqn:E; [apply Z.ltb_lt in E; lia|].
      rewrite py_index_in_range by lia. now rewrite Hnode. }
    assert (Hin : In node (children tree)).
    { apply list_elem_of_In. eapply list_elem_of_lookup_2. exact Hnode. }
    rewrite List.forallb_forall in Hch. specialize (Hch node Hin).
    apply andb_prop in Hch as [Htl Hsub].
    rewrite Hat. cbv beta iota.
    rewrite (tail_phase_quiet tree node parse_text c st)
      by (intros ->; exact Htl).
    cbv beta iota. rewrite Hat. cbv beta iota.
    destruct (node_phase_quiet tree node parse_text c st Eneg Hsub)
      as [->|[-> Hqn]]; [now apply Hnext|].
    destruct (limit <? S depth) eqn:Elim.
    + exists (Raised RuntimeError), st.
      rewrite (set_node_same tree node c Eneg Hnode).
      repeat split; auto; discriminate.
    + destruct (IH (S depth) node (scanned_below skip_pre parse_text node)
                   (-1)%Z (note_depth (S depth) st) Hqn ltac:(lia))
        as (ex & st1 & He & Hs & Hn & Hx & Hb).
      rewrite He. rewrite (set_node_same tree node c Eneg Hnode).
      assert (Hfuel : Z.to_nat (Z.of_nat (length (children tree)) - c) + 1
                        + list_max (map walk_fuel (children tree)) <= S fuel ->
                      ex <> OutOfFuel).
      { intros Hle. apply Hb.
        pose proof (walk_fuel_child node (children tree) Hin) as Hw.
        rewrite walk_fuel_eq in Hw. lia. }
      destruct Hx as [->|[->| ->]].
      * apply Hnext; [exact Hs|exact Hn].
      * exists (Raised RuntimeError), st1. repeat split; auto; discriminate.
      * exists OutOfFuel, st1. repeat split; auto.
Qed.

End quiet_facts.

(** X15: on a fragment that is quiet (no anchor with an [href] and, where
    text is scanned, no match of [url_re]; with [skip_pre] nothing is
    asked of the text below a [pre]), [linkify] without [parse_email]
    returns the serialization of the parsed fragment as it is: the walk
    changes no node and marks none, whatever the callbacks and the
    recursion limit. *)
Theorem linkify_leaves_quiet_fragment `{Html5lib} (callbacks : list callback)
    (skip_pre : bool) (limit fuel : nat) (text_ : str) :
  PyStr.truthy text_ = true ->
  quiet skip_pre true (fst (parse text_ initial)) = true ->
  walk_fuel (fst (parse text_ initial)) <= fuel ->
  result (linkify callbacks skip_pre false limit fuel text_)
  = Returns (_render (fst (parse text_ initial)))
  /\ exists st, walked (linkify callbacks skip_pre false limit fuel text_)
                = Some (fst (parse text_ initial), st)
                /\ seen st = ∅.
Proof.
  intros Ht Hq Hf. unfold linkify, force_unicode. rewrite Ht. cbn [negb].
  destruct (parse text_ initial) as [forest st0] eqn:Hp. cbn [fst] in *.
  assert (Hs0 : seen st0 = ∅).
  { unfold parse in Hp. destruct (alloc _ _). now injection Hp as <- <-. }
  unfold linkify_nodes. destruct (limit <? 1).
  - split; [reflexivity|]. exists st0. now split.
  - destruct (quiet_loop callbacks skip_pre limit fuel 1 forest true (-1)%Z
                (note_depth 1 st0) Hq ltac:(lia))
      as (ex & st' & He & Hs & Hn & Hx & Hb).
    rewrite He.
    assert (Hex : ex <> OutOfFuel).
    { apply Hb. rewrite walk_fuel_eq in Hf. lia. }
    destruct Hx as [->|[->| ->]]; [| |contradiction];
      (split; [reflexivity|]; exists st'; split; [reflexivity|];
       now rewrite Hs).
Qed.

Lemma linkify_leaves_quiet_fragment_witness :
  result (linkify (H := Mini.html5lib) [add_rel_nofollow] true false 100 10
            (u "plain <b>text</b> and <pre>a.com</pre>"))
  = Returns (u "plain <b>text</b> and <pre>a.com</pre>").
Proof.
  apply (linkify_leaves_quiet_fragment (H := Mini.html5lib) [add_rel_nofollow]
           true 100 10 (u "plain <b>text</b> and <pre>a.com</pre>"));
    [reflexivity|vm_compute; reflexivity|vm_compute; lia].
Defined.

(** ** The exceptions of the walk *)

Lemma capture_ok (tree : elem) (idx : Z) (o : option str) :
  (0 <= idx <= Z.of_nat (length (children tree)))%Z ->
  exists tree',
    (if otruthy o then
       if (idx =? 0)%Z then Ok (append_text tree (or_empty o))
       else append_tail tree (idx - 1) (or_empty o)
     else Ok tree) = Ok tree'
    /\ map eid (children tree') = map eid (children tree)
    /\ tag tree' = tag tree.
Proof.
  intros Hi.
  assert (Hex : exists tree',
             (if otruthy o then
                if (idx =? 0)%Z then Ok (append_text tree (or_empty o))
                else append_tail tree (idx - 1) (or_empty o)
              else Ok tree) = Ok tree').
  { destruct (otruthy o); [|now eexists].
    destruct (idx =? 0)%Z eqn:E; [now eexists|]. apply Z.eqb_neq in E.
    unfold append_tail. rewrite py_index_in_range by lia. now eexists. }
  destruct Hex as [tree' Hc]. exists tree'. split; [exact Hc|].
  apply capture_shape in Hc as (Hs & _ & Ht).
  split; [now apply map_eid_shape|exact Ht].
Qed.

Lemma remove_child_ok (id : nat) (cs : list elem) :
  In id (map eid cs) -> exists r, remove_child id cs = Ok r.
Proof.
  induction cs as [|c cs IH]; intros Hin; [destruct Hin|].
  cbn [remove_child]. destruct (eid c =? id) eqn:E; [now eexists|].
  destruct Hin as [Hin|Hin]; [apply Nat.eqb_neq in E; contradiction|].
  destruct (IH Hin) as [r ->]. now eexists.
Qed.

Lemma same_length_eid (l l' : list elem) :
  map eid l = map eid l' -> length l = length l'.
Proof. intros E. now rewrite <- (length_map eid l), E, length_map. Qed.

Section safety.

Context `{Html5lib}.

(** Inserting at a position of the tree does not raise. *)
Lemma replace_nodes_insert_ok (tree : elem) (new_frag : str) (index : Z)
    (st : lstate) :
  (0 <= index <= Z.of_nat (length (children tree)))%Z ->
  exists tree' count st',
    replace_nodes tree new_frag None index st = (Ok (tree', count), st')
    /\ tag tree' = tag tree
    /\ length (children tree) <= length (children tree').
Proof.
  intros Hi. unfold replace_nodes.
  destruct (parse new_frag st) as [new_tree st1].
  destruct (capture_ok tree index (text new_tree) Hi) as (tree1 & -> & He1 & Ht1).
  destruct (insert_loop_perm index (children new_tree) tree1 st1 0)
    as (tree2 & -> & Hp & _ & Ht2).
  eexists _, _, _. split; [reflexivity|]. split; [congruence|].
  apply Permutation_length in Hp. rewrite Hp, length_app.
  rewrite (same_length_eid _ _ He1). lia.
Qed.

(** Replacing a child of the tree does not raise. *)
Lemma replace_nodes_replace_ok (tree node nd : elem) (new_frag : str) (c : Z)
    (st : lstate) :
  (0 <= c)%Z -> children tree !! Z.to_nat c = Some nd -> eid node = eid nd ->
  exists tree' count st',
    replace_nodes tree new_frag (Some node) c st = (Ok (tree', count), st')
    /\ tag tree' = tag tree.
Proof.
  intros Hc Hl He. unfold replace_nodes.
  assert (Hlt : Z.to_nat c < length (children tree))
    by (apply lookup_lt_is_Some_1; eauto).
  destruct (parse new_frag st) as [new_tree st1].
  destruct (capture_ok tree c (text new_tree) ltac:(lia))
    as (tree1 & -> & He1 & Ht1).
  destruct (insert_loop_perm c (children new_tree) tree1 st1 0)
    as (tree2 & -> & Hp & _ & Ht2).
  cbn [plus].
  assert (Hlen : length (children tree2)
                 = length (children new_tree) + length (children tree)).
  { apply Permutation_length in Hp. rewrite Hp, length_app.
    now rewrite (same_length_eid _ _ He1). }
  destruct (capture_ok tree2 (c + Z.of_nat (length (children new_tree)))
              (tail (current tree2 node)) ltac:(lia))
    as (tree3 & -> & He3 & Ht3).
  assert (Hin : In (eid (current tree2 node)) (map eid (children tree3))).
  { rewrite current_eid, He, He3.
    apply (Permutation_in (l := map eid (children new_tree ++ children tree1))).
    - symmetry. now apply Permutation_map.
    - rewrite map_app, He1. apply in_or_app. right. apply in_map.
      apply list_elem_of_In. eapply list_elem_of_lookup_2. exact Hl. }
  destruct (remove_child_ok _ _ Hin) as [r ->].
  eexists _, _, _. split; [reflexivity|]. cbn. congruence.
Qed.

Variables (callbacks : list callback) (skip_pre parse_email : bool).
Variable limit : nat.

Lemma link_repl_key (m : str) (e : exn) :
  link_repl callbacks m = Raise e -> e = KeyError.
Proof.
  unfold link_repl. destruct (unwrap_parentheses m) as [[url o] c].
  destruct (strip_punct url) as [url' end_].
  destruct (apply_callbacks _ _ _) as [link|]; [|discriminate].
  unfold Dict.pop. destruct (Dict.get (u "_text") link); cbn [res_bind];
    [|now intros [= <-]].
  destruct (Dict.get (u "href") _); cbn [res_bind];
    [discriminate|now intros [= <-]].
Qed.

Lemma email_repl_key (m : str) (e : exn) :
  email_repl callbacks m = Raise e -> e = KeyError.
Proof.
  unfold email_repl.
  destruct (apply_callbacks _ _ _) as [link|]; [|discriminate].
  unfold Dict.pop. destruct (Dict.get (u "href") link); cbn [res_bind];
    [|now intros [= <-]].
  destruct (Dict.get (u "_text") _); cbn [res_bind];
    [discriminate|now intros [= <-]].
Qed.

Lemma sub_key (r : Re.regex) (repl : str -> res str) (s : str) (e : exn) :
  (forall m e, repl m = Raise e -> e = KeyError) ->
  Re.sub r repl s = Raise e -> e = KeyError.
Proof.
  intros Hr. unfold Re.sub. generalize 0 as at_. generalize (Re.finditer r s).
  intros spans. revert s.
  induction spans as [|[b e'] spans IH]; intros s at_;
    cbn [Re.sub_spans]; [discriminate|].
  destruct (repl _) as [new|e1] eqn:E1; cbn [res_bind];
    [|intros [= <-]; now apply Hr in E1].
  destruct (Re.sub_spans spans repl e' _) as [rest|e2] eqn:E2; cbn [res_bind];
    [discriminate|]. intros [= <-]. now apply IH in E2.
Qed.

Lemma text_phase_safe (tree : elem) (parse_text : bool) (c : Z) (st : lstate) :
  match text_phase callbacks parse_email tree parse_text c st with
  | TextRestart tree' c' _ | TextContinue tree' c' _ =>
      tag tree' = tag tree /\ (c <= c')%Z
  | TextPass => True
  | TextRaise e _ => e = KeyError
  end.
Proof.
  unfold text_phase.
  destruct (parse_text && otruthy (text tree)); [|exact I].
  assert (Hrep : forall new_txt,
             exists tree' count st',
               replace_nodes (with_text tree (Some [])) new_txt None 0 st
               = (Ok (tree', count), st')
               /\ tag tree' = tag tree).
  { intros new_txt.
    destruct (replace_nodes_insert_ok (with_text tree (Some [])) new_txt 0 st)
      as (tree' & count & st' & Hr & Ht & _); [cbn; lia|].
    now exists tree', count, st'. }
  assert (Hurl : forall new_txt,
             match
               match Re.sub url_re (link_repl callbacks) new_txt with
               | Raise e => TextRaise e st
               | Ok new_txt0 =>
                   if negb (PyStr.eqb new_txt0 (or_empty (text tree))) then
                     match replace_nodes (with_text tree (Some [])) new_txt0
                                         None 0 st with
                     | (Raise e, st') => TextRaise e st'
                     | (Ok (tree', adj), st') =>
                         TextContinue tree' (c + Z.of_nat adj) st'
                     end
                   else TextPass
               end
             with
             | TextRestart tree' c' _ | TextContinue tree' c' _ =>
                 tag tree' = tag tree /\ (c <= c')%Z
             | TextPass => True
             | TextRaise e _ => e = KeyError
             end).
  { intros new_txt.
    destruct (Re.sub url_re (link_repl callbacks) new_txt) as [new2|e] eqn:Es;
      [|apply sub_key in Es; [exact Es|apply link_repl_key]].
    destruct (negb _); [|exact I].
    destruct (Hrep new2) as (tree' & count & st' & -> & Ht).
    split; [exact Ht|lia]. }
  destruct parse_email; [|apply Hurl].
  destruct (Re.sub email_re (email_repl callbacks) (or_empty (text tree)))
    as [new_txt|e] eqn:Es;
    [|apply sub_key in Es; [exact Es|apply email_repl_key]].
  destruct (PyStr.truthy new_txt && negb _); [|apply Hurl].
  destruct (Hrep new_txt) as (tree' & count & st' & -> & Ht).
  split; [exact Ht|lia].
Qed.

Lemma set_node_length (tree node : elem) (c : Z) v :
  node_at tree c = Ok node ->
  length (children (set_node tree c (with_tail node v)))
  = length (children tree)
  /\ tag (set_node tree c (with_tail node v)) = tag tree.
Proof.
  intros Hn. unfold set_node.
  destruct (node_at_spec _ _ _ Hn) as [[Hlt ->]|[Hge Hl]].
  - destruct (c <? 0)%Z eqn:E; [|apply Z.ltb_ge in E; lia]. now split.
  - destruct (c <? 0)%Z eqn:E; [apply Z.ltb_lt in E; lia|].
    cbn. now rewrite length_insert.
Qed.

Lemma tail_phase_safe (tree node : elem) (parse_text : bool) (c : Z)
    (st : lstate) :
  node_at tree c = Ok node ->
  (-1 <= c < Z.of_nat (length (children tree)))%Z ->
  match tail_phase callbacks parse_email tree node parse_text c st with
  | TailContinue tree' _ | TailPass tree' _ =>
      tag tree' = tag tree
      /\ length (children tree) <= length (children tree')
  | TailRaise e _ => e = KeyError
  end.
Proof.
  intros Hn Hc. unfold tail_phase.
  destruct (parse_text && otruthy (tail node)); [|now split].
  destruct (set_node_length tree node c (Some []) Hn) as [Hlen Htag].
  set (cleared := set_node tree c (with_tail node (Some []))) in *.
  assert (Hrep : forall new_tail,
             exists tree' count st',
               replace_nodes cleared new_tail None (c + 1) st
               = (Ok (tree', count), st')
               /\ tag tree' = tag tree
               /\ length (children tree) <= length (children tree')).
  { intros new_tail.
    destruct (replace_nodes_insert_ok cleared new_tail (c + 1) st)
      as (tree' & count & st' & Hr & Ht & Hl); [lia|].
    exists tree', count, st'. split; [exact Hr|]. split; [congruence|lia]. }
  assert (Hurl : forall new_tail,
             match
               match Re.sub url_re (link_repl callbacks) new_tail with
               | Raise e => TailRaise e st
               | Ok new_tail0 =>
                   if negb (PyStr.eqb new_tail0 (or_empty (tail node))) then
                     match replace_nodes cleared new_tail0 None (c + 1) st with
                     | (Raise e, st') => TailRaise e st'
                     | (Ok (tree', _), st') => TailPass tree' st'
                     end
                   else TailPass tree st
               end
             with
             | TailContinue tree' _ | TailPass tree' _ =>
                 tag tree' = tag tree
                 /\ length (children tree) <= length (children tree')
             | TailRaise e _ => e = KeyError
             end).
  { intros new_tail.
    destruct (Re.sub url_re (link_repl callbacks) new_tail) as [new2|e] eqn:Es;
      [|apply sub_key in Es; [exact Es|apply link_repl_key]].
    destruct (negb _); [|now split].
    destruct (Hrep new2) as (tree' & count & st' & -> & Ht & Hl). now split. }
  destruct parse_email; [|apply Hurl].
  destruct (Re.sub email_re (email_repl callbacks) (or_empty (tail node)))
    as [new_tail|e] eqn:Es;
    [|apply sub_key in Es; [exact Es|apply email_repl_key]].
  destruct (negb _); [|apply Hurl].
  destruct (Hrep new_tail) as (tree' & count & st' & -> & Ht & Hl). now split.
Qed.

Lemma set_node_tag (tree node : elem) (c : Z) :
  (0 <= c)%Z -> tag (set_node tree c node) = tag tree.
Proof.
  intros Hc. unfold set_node.
  now destruct (c <? 0)%Z eqn:E; [apply Z.ltb_lt in E; lia|].
Qed.

Lemma node_phase_safe (tree node : elem) (parse_text : bool) (c : Z)
    (st : lstate) :
  node_at tree c = Ok node -> is_anchor tree = false ->
  match node_phase callbacks skip_pre tree node parse_text c st with
  | NodeStay tree' c' _ => tag tree' = tag tree /\ (c - 1 <= c')%Z
                           /\ ((c < 0)%Z -> c' = c)
  | NodeDescend nd _ => nd = node /\ is_anchor nd = false /\ (0 <= c)%Z
  | NodeRaise e _ => e = KeyError
  end.
Proof.
  intros Hn Hroot. unfold node_phase.
  change (PyStr.eqb (tag node) (ETREE_TAG (u "a"))) with (is_anchor node).
  change (PyStr.eqb (tag node) (ETREE_TAG (u "pre"))) with (is_pre node).
  destruct (is_anchor node && negb (in_seen node st)) eqn:Ea.
  - apply andb_prop in Ea as [Ea _].
    destruct (node_at_spec _ _ _ Hn) as [[_ ->]|[Hge Hl]]; [congruence|].
    destruct (Dict.get (u "href") (attrib node)); [|split; [reflexivity|lia]].
    destruct (apply_callbacks _ _ _) as [a|].
    + unfold Dict.pop. destruct (Dict.get (u "_text") a); [|reflexivity].
      destruct (update_anchor _ _ _ _) as [node' st'].
      split; [now apply set_node_tag|lia].
    + destruct (replace_nodes_replace_ok tree node node (_render_inner node) c
                  st Hge Hl eq_refl) as (tree' & count & st' & -> & Ht).
      split; [exact Ht|lia].
  - destruct (0 <=? c)%Z eqn:Ec; [|split; [reflexivity|lia]].
    apply Z.leb_le in Ec.
    destruct (is_pre node && skip_pre) eqn:Ep.
    + apply andb_prop in Ep as [Ep _]. split; [reflexivity|]. split; [|exact Ec].
      destruct (is_anchor node) eqn:E; [|reflexivity].
      now rewrite (anchor_not_pre node E) in Ep.
    + destruct (in_seen node st); cbn [negb] in *;
        [split; [reflexivity|lia]|].
      rewrite andb_true_r in Ea. now split.
Qed.

Lemma loop_safe (fuel : nat) :
  forall depth tree parse_text c st,
    is_anchor tree = false -> (-1 <= c)%Z ->
    tag (snd (fst (linkify_loop callbacks skip_pre parse_email limit fuel
                                depth tree parse_text c st)))
    = tag tree
    /\ forall e,
        fst (fst (linkify_loop callbacks skip_pre parse_email limit fuel
                               depth tree parse_text c st))
        = Raised e ->
        e = KeyError \/ e = RuntimeError.
Proof.
  induction fuel as [|fuel IH]; intros depth tree parse_text c st Hroot Hc.
  { cbn. split; [reflexivity|discriminate]. }
  assert (Hagain : forall d tree1 pt c1 st1,
             tag tree1 = tag tree -> (-1 <= c1)%Z ->
             tag (snd (fst (linkify_loop callbacks skip_pre parse_email limit
                                         fuel d tree1 pt c1 st1)))
             = tag tree
             /\ forall e,
                 fst (fst (linkify_loop callbacks skip_pre parse_email limit
                                        fuel d tree1 pt c1 st1))
                 = Raised e ->
                 e = KeyError \/ e = RuntimeError).
  { intros d tree1 pt c1 st1 Ht Hc1.
    destruct (IH d tree1 pt c1 st1) as [H1 H2]; [|exact Hc1|].
    - unfold is_anchor in *. now rewrite Ht.
    - split; [congruence|exact H2]. }
  assert (Hstop : forall (ex : exit) (st1 : lstate),
             (forall e, ex = Raised e -> e = KeyError \/ e = RuntimeError) ->
             tag (snd (fst (ex, tree, st1))) = tag tree
             /\ forall e, fst (fst (ex, tree, st1)) = Raised e ->
                          e = KeyError \/ e = RuntimeError).
  { intros ex st1 Hex. split; [reflexivity|exact Hex]. }
  cbn [linkify_loop]. unfold loop_turn.
  destruct (negb (c <? Z.of_nat (length (children tree)))%Z) eqn:Elen;
    [apply Hstop; discriminate|].
  apply negb_false_iff, Z.ltb_lt in Elen.
  destruct (negb (otruthy (text tree))); [apply Hstop; discriminate|].
  pose proof (text_phase_safe tree parse_text c st) as Htext.
  destruct (if (c <? 0)%Z then _ else TextPass)
    as [t1 c1 s1|t1 c1 s1| |e s1] eqn:Etext.
  - destruct (c <? 0)%Z; [|discriminate Etext]. rewrite Etext in Htext.
    destruct Htext as [Ht1 Hc1].
    destruct (limit <? S depth).
    + split; [exact Ht1|]. intros e [= <-]. now right.
    + destruct (Hagain (S depth) t1 true (-1)%Z (note_depth (S depth) s1) Ht1
                  ltac:(lia)) as [Ht2 He2].
      destruct (linkify_loop _ _ _ _ _ (S depth) t1 true (-1)%Z _)
        as [[ex t2] s2]. cbn [fst snd] in *.
      destruct ex; [apply Hagain; [exact Ht2|lia]| |];
        (split; [exact Ht2|exact He2]).
  - destruct (c <? 0)%Z; [|discriminate Etext]. rewrite Etext in Htext.
    destruct Htext as [Ht1 Hc1]. apply Hagain; [exact Ht1|lia].
  - clear Htext Etext.
    assert (Hat : exists node, node_at tree c = Ok node).
    { unfold node_at. destruct (c <? 0)%Z eqn:E; [now eexists|].
      apply Z.ltb_ge in E. rewrite py_index_in_range by lia.
      destruct (lookup_lt_is_Some_2 (children tree) (Z.to_nat c) ltac:(lia))
        as [node ->]. now eexists. }
    destruct Hat as [node Hnode]. rewrite Hnode.
    pose proof (tail_phase_safe tree node parse_text c st Hnode ltac:(lia))
      as Htail.
    destruct (tail_phase callbacks parse_email tree node parse_text c st)
      as [t2 s2|t2 s2|e s2].
    + destruct Htail as [Ht2 _]. apply Hagain; [exact Ht2|exact Hc].
    + destruct Htail as [Ht2 Hl2].
      assert (Hroot2 : is_anchor t2 = false)
        by (unfold is_anchor in *; now rewrite Ht2).
      assert (Hat : exists node, node_at t2 c = Ok node).
      { unfold node_at. destruct (c <? 0)%Z eqn:E; [now eexists|].
        apply Z.ltb_ge in E. rewrite py_index_in_range by lia.
        destruct (lookup_lt_is_Some_2 (children t2) (Z.to_nat c) ltac:(lia))
          as [node2 ->]. now eexists. }
      clear Hnode node. destruct Hat as [node Hnode]. rewrite Hnode.
      pose proof (node_phase_safe t2 node parse_text c s2 Hnode Hroot2) as Hnp.
      destruct (node_phase callbacks skip_pre t2 node parse_text c s2)
        as [t3 c3 s3|nd pt'|e s3].
      * destruct Hnp as (Ht3 & Hc3 & Hneg). apply Hagain; [congruence|].
        destruct (Z.ltb_spec c 0); [rewrite (Hneg ltac:(lia)); lia|lia].
      * destruct Hnp as (-> & Hna & Hge).
        destruct (limit <? S depth).
        -- cbn [fst snd]. split; [rewrite set_node_tag by exact Hge; exact Ht2|].
           intros e [= <-]. now right.
        -- destruct (IH (S depth) node pt' (-1)%Z (note_depth (S depth) s2) Hna
                        ltac:(lia)) as [Ht4 He4].
           destruct (linkify_loop _ _ _ _ _ (S depth) node pt' (-1)%Z _)
             as [[ex node'] s4]. cbn [fst snd] in *.
           destruct ex.
           ++ apply Hagain; [rewrite set_node_tag by exact Hge; exact Ht2|lia].
           ++ cbn [fst snd].
              split; [rewrite set_node_tag by exact Hge; exact Ht2|exact He4].
           ++ cbn [fst snd].
              split; [rewrite set_node_tag by exact Hge; exact Ht2|exact He4].
      * cbn [fst snd]. split; [exact Ht2|]. intros e' [= <-]. now left.
    + cbn [fst snd]. split; [reflexivity|]. intros e' [= <-]. now left.
  - destruct (c <? 0)%Z; [|discriminate Etext]. rewrite Etext in Htext.
    cbn [fst snd]. split; [reflexivity|]. intros e' [= <-]. now left.
Qed.

End safety.

Lemma alloc_tag (next : nat) (t : elem) : tag (fst (alloc next t)) = tag t.
Proof. rewrite alloc_eq. now destruct (alloc_list (S next) (children t)). Qed.

(** X17: when the root of the parsed fragment is no anchor, the only
    exception [linkify] lets out of the walk is the [KeyError] of a
    callback result without [_text] or [href]: no index is out of range
    and no node to remove is missing, with or without [parse_email]. *)
Theorem linkify_raises_only_key_error `{Html5lib} (callbacks : list callback)
    (skip_pre parse_email : bool) (limit fuel : nat) (text_ : str) (e : exn) :
  is_anchor (parseFragment text_) = false ->
  result (linkify callbacks skip_pre parse_email limit fuel text_) = Raises e ->
  e = KeyError.
Proof.
  intros Hroot. unfold linkify, force_unicode.
  destruct (negb (PyStr.truthy text_)); [discriminate|].
  assert (Ha : is_anchor (fst (parse text_ initial)) = false).
  { unfold parse. pose proof (alloc_tag (next_id initial) (parseFragment text_)) as Ht.
    destruct (alloc _ _) as [t n]. cbn [fst] in *. unfold is_anchor in *.
    now rewrite Ht. }
  destruct (parse text_ initial) as [forest st0]. cbn [fst] in Ha.
  unfold linkify_nodes. destruct (limit <? 1); [discriminate|].
  destruct (loop_safe callbacks skip_pre parse_email limit fuel 1 forest true
              (-1)%Z (note_depth 1 st0) Ha ltac:(lia)) as [_ He].
  destruct (linkify_loop _ _ _ _ _ _ _ _ _ _) as [[ex forest'] st'].
  cbn [fst] in He.
  destruct ex as [|e'|]; [discriminate| |discriminate].
  destruct (He e' eq_refl) as [->| ->]; [now intros [= <-]|discriminate].
Qed.

Lemma linkify_raises_only_key_error_witness :
  result (linkify (H := Mini.html5lib)
            [fun a _ => Some (Dict.remove (u "_text") a)] false false 100 10
            (u "see example.com"))
  = Raises KeyError
  /\ KeyError = KeyError.
Proof.
  split; [vm_compute; reflexivity|].
  apply (linkify_raises_only_key_error (H := Mini.html5lib)
           [fun a _ => Some (Dict.remove (u "_text") a)] false false 100 10
           (u "see example.com") KeyError);
    [reflexivity|vm_compute; reflexivity].
Defined.
(** ** The top-level domain a host is matched with *)

Lemma seq_step (a b : Re.regex) (prev rest : str)
    (k : str -> str -> option str) :
  Re.rmatch (Re.Seq a b) prev rest k
  = Re.rmatch a prev rest (fun prev' rest' => Re.rmatch b prev' rest' k).
Proof. reflexivity. Qed.

(** A literal matches when the text starts with it, whatever the case. *)
Lemma lit_rmatch (a : str) :
  forall prev s k,
    Re.rmatch (Re.lit a) prev s k
    = if alt_matches a s
      then k (rev (take (length a) s) ++ prev) (drop (length a) s)
      else None.
Proof.
  unfold alt_matches.
  induction a as [|c a IH]; intros prev s k; [reflexivity|].
  cbn [Re.lit]. rewrite seq_step. unfold Re.chr_ci at 1. cbn [Re.rmatch].
  destruct s as [|x s]; [reflexivity|].
  cbn [PyStr.lower map PyStr.startswith length take drop rev].
  rewrite (Ascii.eqb_sym (PyStr.lower_char c)).
  destruct (Ascii.eqb (PyStr.lower_char x) (PyStr.lower_char c));
    [|reflexivity].
  cbn [andb]. rewrite IH. fold (PyStr.lower a). fold (PyStr.lower s).
  destruct (PyStr.startswith (PyStr.lower a) (PyStr.lower s)); [|reflexivity].
  now rewrite <- app_assoc.
Qed.

(** The alternatives are tried from left to right. *)
Lemma alts_cons (a : str) (l : list str) (prev s : str)
    (k : str -> str -> option str) :
  Re.rmatch (Re.alts (a :: l)) prev s k
  = match Re.rmatch (Re.lit a) prev s k with
    | Some x => Some x
    | None => Re.rmatch (Re.alts l) prev s k
    end.
Proof.
  destruct l as [|b l]; [|reflexivity].
  cbn [Re.alts]. now destruct (Re.rmatch (Re.lit a) prev s k).
Qed.

Lemma alts_first (l : list str) (prev s : str) (k : str -> str -> option str)
    (a : str) (y : str) :
  first_alt l s = Some a ->
  k (rev (take (length a) s) ++ prev) (drop (length a) s) = Some y ->
  Re.rmatch (Re.alts l) prev s k = Some y.
Proof.
  unfold first_alt. induction l as [|x l IH]; intros Hf Hk; [discriminate Hf|].
  rewrite alts_cons, lit_rmatch. cbn [List.find] in Hf.
  destruct (alt_matches x s).
  - injection Hf as ->. now rewrite Hk.
  - now apply IH.
Qed.

Lemma lower_app (a b : str) : PyStr.lower (a ++ b) = PyStr.lower a ++ PyStr.lower b.
Proof. apply map_app. Qed.

Lemma TLDS_letters : Forall (fun t => t <> [] /\ Forall (fun c => PyStr.is_lower c = true) t) TLDS.
Proof.
  apply List.Forall_forall. intros t Ht.
  assert (H : forallb (fun t => PyStr.truthy t && forallb PyStr.is_lower t) TLDS
              = true) by (vm_compute; reflexivity).
  rewrite List.forallb_forall in H. specialize (H t Ht).
  apply andb_prop in H as [Hne Hl]. split; [now destruct t|].
  apply List.Forall_forall. intros c Hc. rewrite List.forallb_forall in Hl.
  now apply Hl.
Qed.

Lemma alt_matches_self (t rest : str) :
  PyStr.lower t = t -> alt_matches t (t ++ rest) = true.
Proof.
  intros Hl. unfold alt_matches. rewrite lower_app, Hl.
  apply startswith_app. now eexists.
Qed.

(** At a text that starts with a domain of the list, some alternative is
    taken, and the one taken first is no shorter than the domain. *)
Lemma first_alt_TLDS (t rest : str) :
  In t TLDS ->
  exists t1, first_alt TLDS (t ++ rest) = Some t1 /\ In t1 TLDS
             /\ alt_matches t1 (t ++ rest) = true /\ length t <= length t1.
Proof.
  intros Ht.
  pose proof (alt_matches_self t rest (TLDS_lower t Ht)) as Hm.
  destruct (first_alt TLDS (t ++ rest)) as [t1|] eqn:Hf.
  - exists t1. split; [reflexivity|].
    pose proof (first_alt_longest TLDS TLDS_longer_first TLDS_lower _ _ Hf t Ht Hm)
      as Hlen.
    unfold first_alt in Hf. apply find_some in Hf as [Hin Hm1]. now repeat split.
  - unfold first_alt in Hf.
    pose proof (find_none _ _ Hf t Ht) as Hn. cbv beta in Hn. congruence.
Qed.

Lemma space_facts (d : ascii) :
  is_space_u d = true ->
  PyStr.is_word d = false /\ PyStr.is_lower (PyStr.lower_char d) = false
  /\ wd d = false
  /\ Ascii.eqb (PyStr.lower_char d) (PyStr.lower_char ":"%char) = false
  /\ Ascii.eqb (PyStr.lower_char d) (PyStr.lower_char "."%char) = false
  /\ one_of "/?" d = false.
Proof.
  pose proof (forall_ascii
    (fun d => implb (is_space_u d)
       (negb (PyStr.is_word d) && negb (PyStr.is_lower (PyStr.lower_char d))
        && negb (wd d)
        && negb (Ascii.eqb (PyStr.lower_char d) (PyStr.lower_char ":"%char))
        && negb (Ascii.eqb (PyStr.lower_char d) (PyStr.lower_char "."%char))
        && negb (one_of "/?" d)))) as H.
  specialize (H ltac:(vm_compute; reflexivity) d). cbv beta in H.
  intros Hd. rewrite Hd in H. cbn [implb] in H.
  repeat (apply andb_prop in H as [H ?]).
  repeat split; now apply negb_true_iff.
Qed.

Lemma wd_facts (c : ascii) :
  wd c = true ->
  Ascii.eqb (PyStr.lower_char c) (PyStr.lower_char "."%char) = false
  /\ Ascii.eqb (PyStr.lower_char c) (PyStr.lower_char ":"%char) = false
  /\ Ascii.eqb (PyStr.lower_char c) (PyStr.lower_char lparen) = false.
Proof.
  pose proof (forall_ascii
    (fun c => implb (wd c)
       (negb (Ascii.eqb (PyStr.lower_char c) (PyStr.lower_char "."%char))
        && negb (Ascii.eqb (PyStr.lower_char c) (PyStr.lower_char ":"%char))
        && negb (Ascii.eqb (PyStr.lower_char c) (PyStr.lower_char lparen)))))
    as H.
  specialize (H ltac:(vm_compute; reflexivity) c). cbv beta in H.
  intros Hc. rewrite Hc in H. cbn [implb] in H.
  repeat (apply andb_prop in H as [H ?]).
  repeat split; now apply negb_true_iff.
Qed.

(** At a text that starts with a domain of the list and ends there, the
    alternative taken first is the domain. *)
Lemma first_alt_host (t rest : str) :
  In t TLDS -> host_ends rest = true -> first_alt TLDS (t ++ rest) = Some t.
Proof.
  intros Ht Hr.
  destruct (first_alt_TLDS t rest Ht) as (t1 & Hf & Hin1 & Hm1 & Hlen).
  rewrite Hf. f_equal.
  unfold alt_matches in Hm1.
  rewrite (TLDS_lower t1 Hin1), lower_app, (TLDS_lower t Ht) in Hm1.
  apply startswith_app in Hm1 as [r Hr1].
  pose proof TLDS_letters as Hlet. rewrite List.Forall_forall in Hlet.
  destruct (Hlet t1 Hin1) as [_ Hl1].
  assert (Hsplit : t1 = t ++ take (length t1 - length t) (PyStr.lower rest)).
  { assert (Ht1 : t1 = take (length t1) (t ++ PyStr.lower rest))
      by (rewrite Hr1; now rewrite take_app_length).
    rewrite take_app in Ht1. rewrite take_ge in Ht1 by lia. exact Ht1. }
  destruct rest as [|d rest].
  - cbn in Hsplit. rewrite take_nil, app_nil_r in Hsplit. exact Hsplit.
  - cbn [host_ends] in Hr. apply space_facts in Hr as (_ & Hnl & _).
    destruct (length t1 - length t) as [|n] eqn:En.
    + cbn in Hsplit. now rewrite app_nil_r in Hsplit.
    + exfalso. cbn [PyStr.lower map take] in Hsplit.
      rewrite Hsplit in Hl1. apply Forall_app in Hl1 as [_ Hl1].
      inversion Hl1 as [|? ? Hd _]; subst. congruence.
Qed.

(** One label of a host and its dot. *)
Lemma label_dot (c : ascii) (label tail prev : str)
    (k : str -> str -> option str) :
  wd c = true -> Forall (fun x => wd x = true) label ->
  Re.rmatch (Re.Seq (Re.Plus word_or_dash) (Re.lit (u "."))) prev
            (c :: label ++ u "." ++ tail) k
  = k ("."%char :: rev label ++ c :: prev) tail.
Proof.
  intros Hc Hl. rewrite seq_step. unfold Re.Plus. rewrite seq_step.
  change (Re.rmatch word_or_dash prev (c :: ?s) ?k')
    with (if wd c then k' (c :: prev) s else None).
  rewrite Hc. change word_or_dash with (Re.Chr wd).
  rewrite star_chr_greedy.
  2: { intros prev' c' r' Hc'. change (u ".") with ["."%char].
       cbn [Re.lit]. rewrite seq_step. unfold Re.chr_ci. cbn [Re.rmatch].
       now rewrite (proj1 (wd_facts c' Hc')). }
  change (u "." ++ tail) with ("."%char :: tail).
  rewrite (span_stop wd label "."%char tail Hl eq_refl). cbn [fst snd].
  reflexivity.
Qed.

(** A run of the class that no dot follows is no label. *)
Lemma label_no_dot (w tail prev : str) (k : str -> str -> option str) :
  Forall (fun x => wd x = true) w -> host_ends tail = true ->
  Re.rmatch (Re.Seq (Re.Plus word_or_dash) (Re.lit (u "."))) prev (w ++ tail) k
  = None.
Proof.
  intros Hw Ht. rewrite seq_step. unfold Re.Plus. rewrite seq_step.
  assert (Hlit : forall p,
             Re.rmatch (Re.lit (u ".")) p tail k = None).
  { intros p. change (u ".") with ["."%char]. cbn [Re.lit]. rewrite seq_step.
    unfold Re.chr_ci. cbn [Re.rmatch].
    destruct tail as [|d tail]; [reflexivity|]. cbn [host_ends] in Ht.
    destruct (space_facts d Ht) as (_ & _ & _ & _ & Hd & _). now rewrite Hd. }
  destruct w as [|c w].
  - cbn [app]. change word_or_dash with (Re.Chr wd). cbn [Re.rmatch].
    destruct tail as [|d tail]; [reflexivity|]. cbn [host_ends] in Ht.
    destruct (space_facts d Ht) as (_ & _ & Hd & _). now rewrite Hd.
  - inversion Hw as [|? ? Hc Hw']; subst. cbn [app].
    change (Re.rmatch word_or_dash prev (c :: ?s) ?k')
      with (if wd c then k' (c :: prev) s else None).
    rewrite Hc. change word_or_dash with (Re.Chr wd).
    rewrite star_chr_greedy.
    2: { intros prev' c' r' Hc'. change (u ".") with ["."%char].
         cbn [Re.lit]. rewrite seq_step. unfold Re.chr_ci. cbn [Re.rmatch].
         now rewrite (proj1 (wd_facts c' Hc')). }
    assert (Hsp : PyStr.span wd (w ++ tail) = (w, tail)).
    { destruct tail as [|d tail].
      - rewrite app_nil_r. clear -Hw'. induction Hw' as [|x w Hx _ IH];
          [reflexivity|]. cbn [PyStr.span]. now rewrite Hx, IH.
      - cbn [host_ends] in Ht. destruct (space_facts d Ht) as (_ & _ & Hd & _).
        now apply span_stop. }
    rewrite Hsp. cbn [fst snd]. apply Hlit.
Qed.

Lemma star_none (a : Re.regex) (prev s : str) (k : str -> str -> option str) :
  (forall k', Re.rmatch a prev s k' = None) ->
  Re.rmatch (Re.Star a) prev s k = k prev s.
Proof.
  intros Ha. cbn [Re.rmatch]. destruct (length s); [reflexivity|].
  now rewrite Ha.
Qed.

(** A prefix of word characters of a label and what follows it stops in
    the label. *)
Lemma word_prefix_in_label (mid rest' w tail : str) :
  mid ++ rest' = w ++ u "." ++ tail ->
  Forall (fun x => PyStr.is_word x = true) mid ->
  exists w2, rest' = w2 ++ u "." ++ tail.
Proof.
  revert w. induction mid as [|m mid IH]; intros w Heq Hm.
  - exists w. exact Heq.
  - inversion Hm as [|? ? Hm1 Hm2]; subst.
    destruct w as [|x w].
    + cbn in Heq. injection Heq as -> _. discriminate Hm1.
    + cbn [app] in Heq. injection Heq as _ Heq. now apply (IH w).
Qed.

Section host.

Context `{Html5lib}.
Hypothesis protocols_words :
  Forall (Forall (fun c => PyStr.is_word c = true)) allowed_protocols.

(** No scheme is read off a host. *)
Lemma no_scheme (r : Re.regex) (prev w tail : str)
    (k : str -> str -> option str) :
  Forall (fun x => wd x = true) w ->
  Re.rmatch (Re.Seq (Re.alts allowed_protocols) (Re.Seq (Re.lit (u ":")) r))
            prev (w ++ u "." ++ tail) k
  = None.
Proof using protocols_words.
  intros Hw.
  destruct (Re.rmatch _ prev (w ++ u "." ++ tail) k) as [x|] eqn:Em;
    [|reflexivity].
  exfalso. rewrite seq_step in Em.
  apply (rmatch_chars (fun x => PyStr.is_word x = true)) in Em
    as (mid & rest' & Heq & Hmid & Hk).
  2: { apply chars_in_alts. eapply Forall_impl; [exact protocols_words|].
       intros s Hs. apply chars_in_lit. eapply Forall_impl; [exact Hs|].
       intros c Hc x' Hx'. apply Ascii.eqb_eq in Hx'.
       now rewrite <- lower_word, Hx', lower_word. }
  symmetry in Heq.
  destruct (word_prefix_in_label _ _ _ _ Heq Hmid) as [w2 ->].
  assert (Hw2 : Forall (fun x => wd x = true) w2).
  { apply (f_equal (fun l => drop (length mid) l)) in Heq.
    rewrite drop_app_length in Heq.
    assert (Hle : length mid <= length w).
    { apply (f_equal (@length ascii)) in Heq.
      rewrite length_drop, !length_app in Heq. cbn in Heq. lia. }
    rewrite drop_app_le in Heq by exact Hle.
    apply app_inv_tail in Heq. rewrite Heq. now apply Forall_drop. }
  rewrite lit_colon_step in Hk.
  destruct w2 as [|x2 w2]; cbn [app] in Hk.
  - change (u "." ++ tail) with ("."%char :: tail) in Hk. discriminate Hk.
  - inversion Hw2 as [|? ? Hx2 _]; subst.
    now rewrite (proj1 (proj2 (wd_facts x2 Hx2))) in Hk.
Qed.

(** [url_re] matches a host, a label, a dot and a domain of the list, as a
    whole. *)
Lemma url_re_host (c : ascii) (label t rest : str) :
  PyStr.is_word c = true -> Forall (fun x => wd x = true) label ->
  In t TLDS -> host_ends rest = true ->
  Re.match_here url_re [] (c :: label ++ u "." ++ t ++ rest)
  = Some (length (c :: label ++ u "." ++ t)).
Proof using protocols_words.
  intros Hc Hl Ht Hr.
  assert (Hwc : wd c = true) by (unfold wd; now rewrite Hc).
  pose proof TLDS_letters as Hlet. rewrite List.Forall_forall in Hlet.
  destruct (Hlet t Ht) as [Hne Hlow].
  assert (Htw : Forall (fun x => wd x = true) t).
  { eapply Forall_impl; [exact Hlow|]. intros x Hx. unfold wd, PyStr.is_word.
    rewrite Hx. now rewrite !orb_true_r. }
  set (k0 := fun (_ : str) (rest' : str) => Some rest').
  assert (Hm : Re.rmatch url_re [] (c :: label ++ u "." ++ t ++ rest) k0
               = Some rest).
  { unfold url_re. cbn [cat]. rewrite seq_step.
    unfold Re.chr_ci at 1.
    rewrite star_chr_stop by apply (proj2 (proj2 (wd_facts c Hwc))).
    rewrite seq_step.
    change (Re.rmatch Re.WordB [] (c :: ?s) ?k')
      with (if xorb false (PyStr.is_word c) then k' [] (c :: s) else None).
    rewrite Hc. cbn [xorb]. rewrite seq_step.
    change (Re.rmatch (Re.NotBehind ?ps) [] ?s ?k') with (k' [] s).
    cbv beta. rewrite seq_step. unfold Re.Opt at 1.
    change (Re.rmatch (Re.Alt ?a Re.Eps) ?p ?s ?k')
      with (match Re.rmatch a p s k' with
            | Some x => Some x
            | None => k' p s
            end).
    rewrite (no_scheme _ [] (c :: label) (t ++ rest) _
               (List.Forall_cons _ _ _ Hwc Hl)).
    rewrite seq_step. unfold Re.Plus at 1. rewrite seq_step.
    cbn [cat]. rewrite (label_dot c label (t ++ rest) [] _ Hwc Hl).
    rewrite star_none by (intros k'; now apply label_no_dot).
    rewrite seq_step.
    apply (alts_first TLDS _ (t ++ rest) _ t rest (first_alt_host t rest Ht Hr)).
    rewrite take_app_length, drop_app_length.
    (* after the domain: no port, no dot and word, a boundary, no path *)
    set (prev' := rev t ++ "."%char :: rev label ++ [c]).
    assert (Hprev : Re.is_word_at prev' = true).
    { unfold prev'. destruct (list_snoc_inv t) as [->|(t0 & x & ->)];
        [contradiction|].
      rewrite rev_app_distr. cbn [rev app Re.is_word_at].
      apply Forall_app in Hlow as [_ Hx]. inversion Hx as [|? ? Hx' _]; subst.
      unfold PyStr.is_word. rewrite Hx'. now rewrite !orb_true_r. }
    assert (Hrest : Re.is_word_at rest = false
                    /\ (forall r p k', Re.rmatch (Re.Seq (Re.lit (u ":")) r)
                                                 p rest k' = None)
                    /\ (forall r p k', Re.rmatch (Re.Seq (Re.lit (u ".")) r)
                                                 p rest k' = None)
                    /\ (forall r p k', Re.rmatch (Re.Seq (Re.Chr (one_of "/?")) r)
                                                 p rest k' = None)).
    { destruct rest as [|d rest]; [now repeat split|].
      cbn [host_ends] in Hr.
      destruct (space_facts d Hr) as (H1 & _ & _ & H2 & H3 & H4).
      split; [exact H1|]. split; [|split]; intros r p k'.
      - rewrite lit_colon_step. now rewrite H2.
      - change (u ".") with ["."%char]. cbn [Re.lit]. rewrite !seq_step.
        unfold Re.chr_ci. cbn [Re.rmatch]. now rewrite H3.
      - rewrite seq_step. cbn [Re.rmatch]. now rewrite H4. }
    destruct Hrest as (Hw0 & Hcolon & Hdot & Hpath).
    rewrite seq_step. unfold Re.Opt at 1.
    change (Re.rmatch (Re.Alt ?a Re.Eps) ?p ?s ?k')
      with (match Re.rmatch a p s k' with
            | Some x => Some x
            | None => k' p s
            end).
    cbn [cat]. rewrite Hcolon. rewrite seq_step.
    change (Re.rmatch (Re.NotAhead ?a) ?p ?s ?k')
      with (match Re.rmatch a p s (fun _ rest' => Some rest') with
            | Some _ => None
            | None => k' p s
            end).
    rewrite Hdot. rewrite seq_step.
    change (Re.rmatch Re.WordB ?p ?s ?k')
      with (if xorb (Re.is_word_at p) (Re.is_word_at s) then k' p s else None).
    rewrite Hprev, Hw0. cbn [xorb]. unfold Re.Opt.
    change (Re.rmatch (Re.Alt ?a Re.Eps) ?p ?s ?k')
      with (match Re.rmatch a p s k' with
            | Some x => Some x
            | None => k' p s
            end).
    now rewrite Hpath. }
  unfold Re.match_here. fold k0. rewrite Hm. f_equal.
  change (c :: label ++ u "." ++ t ++ rest)
    with ((c :: label) ++ u "." ++ t ++ rest).
  change (c :: label ++ u "." ++ t) with ((c :: label) ++ u "." ++ t).
  rewrite !length_app. lia.
Qed.

End host.

(** C7: in the alternation of top-level domains of [url_re], a domain that
    is a proper prefix of another comes after it.  So, at a text that
    starts with a domain of the list, the alternative the matcher takes
    first is no shorter than the domain, and [url_re] matches a host (a
    label, a dot and a domain of the list, up to the end of the text or
    white space) with its whole domain: [example.com] with [com], not with
    [co]. *)
Theorem TLDS_longest_alternative_first `{Html5lib} :
  (forall i j a b,
      TLDS !! i = Some a -> TLDS !! j = Some b ->
      proper_prefix a b = true -> j < i)
  /\ (forall prev t rest,
         In t TLDS ->
         exists t1,
           In t1 TLDS /\ length t <= length t1
           /\ Re.rmatch (Re.alts TLDS) prev (t ++ rest)
                         (fun _ rest' => Some rest')
              = Some (drop (length t1) (t ++ rest)))
  /\ (Forall (Forall (fun c => PyStr.is_word c = true)) allowed_protocols ->
      forall c label t rest,
        PyStr.is_word c = true ->
        Forall (fun x => PyStr.is_word x || Ascii.eqb x "-"%char = true) label ->
        In t TLDS -> host_ends rest = true ->
        Re.match_here url_re [] (c :: label ++ u "." ++ t ++ rest)
        = Some (length (c :: label ++ u "." ++ t)))
  /\ In (u "co") TLDS /\ In (u "com") TLDS
  /\ Re.rmatch (Re.alts TLDS) [] (u "com") (fun _ rest' => Some rest')
     = Some [].
Proof.
  split; [apply longer_first_spec, TLDS_longer_first|].
  split.
  { intros prev t rest Ht.
    destruct (first_alt_TLDS t rest Ht) as (t1 & Hf & Hin1 & _ & Hlen).
    exists t1. split; [exact Hin1|]. split; [exact Hlen|].
    now apply (alts_first TLDS prev (t ++ rest) _ t1). }
  split.
  { intros Hp c label t rest Hc Hl Ht Hr. now apply url_re_host. }
  split; [vm_compute; tauto|]. split; [vm_compute; tauto|].
  apply (alts_first TLDS [] (u "com") _ (u "com")); reflexivity.
Qed.

Lemma TLDS_longest_alternative_first_witness :
  (TLDS !! 220 = Some (u "co") /\ TLDS !! 219 = Some (u "com") /\ 219 < 220)
  /\ Re.match_here (url_re (H := Mini.html5lib)) [] (u "example.com now")
     = Some 11.
Proof.
  split.
  - split; [reflexivity|]. split; [reflexivity|].
    exact (proj1 (TLDS_longest_alternative_first (H := Mini.html5lib))
                 220 219 (u "co") (u "com") eq_refl eq_refl eq_refl).
  - apply (proj1 (proj2 (proj2 (TLDS_longest_alternative_first
                                  (H := Mini.html5lib))))
                 ltac:(repeat constructor)
                 "e"%char (u "xample") (u "com") (u " now"));
      [reflexivity|repeat constructor|vm_compute; tauto|reflexivity].
Defined.
